(** * Ax search spaces: a shallow embedding of [ax/core/search_space.py]

    The development follows the Python module top to bottom: parameter
    values and exceptions, ordered dictionaries, the object store, the
    methods of [SearchSpace] and of [HierarchicalSearchSpace], and then the
    properties of those methods. *)

From Stdlib Require Import ZArith SpecFloat.
From stdpp Require Import base option list strings functions gmap sets.

Open Scope string_scope.
Open Scope list_scope.

(** ** Parameter values *)

(** [TParamValue = Optional[Union[str, bool, float, int]]]. Python floats are
    IEEE-754 binary64 numbers, written here as [spec_float] values. *)
Inductive TParamValue :=
| VNone
| VStr (s : string)
| VBool (b : bool)
| VFloat (f : spec_float)
| VInt (z : Z).

Definition is_None (value : TParamValue) : bool :=
  match value with VNone => true | _ => false end.

(** ** Ordered dictionaries

    A Python [dict] keeps its keys in insertion order; assigning to a key
    that is present replaces the value where it stands. *)
Abbreviation dict V := (list (string * V)).

Fixpoint dict_get {V} (k : string) (d : dict V) : option V :=
  match d with
  | [] => None
  | (k', v) :: d' => if decide (k = k') then Some v else dict_get k d'
  end.

Fixpoint dict_set {V} (k : string) (v : V) (d : dict V) : dict V :=
  match d with
  | [] => [(k, v)]
  | (k', v') :: d' =>
      if decide (k = k') then (k, v) :: d' else (k', v') :: dict_set k v d'
  end.

Definition dict_keys {V} (d : dict V) : list string := d.*1.
Definition dict_values {V} (d : dict V) : list V := d.*2.
Definition dict_contains {V} (k : string) (d : dict V) : bool :=
  bool_decide (is_Some (dict_get k d)).

(** [d1.update(d2)]. *)
Definition dict_update {V} (d1 d2 : dict V) : dict V :=
  foldl (λ d kv, dict_set kv.1 kv.2 d) d1 d2.

(** [{key(x): val(x) for x in xs}]. *)
Definition dict_comprehension {A V} (key : A → string) (val : A → V)
    (xs : list A) : dict V :=
  foldl (λ d x, dict_set (key x) (val x) d) [] xs.

(** ** Exceptions *)

Abbreviation loc := nat.

(** What an error message of the module names. The f-strings themselves are
    not reproduced, only the values they interpolate. *)
Inductive message :=
| names_must_be_unique
| not_part_of_the_search_space (parameter_name : string)
| does_not_exist (name : string)
| definition_does_not_match (name : string)
| already_exists (name : string)
| does_not_exist_use_add (name : string)
| cannot_update_type (name prev_type new_type : string)
| wrong_number_of_parameters (given expected : nat)
| not_defined_in_search_space (name : string)
| not_a_valid_value (value : TParamValue) (name : string)
| constraint_is_violated (constraint : loc)
| could_not_find_root (dependent_parameter_names : gset string)
    (num_parameters : nat) (root_parameters : gset string)
| subtrees_contain_the_same_parameters (names : gset string)
| not_reachable_from_the_root (names : gset string)
| no_message.

(** The exception classes the module raises itself ([ValueError],
    [NotImplementedError], [UserInputError]) and those of the interpreter
    that its statements can trigger. *)
Inductive exception :=
| ValueError (msg : message)
| NotImplementedError (msg : message)
| UserInputError (msg : message)
| KeyError (key : string)
| AttributeError (attribute : string)
| TypeError
| OverflowError
| StopIteration
| RuntimeError
| RecursionError.

Inductive outcome (A : Type) :=
| Return (a : A)
| Raise (e : exception).
Arguments Return {A} a.
Arguments Raise {A} e.

#[global] Instance outcome_ret : MRet outcome := λ A a, Return a.
#[global] Instance outcome_bind : MBind outcome := λ A B f m,
  match m with Return a => f a | Raise e => Raise e end.

(** A [for] loop whose body may raise. *)
Fixpoint for_ {A} (xs : list A) (body : A → outcome unit) : outcome unit :=
  match xs with
  | [] => Return ()
  | x :: xs' => body x ≫= λ _, for_ xs' body
  end.

(** [d[k]]. *)
Definition subscript {V} (d : dict V) (k : string) : outcome V :=
  match dict_get k d with Some v => Return v | None => Raise (KeyError k) end.

(** ** Collaborators *)

(** The interface of [ax.core.parameter.Parameter] that the module uses.
    The type [P] is the state of a parameter object; Python's [==] on
    parameters compares states and is modelled by equality on [P]. *)
Class ParameterClass (P : Type) := {
  parameter_eq_dec :: EqDecision P;
  name : P → string;
  (** the name of the member of the [ParameterType] enumeration *)
  parameter_type : P → string;
  is_numeric : P → bool;
  is_hierarchical : P → bool;
  dependents : P → list (TParamValue * list string);
  validate : P → TParamValue → bool;
  is_valid_type : P → TParamValue → bool;
  cast : P → TParamValue → outcome TParamValue;
  clone : P → P;
}.

(** Modelled from the spec: the constraint classes of
    [ax.core.parameter_constraint], which is not part of the sources. The
    structural constraints hold references to parameter objects; the base
    class holds a mapping from parameter names to coefficients. *)
Inductive ParameterConstraint :=
| OrderConstraint (_lower_parameter _upper_parameter : loc)
| SumConstraint (parameters : list loc) (is_upper_bound : bool)
    (bound : spec_float)
| LinearConstraint (constraint_dict : dict spec_float) (bound : spec_float).

(** [constraint.parameters] of a structural constraint. *)
Definition constraint_parameters (c : ParameterConstraint) : list loc :=
  match c with
  | OrderConstraint l u => [l; u]
  | SumConstraint ps _ _ => ps
  | LinearConstraint _ _ => []
  end.

Definition is_structural (c : ParameterConstraint) : bool :=
  match c with LinearConstraint _ _ => false | _ => true end.

(** [ax.core.arm.Arm]: a parameterization and an optional name. *)
Record Arm := mkArm {
  Arm_parameters : dict TParamValue;
  Arm_name : option string;
}.

Definition has_name (arm : Arm) : bool := bool_decide (is_Some (Arm_name arm)).

(** ** Search-space objects and the store *)

Inductive class := SearchSpaceClass | HierarchicalSearchSpaceClass.

(** The attributes of a search-space object. The last two are assigned by
    [HierarchicalSearchSpace.__init__] only. *)
Record SearchSpace := mkSearchSpace {
  __class__ : class;
  _parameters : dict loc;
  _parameter_constraints : list loc;
  _all_parameter_names : option (gset string);
  _root : option loc;
}.

(** Modelled from the spec: [ParameterConstraint.check], a predicate over a
    numeric parameterization. It reads the constraint's attributes and the
    names of the parameters the constraint refers to. *)
Class ConstraintClass (P : Type) := {
  check : (loc → P) → ParameterConstraint → dict spec_float → bool;
}.

(** What the interpreter supplies: the parser behind [float(s)] for a
    string [s] ([None] when the string is not a number), and the number of
    nested calls of a recursive function it allows. *)
Class Interpreter := {
  float_of_str : string → option spec_float;
  recursion_limit : nat;
}.

Section Model.
Context {P : Type} `{!ParameterClass P, !ConstraintClass P, !Interpreter}.

(** Objects live in a store and are referred to by location, so that two
    references can be told to denote the same object ([is]) or two equal
    ones ([==]). *)
Record heap := mkHeap {
  parameter_at : loc → P;
  constraint_at : loc → ParameterConstraint;
  search_space_at : loc → SearchSpace;
  next_loc : loc;
}.

(** Statements: they may change the store, and what they changed before
    raising stays changed. *)
Definition M (A : Type) : Type := heap → outcome A * heap.

#[global] Instance M_ret : MRet M := λ A a h, (Return a, h).
#[global] Instance M_bind : MBind M := λ A B f m h,
  match m h with
  | (Return a, h') => f a h'
  | (Raise e, h') => (Raise e, h')
  end.

Definition raise {A} (e : exception) : M A := λ h, (Raise e, h).
Definition get_heap : M heap := λ h, (Return h, h).
(** An expression that reads the store and changes nothing. *)
Definition eval {A} (f : heap → outcome A) : M A := λ h, (f h, h).

Fixpoint forM_ {A} (xs : list A) (body : A → M unit) : M unit :=
  match xs with
  | [] => mret ()
  | x :: xs' => body x ≫= λ _, forM_ xs' body
  end.

Definition set_constraint (c : loc) (v : ParameterConstraint) : M unit :=
  λ h, (Return (), mkHeap (parameter_at h) (<[c := v]> (constraint_at h))
                          (search_space_at h) (next_loc h)).

Definition set_search_space (s : loc) (v : SearchSpace) : M unit :=
  λ h, (Return (), mkHeap (parameter_at h) (constraint_at h)
                          (<[s := v]> (search_space_at h)) (next_loc h)).

Definition new_parameter (p : P) : M loc :=
  λ h, (Return (next_loc h),
        mkHeap (<[next_loc h := p]> (parameter_at h)) (constraint_at h)
               (search_space_at h) (S (next_loc h))).

Definition new_constraint (c : ParameterConstraint) : M loc :=
  λ h, (Return (next_loc h),
        mkHeap (parameter_at h) (<[next_loc h := c]> (constraint_at h))
               (search_space_at h) (S (next_loc h))).

(** [object.__new__(cls)]: an object of class [cls] with no attribute
    assigned yet. *)
Definition new_search_space (cls : class) : M loc :=
  λ h, (Return (next_loc h),
        mkHeap (parameter_at h) (constraint_at h)
               (<[next_loc h := mkSearchSpace cls [] [] None None]>
                  (search_space_at h))
               (S (next_loc h))).

(** Attribute assignments on a search space. *)
Definition set__parameters (self : loc) (d : dict loc) : M unit :=
  λ h, let s := search_space_at h self in
  set_search_space self
    (mkSearchSpace (__class__ s) d (_parameter_constraints s)
       (_all_parameter_names s) (_root s)) h.

Definition set__parameter_constraints (self : loc) (cs : list loc) : M unit :=
  λ h, let s := search_space_at h self in
  set_search_space self
    (mkSearchSpace (__class__ s) (_parameters s) cs
       (_all_parameter_names s) (_root s)) h.

Definition set__all_parameter_names (self : loc) (ns : gset string) : M unit :=
  λ h, let s := search_space_at h self in
  set_search_space self
    (mkSearchSpace (__class__ s) (_parameters s) (_parameter_constraints s)
       (Some ns) (_root s)) h.

Definition set__root (self : loc) (r : loc) : M unit :=
  λ h, let s := search_space_at h self in
  set_search_space self
    (mkSearchSpace (__class__ s) (_parameters s) (_parameter_constraints s)
       (_all_parameter_names s) (Some r)) h.

(** [p.name] for a reference [p]. *)
Definition name_of (h : heap) (p : loc) : string := name (parameter_at h p).

(** ** Python's [float] *)

Definition float_of_int (z : Z) : outcome spec_float :=
  match binary_normalize 53 1024 z 0 false with
  | S754_infinity _ => Raise OverflowError
  | f => Return f
  end.

Definition float (value : TParamValue) : outcome spec_float :=
  match value with
  | VNone => Raise TypeError
  | VStr s =>
      match float_of_str s with
      | Some f => Return f
      | None => Raise (ValueError no_message)
      end
  | VBool b => float_of_int (if b then 1 else 0)
  | VFloat f => Return f
  | VInt z => float_of_int z
  end.

(** ** [SearchSpace] *)

(** [_validate_parameter_constraints]. *)
Definition _validate_parameter_constraints (h : heap) (self : loc)
    (parameter_constraints : list loc) : outcome unit :=
  let params := _parameters (search_space_at h self) in
  for_ parameter_constraints (λ constraint,
    match constraint_at h constraint with
    | LinearConstraint constraint_dict _ =>
        for_ (dict_keys constraint_dict) (λ parameter_name,
          if negb (dict_contains parameter_name params)
          then Raise (ValueError (does_not_exist parameter_name))
          else Return ())
    | c =>
        for_ (constraint_parameters c) (λ parameter,
          if negb (dict_contains (name_of h parameter) params)
          then Raise (ValueError (does_not_exist (name_of h parameter)))
          else
            own ← subscript params (name_of h parameter);
            if bool_decide (parameter_at h parameter ≠ parameter_at h own)
            then Raise (ValueError
                          (definition_does_not_match (name_of h parameter)))
            else Return ())
    end).

(** [constraint.parameters[idx] = self._parameters[parameter.name]] for each
    [idx, parameter] of [enumerate(constraint.parameters)]. *)
Fixpoint rebind_sum (self constraint : loc) (idx : nat) (todo : list loc)
    : M unit :=
  match todo with
  | [] => mret ()
  | parameter :: todo' =>
      h ← get_heap;
      own ← eval (λ h, subscript (_parameters (search_space_at h self))
                         (name_of h parameter));
      match constraint_at h constraint with
      | SumConstraint ps ub b =>
          set_constraint constraint (SumConstraint (<[idx := own]> ps) ub b)
      | _ => mret ()
      end;;
      rebind_sum self constraint (S idx) todo'
  end.

(** The body of the loop of [set_parameter_constraints]: the constraint's
    references are set to the search space's parameters of the same
    names. *)
Definition rebind (self constraint : loc) : M unit :=
  h ← get_heap;
  match constraint_at h constraint with
  | OrderConstraint l u =>
      l' ← eval (λ h, subscript (_parameters (search_space_at h self))
                        (name_of h l));
      set_constraint constraint (OrderConstraint l' u);;
      u' ← eval (λ h, subscript (_parameters (search_space_at h self))
                        (name_of h u));
      set_constraint constraint (OrderConstraint l' u')
  | SumConstraint ps _ _ => rebind_sum self constraint 0 ps
  | LinearConstraint _ _ => mret ()
  end.

(** [set_parameter_constraints]. *)
Definition set_parameter_constraints (self : loc)
    (parameter_constraints : list loc) : M unit :=
  eval (λ h, _validate_parameter_constraints h self parameter_constraints);;
  forM_ parameter_constraints (rebind self);;
  set__parameter_constraints self parameter_constraints.

(** [add_parameter_constraints]. *)
Definition add_parameter_constraints (self : loc)
    (parameter_constraints : list loc) : M unit :=
  eval (λ h, _validate_parameter_constraints h self parameter_constraints);;
  h ← get_heap;
  set__parameter_constraints self
    (_parameter_constraints (search_space_at h self) ++ parameter_constraints).

(** [SearchSpace.__init__]. *)
Definition SearchSpace__init__ (self : loc) (parameters : list loc)
    (parameter_constraints : option (list loc)) : M unit :=
  h ← get_heap;
  if bool_decide (size (list_to_set (name_of h <$> parameters) : gset string)
                  < length parameters)
  then raise (ValueError names_must_be_unique)
  else
    set__parameters self (dict_comprehension (name_of h) id parameters);;
    set_parameter_constraints self (default [] parameter_constraints).

(** The call [SearchSpace(parameters, parameter_constraints)]. *)
Definition new_SearchSpace (parameters : list loc)
    (parameter_constraints : option (list loc)) : M loc :=
  self ← new_search_space SearchSpaceClass;
  SearchSpace__init__ self parameters parameter_constraints;;
  mret self.

(** [__getitem__]. *)
Definition __getitem__ (h : heap) (self : loc) (parameter_name : string)
    : outcome loc :=
  let params := _parameters (search_space_at h self) in
  if dict_contains parameter_name params
  then subscript params parameter_name
  else Raise (ValueError (not_part_of_the_search_space parameter_name)).

(** [add_parameter]. *)
Definition add_parameter (self : loc) (parameter : loc) : M unit :=
  h ← get_heap;
  let params := _parameters (search_space_at h self) in
  if dict_contains (name_of h parameter) params
  then raise (ValueError (already_exists (name_of h parameter)))
  else set__parameters self (dict_set (name_of h parameter) parameter params).

(** [update_parameter]. *)
Definition update_parameter (self : loc) (parameter : loc) : M unit :=
  h ← get_heap;
  let params := _parameters (search_space_at h self) in
  if negb (dict_contains (name_of h parameter) params)
  then raise (ValueError (does_not_exist_use_add (name_of h parameter)))
  else
    prev ← eval (λ _, subscript params (name_of h parameter));
    let prev_type := parameter_type (parameter_at h prev) in
    if bool_decide (parameter_type (parameter_at h parameter) ≠ prev_type)
    then raise (ValueError
                  (cannot_update_type (name_of h parameter) prev_type
                     (parameter_type (parameter_at h parameter))))
    else set__parameters self (dict_set (name_of h parameter) parameter params).

(** ** [check_membership]

    The three loops of the method, then the method. A loop that can
    [return False] from inside yields [Some false] when it does and [None]
    when it falls through. *)
Fixpoint check_membership_items (h : heap) (params : dict loc)
    (raise_error : bool) (items : dict TParamValue) : outcome (option bool) :=
  match items with
  | [] => Return None
  | (name, value) :: items' =>
      if negb (dict_contains name params) then
        if raise_error
        then Raise (ValueError (not_defined_in_search_space name))
        else Return (Some false)
      else
        p ← subscript params name;
        if negb (validate (parameter_at h p) value) then
          if raise_error
          then Raise (ValueError (not_a_valid_value value name))
          else Return (Some false)
        else check_membership_items h params raise_error items'
  end.

(** [{name: float(value) for name, value in parameterization.items()
      if self._parameters[name].is_numeric}], the dictionary built so far
    being [d]. *)
Fixpoint numerical_param_dict (h : heap) (params : dict loc)
    (items : dict TParamValue) (d : dict spec_float)
    : outcome (dict spec_float) :=
  match items with
  | [] => Return d
  | (name, value) :: items' =>
      p ← subscript params name;
      if is_numeric (parameter_at h p)
      then f ← float value; numerical_param_dict h params items' (dict_set name f d)
      else numerical_param_dict h params items' d
  end.

Fixpoint check_membership_constraints (h : heap) (raise_error : bool)
    (numerical : dict spec_float) (constraints : list loc) : outcome bool :=
  match constraints with
  | [] => Return true
  | constraint :: constraints' =>
      if negb (check (parameter_at h) (constraint_at h constraint) numerical)
      then
        if raise_error
        then Raise (ValueError (constraint_is_violated constraint))
        else Return false
      else check_membership_constraints h raise_error numerical constraints'
  end.

Definition check_membership (h : heap) (self : loc)
    (parameterization : dict TParamValue) (raise_error : bool)
    : outcome bool :=
  let params := _parameters (search_space_at h self) in
  if bool_decide (length parameterization ≠ length params) then
    if raise_error
    then Raise (ValueError (wrong_number_of_parameters
                              (length parameterization) (length params)))
    else Return false
  else
    returned ← check_membership_items h params raise_error parameterization;
    match returned with
    | Some b => Return b
    | None =>
        numerical ← numerical_param_dict h params parameterization [];
        check_membership_constraints h raise_error numerical
          (_parameter_constraints (search_space_at h self))
    end.

(** ** [check_types] *)

Fixpoint check_types_items (h : heap) (params : dict loc)
    (allow_none raise_error : bool) (items : dict TParamValue)
    : outcome (option bool) :=
  match items with
  | [] => Return None
  | (name, value) :: items' =>
      if negb (dict_contains name params) then
        if raise_error
        then Raise (ValueError (not_defined_in_search_space name))
        else Return (Some false)
      else if is_None value && allow_none then
        check_types_items h params allow_none raise_error items'
      else
        p ← subscript params name;
        if negb (is_valid_type (parameter_at h p) value) then
          if raise_error
          then Raise (ValueError (not_a_valid_value value name))
          else Return (Some false)
        else check_types_items h params allow_none raise_error items'
  end.

Definition check_types (h : heap) (self : loc)
    (parameterization : dict TParamValue) (allow_none raise_error : bool)
    : outcome bool :=
  let params := _parameters (search_space_at h self) in
  if bool_decide (length parameterization ≠ length params) then
    if raise_error
    then Raise (ValueError (wrong_number_of_parameters
                              (length parameterization) (length params)))
    else Return false
  else
    returned ← check_types_items h params allow_none raise_error parameterization;
    Return (default true returned).

(** ** [cast_arm], [construct_arm], [clone] *)

(** The loop of [cast_arm], [new_parameters] being the dictionary built so
    far. *)
Fixpoint cast_arm_items (h : heap) (params : dict loc)
    (items : dict TParamValue) (new_parameters : dict TParamValue)
    : outcome (dict TParamValue) :=
  match items with
  | [] => Return new_parameters
  | (name, value) :: items' =>
      match dict_get name params with
      | None =>
          cast_arm_items h params items' (dict_set name value new_parameters)
      | Some p =>
          value' ← cast (parameter_at h p) value;
          cast_arm_items h params items' (dict_set name value' new_parameters)
      end
  end.

(** [SearchSpace.cast_arm]. *)
Definition SearchSpace_cast_arm (h : heap) (self : loc) (arm : Arm)
    : outcome Arm :=
  new_parameters ← cast_arm_items h (_parameters (search_space_at h self))
                      (Arm_parameters arm) [];
  Return (mkArm new_parameters (if has_name arm then Arm_name arm else None)).

(** The loop of [construct_arm] that validates the given values. *)
Definition construct_arm_validate (h : heap) (params : dict loc)
    (parameters : dict TParamValue) : outcome unit :=
  for_ parameters (λ '(p_name, p_value),
    if negb (dict_contains p_name params)
    then Raise (ValueError (does_not_exist p_name))
    else
      p ← subscript params p_name;
      if negb (is_None p_value) && negb (validate (parameter_at h p) p_value)
      then Raise (ValueError (not_a_valid_value p_value p_name))
      else Return ()).

(** [construct_arm]. *)
Definition construct_arm (h : heap) (self : loc)
    (parameters : option (dict TParamValue)) (name : option string)
    : outcome Arm :=
  let params := _parameters (search_space_at h self) in
  let final_parameters : dict TParamValue :=
    dict_comprehension id (λ _, VNone) (dict_keys params) in
  match parameters with
  | None => Return (mkArm final_parameters name)
  | Some parameters =>
      construct_arm_validate h params parameters;;
      Return (mkArm (dict_update final_parameters parameters) name)
  end.

(** [out_of_design_arm]. *)
Definition out_of_design_arm (h : heap) (self : loc) : outcome Arm :=
  construct_arm h self None None.

(** Modelled from the spec: [ParameterConstraint.clone], a deep copy: the
    parameters a structural constraint refers to are cloned with it. *)
Definition clone_constraint (pc : loc) : M loc :=
  h ← get_heap;
  match constraint_at h pc with
  | OrderConstraint l u =>
      l' ← new_parameter (clone (parameter_at h l));
      u' ← new_parameter (clone (parameter_at h u));
      new_constraint (OrderConstraint l' u')
  | SumConstraint ps ub b =>
      ps' ← mapM (λ p, new_parameter (clone (parameter_at h p))) ps;
      new_constraint (SumConstraint ps' ub b)
  | LinearConstraint d b => new_constraint (LinearConstraint d b)
  end.

(** [SearchSpace.clone]; [HierarchicalSearchSpace] does not override it. *)
Definition SearchSpace_clone (self : loc) : M loc :=
  h ← get_heap;
  let s := search_space_at h self in
  parameters ← mapM (λ p, new_parameter (clone (parameter_at h p)))
                    (dict_values (_parameters s));
  parameter_constraints ← mapM clone_constraint (_parameter_constraints s);
  new_SearchSpace parameters (Some parameter_constraints).

(** ** [HierarchicalSearchSpace] *)

(** [_disjoint_union]. *)
Definition _disjoint_union (set1 set2 : gset string) : outcome (gset string) :=
  if negb (bool_decide (set1 ## set2))
  then Raise (UserInputError
                (subtrees_contain_the_same_parameters (set1 ∩ set2)))
  else Return (set1 ∪ set2).

(** A generator is the list of its elements, each still to be computed: an
    element that raises is reached only if the ones before it were asked
    for and did not raise. *)
Abbreviation generator A := (list (outcome A)).

(** [functools.reduce(function, iterable, initial)]. *)
Fixpoint reduce {A B} (function : A → B → outcome A) (iterable : generator B)
    (initial : A) : outcome A :=
  match iterable with
  | [] => Return initial
  | element :: iterable' =>
      b ← element; a ← function initial b; reduce function iterable' a
  end.

(** An element computed in a generator's frame: a [StopIteration] that
    escapes from the frame reaches the consumer as a [RuntimeError]. *)
Definition in_generator {A} (element : outcome A) : outcome A :=
  match element with
  | Raise StopIteration => Raise RuntimeError
  | _ => element
  end.

(** The names [param_name] that
    [for deps in root.dependents.values() for param_name in deps] runs
    through. *)
Definition dependent_names (p : P) : list string := concat (dependents p).*2.

(** The loop of [_find_root] that collects [dependent_parameter_names]. *)
Definition dependent_parameter_names (h : heap) (parameters : list loc)
    : gset string :=
  foldl (λ names parameter,
           if is_hierarchical (parameter_at h parameter)
           then foldl (λ names deps, names ∪ list_to_set deps) names
                      (dependents (parameter_at h parameter)).*2
           else names) ∅ parameters.

(** [_find_root]. *)
Definition _find_root (h : heap) (self : loc) : outcome loc :=
  let s := search_space_at h self in
  let dependent_parameter_names :=
    dependent_parameter_names h (dict_values (_parameters s)) in
  match _all_parameter_names s with
  | None => Raise (AttributeError "_all_parameter_names")
  | Some all_parameter_names =>
      let root_parameters := all_parameter_names ∖ dependent_parameter_names in
      if bool_decide (size root_parameters ≠ 1)
      then Raise (NotImplementedError
                    (could_not_find_root dependent_parameter_names
                       (length (_parameters s)) root_parameters))
      else
        match elements root_parameters with
        | root :: _ => subscript (_parameters s) root
        | [] => Raise (KeyError "pop from an empty set")
        end
  end.

(** [_check_subtree], the inner function of
    [_validate_hierarchical_structure]; [depth] is the number of nested
    calls still allowed. *)
Fixpoint _check_subtree (depth : nat) (h : heap) (self : loc) (root : loc)
    : outcome (gset string) :=
  match depth with
  | 0 => Raise RecursionError
  | S depth' =>
      let visited : gset string := {[ name_of h root ]} in
      if negb (is_hierarchical (parameter_at h root)) then Return visited
      else
        let visited_in_subtrees : generator (gset string) :=
          (λ param_name,
             in_generator (__getitem__ h self param_name
                             ≫= _check_subtree depth' h self))
            <$> dependent_names (parameter_at h root) in
        match visited_in_subtrees with
        | [] => Raise StopIteration
        | first :: rest =>
            initial ← first;
            subtrees ← reduce _disjoint_union rest initial;
            Return (visited ∪ subtrees)
        end
  end.

(** [_validate_hierarchical_structure]. *)
Definition _validate_hierarchical_structure (h : heap) (self : loc)
    : outcome unit :=
  let s := search_space_at h self in
  match _root s, _all_parameter_names s with
  | Some root, Some all_parameter_names =>
      visited ← _check_subtree recursion_limit h self root;
      if bool_decide (size (all_parameter_names ∖ visited) ≠ 0)
      then Raise (UserInputError
                    (not_reachable_from_the_root
                       (all_parameter_names ∖ visited)))
      else Return ()
  | None, _ => Raise (AttributeError "_root")
  | _, None => Raise (AttributeError "_all_parameter_names")
  end.

(** [HierarchicalSearchSpace.__init__]. *)
Definition HierarchicalSearchSpace__init__ (self : loc) (parameters : list loc)
    (parameter_constraints : option (list loc)) : M unit :=
  SearchSpace__init__ self parameters parameter_constraints;;
  h ← get_heap;
  set__all_parameter_names self
    (list_to_set (dict_keys (_parameters (search_space_at h self))));;
  root ← eval (λ h, _find_root h self);
  set__root self root;;
  eval (λ h, _validate_hierarchical_structure h self).

(** The call [HierarchicalSearchSpace(parameters, parameter_constraints)]. *)
Definition new_HierarchicalSearchSpace (parameters : list loc)
    (parameter_constraints : option (list loc)) : M loc :=
  self ← new_search_space HierarchicalSearchSpaceClass;
  HierarchicalSearchSpace__init__ self parameters parameter_constraints;;
  mret self.

(** ** Method lookup

    [cast_arm] is overridden by [HierarchicalSearchSpace]; [flatten] is
    defined by [HierarchicalSearchSpace] only. *)
Definition cast_arm (h : heap) (self : loc) (arm : Arm) : outcome Arm :=
  match __class__ (search_space_at h self) with
  | SearchSpaceClass => SearchSpace_cast_arm h self arm
  | HierarchicalSearchSpaceClass => Raise (NotImplementedError no_message)
  end.

Definition flatten (h : heap) (self : loc) : outcome loc :=
  match __class__ (search_space_at h self) with
  | SearchSpaceClass => Raise (AttributeError "flatten")
  | HierarchicalSearchSpaceClass => Raise (NotImplementedError no_message)
  end.
End Model.

Arguments heap P : clear implicits.
Arguments M P A : clear implicits.

(** ** Views of the parameters *)

(** The two classes of [ax.core.parameter] that the module tests parameters
    against: [isinstance(parameter, RangeParameter)] and
    [isinstance(parameter, FixedParameter)]. *)
Class ParameterKinds (P : Type) := {
  isinstance_RangeParameter : P → bool;
  isinstance_FixedParameter : P → bool;
}.

Section Views.
Context {P : Type} `{!ParameterKinds P}.

(** [range_parameters]. *)
Definition range_parameters (h : heap P) (self : loc) : dict loc :=
  dict_comprehension fst snd
    (filter (λ item, isinstance_RangeParameter (parameter_at h item.2) = true)
       (_parameters (search_space_at h self))).

(** [tunable_parameters]. *)
Definition tunable_parameters (h : heap P) (self : loc) : dict loc :=
  dict_comprehension fst snd
    (filter (λ item, isinstance_FixedParameter (parameter_at h item.2) = false)
       (_parameters (search_space_at h self))).
End Views.

(** ** Vocabulary of the statements *)

Section Vocabulary.
Context {P : Type} `{!ParameterClass P, !ConstraintClass P, !Interpreter}.
Implicit Types (h : heap P) (self : loc).

(** The search space's own parameter of the name of [p], if it has one. *)
Definition own h self (p : loc) : option loc :=
  dict_get (name_of h p) (_parameters (search_space_at h self)).

(** Every key of the mapping is the name of the parameter it maps to. *)
Definition keyed_by_name h (params : dict loc) : Prop :=
  ∀ k l, dict_get k params = Some l → name_of h l = k.

(** What [_validate_parameter_constraints] asks of constraints: the names
    in a constraint's dictionary are parameters of the space, and a
    parameter that a structural constraint refers to equals the space's
    parameter of that name. *)
Definition constraints_valid h (params : dict loc) (cs : list loc) : Prop :=
  ∀ c, c ∈ cs →
    match constraint_at h c with
    | LinearConstraint d _ => ∀ k, k ∈ dict_keys d → k ∈ dict_keys params
    | c' =>
        ∀ p, p ∈ constraint_parameters c' →
          ∃ o, dict_get (name_of h p) params = Some o ∧
               parameter_at h p = parameter_at h o
    end.

(** The constraint with each reference replaced by the search space's own
    parameter of that name. *)
Definition rebound h self (c : ParameterConstraint) : ParameterConstraint :=
  let own' p := default p (own h self p) in
  match c with
  | OrderConstraint l u => OrderConstraint (own' l) (own' u)
  | SumConstraint ps ub b => SumConstraint (own' <$> ps) ub b
  | LinearConstraint d b => LinearConstraint d b
  end.

(** The constraint refers to the search space's parameter objects
    themselves. *)
Definition refers_to_own h self (c : ParameterConstraint) : Prop :=
  ∀ p, p ∈ constraint_parameters c → own h self p = Some p.

(** The heap [h'] differs from [h] in constraint objects only. *)
Definition same_but_constraints h h' : Prop :=
  parameter_at h' = parameter_at h ∧
  search_space_at h' = search_space_at h ∧
  next_loc h' = next_loc h.

(** One entry per parameter of the list, under the parameter's name. *)
Definition parameters_dict h (parameters : list loc) : dict loc :=
  (λ p, (name_of h p, p)) <$> parameters.

(** The parameter of the space named [k] is numeric. *)
Definition is_numeric_name h (params : dict loc) (k : string) : bool :=
  match dict_get k params with
  | Some l => is_numeric (parameter_at h l)
  | None => false
  end.

(** The items with their values coerced to floating point. *)
Definition coerced (items : dict TParamValue) (fs : dict spec_float) : Prop :=
  Forall2 (λ kv kf, kf.1 = kv.1 ∧ float kv.2 = Return kf.2) items fs.

(** The value of an item of a parameterization passes the [validate] of
    the parameter of the item's name. *)
Definition valid_item h (params : dict loc) (kv : string * TParamValue) : Prop :=
  ∃ l, dict_get kv.1 params = Some l ∧ validate (parameter_at h l) kv.2 = true.

(** The four conditions of membership. *)
Definition member h self (p : dict TParamValue) : Prop :=
  let s := search_space_at h self in
  length p = length (_parameters s) ∧
  (∀ k, k ∈ dict_keys p → k ∈ dict_keys (_parameters s)) ∧
  (∀ kv, kv ∈ p → valid_item h (_parameters s) kv) ∧
  ∃ fs, coerced (filter (λ kv, is_numeric_name h (_parameters s) kv.1 = true) p) fs ∧
        ∀ c, c ∈ _parameter_constraints s →
             check (parameter_at h) (constraint_at h c) (dict_update [] fs) = true.


(** The heap [h'] has the objects of [h] unchanged, and maybe objects
    allocated since. *)
Definition below h h' : Prop :=
  (next_loc h ≤ next_loc h')%nat ∧
  search_space_at h' = search_space_at h ∧
  ∀ l, l < next_loc h →
       parameter_at h' l = parameter_at h l ∧
       constraint_at h' l = constraint_at h l.

(** The constraint at [c'] in [h'] is a deep copy of the one at [pc] in [h]:
    its references are to clones of the parameters the original refers to,
    and a dictionary of coefficients is the original's. *)
Definition deep_copy h (pc : loc) h' (c' : loc) : Prop :=
  c' < next_loc h' ∧
  (∀ q', q' ∈ constraint_parameters (constraint_at h' c') →
         q' < next_loc h' ∧
         ∃ q, q ∈ constraint_parameters (constraint_at h pc) ∧
              parameter_at h' q' = clone (parameter_at h q)) ∧
  (∀ d b, constraint_at h' c' = LinearConstraint d b →
          constraint_at h pc = LinearConstraint d b).

(** The constraints and the parameters they refer to were allocated
    before [next_loc]. *)
Definition allocated h (cs : list loc) : Prop :=
  ∀ pc, pc ∈ cs →
        pc < next_loc h ∧
        ∀ q, q ∈ constraint_parameters (constraint_at h pc) → q < next_loc h.

Definition pairwise_disjoint (sets : list (gset string)) : Prop :=
  ∀ i j s1 s2, i < j → sets !! i = Some s1 → sets !! j = Some s2 → s1 ## s2.

(** Validating the parameter named [param_name] as a subtree, with [depth]
    nested calls allowed, visits the names [s]. *)
Definition subtree_of (depth : nat) h self (param_name : string)
    (s : gset string) : Prop :=
  ∃ child, __getitem__ h self param_name = Return child ∧
           _check_subtree depth h self child = Return s.

(** Two of the sets share the name [x]. *)
Definition shared_by (sets : list (gset string)) (x : string) : Prop :=
  ∃ i j s1 s2, i < j ∧ sets !! i = Some s1 ∧ sets !! j = Some s2 ∧
               x ∈ s1 ∧ x ∈ s2.
End Vocabulary.

(** ** More vocabulary *)

Section Vocabulary.
Context {P : Type} `{!ParameterClass P, !ConstraintClass P, !Interpreter}.
Implicit Types (h : heap P) (self : loc).

(** What a Python dictionary of parameters by name is: no key occurs
    twice, and every key is the name of its parameter. *)
Definition well_formed h self : Prop :=
  NoDup (dict_keys (_parameters (search_space_at h self))) ∧
  keyed_by_name h (_parameters (search_space_at h self)).

(** The attributes of the object other than its dictionary of parameters
    are the same in [h'] as in [h], and so are all parameter and constraint
    objects. *)
Definition same_but_parameters h h' self : Prop :=
  let s := search_space_at h self in
  let s' := search_space_at h' self in
  __class__ s' = __class__ s ∧
  _parameter_constraints s' = _parameter_constraints s ∧
  _all_parameter_names s' = _all_parameter_names s ∧
  _root s' = _root s ∧
  parameter_at h' = parameter_at h ∧
  constraint_at h' = constraint_at h.

(** The value of an item of a parameterization is of the type of the
    parameter of the item's name, or is [None] where that is allowed. *)
Definition valid_type_item h (params : dict loc) (allow_none : bool)
    (kv : string * TParamValue) : Prop :=
  ∃ l, dict_get kv.1 params = Some l ∧
       (is_None kv.2 && allow_none = true ∨
        is_valid_type (parameter_at h l) kv.2 = true).

(** The item [kv'] is what [cast_arm] makes of the item [kv]: the key is
    kept; the value is cast by the parameter of that name, and kept where
    the space has no such parameter. *)
Definition cast_item h (params : dict loc) (kv kv' : string * TParamValue)
    : Prop :=
  kv'.1 = kv.1 ∧
  match dict_get kv.1 params with
  | None => kv'.2 = kv.2
  | Some p => cast (parameter_at h p) kv.2 = Return kv'.2
  end.

(** What validation asks of the copies that [clone] makes of the
    constraints: the names in a constraint's dictionary are parameters of
    the space, and a parameter that a structural constraint refers to has
    the name of a parameter of the space whose [clone] is its own. *)
Definition clones_valid h (params : dict loc) (cs : list loc) : Prop :=
  ∀ c, c ∈ cs →
    match constraint_at h c with
    | LinearConstraint d _ => ∀ k, k ∈ dict_keys d → k ∈ dict_keys params
    | c' =>
        ∀ q, q ∈ constraint_parameters c' →
          ∃ o, dict_get (name_of h q) params = Some o ∧
               clone (parameter_at h q) = clone (parameter_at h o)
    end.

(** The constraint at [c'] in [h'] is the copy of the one at [pc] in [h],
    reference for reference: a deep copy whose references are, one for
    one, to clones of the parameters that the original refers to. *)
Definition copied h (pc : loc) h' (c' : loc) : Prop :=
  deep_copy h pc h' c' ∧
  Forall2 (λ q q', parameter_at h' q' = clone (parameter_at h q))
    (constraint_parameters (constraint_at h pc))
    (constraint_parameters (constraint_at h' c')) ∧
  (∀ d b, constraint_at h pc = LinearConstraint d b →
          constraint_at h' c' = LinearConstraint d b).

(** The outcome [o'] is the outcome [o] unless [o] is a
    [RecursionError]. *)
Definition deeper {A} (o o' : outcome A) : Prop :=
  o = Raise RecursionError ∨ o' = o.

(** The hierarchical parameter [q] lists the name [n] as its dependent
    number [i], counting through the lists of all its values. *)
Definition lists_dependent h (q : loc) (i : nat) (n : string) : Prop :=
  is_hierarchical (parameter_at h q) = true ∧
  dependent_names (parameter_at h q) !! i = Some n.

(** [child] is the parameter of the space under a name that the
    hierarchical parameter [parent] lists as a dependent. *)
Definition depends_on h self (parent child : loc) : Prop :=
  ∃ i n, lists_dependent h parent i n ∧ __getitem__ h self n = Return child.
End Vocabulary.
(** ** Objects for the examples

    A parameter class written for the examples, the way a test would
    subclass [Parameter]: an integer parameter with inclusive bounds, and a
    choice among strings whose values may have dependents. A clone has the
    state of its original. *)
Inductive example_parameter :=
| int_parameter (name : string) (lower upper : Z)
| choice_parameter (name : string) (values : list string)
    (dependents : list (string * list string)).

#[global] Instance example_parameter_eq_dec : EqDecision example_parameter.
Proof. solve_decision. Defined.

#[global] Instance example_parameter_class : ParameterClass example_parameter := {|
  name p :=
    match p with int_parameter n _ _ | choice_parameter n _ _ => n end;
  parameter_type p :=
    match p with int_parameter _ _ _ => "INT" | _ => "STRING" end;
  is_numeric p :=
    match p with int_parameter _ _ _ => true | _ => false end;
  is_hierarchical p :=
    match p with
    | choice_parameter _ _ (_ :: _) => true
    | _ => false
    end;
  dependents p :=
    match p with
    | choice_parameter _ _ deps => prod_map VStr id <$> deps
    | _ => []
    end;
  validate p value :=
    match p, value with
    | int_parameter _ lower upper, VInt z =>
        bool_decide (lower ≤ z ≤ upper)%Z
    | choice_parameter _ values _, VStr s => bool_decide (s ∈ values)
    | _, _ => false
    end;
  is_valid_type p value :=
    match p, value with
    | int_parameter _ _ _, VInt _ | choice_parameter _ _ _, VStr _ => true
    | _, _ => false
    end;
  cast p value :=
    match p, value with
    | _, VNone => Return VNone
    | int_parameter _ _ _, VInt z => Return (VInt z)
    | int_parameter _ _ _, VBool b => Return (VInt (if b then 1 else 0))
    | choice_parameter _ _ _, VStr s => Return (VStr s)
    | _, _ => Raise (ValueError no_message)
    end;
  clone p := p;
|}.

(** A [check] for the examples: an order constraint compares the values of
    its two parameters, a sum constraint compares the sum of its parameters'
    values with the bound, a linear constraint the weighted sum. *)
Definition example_value (d : dict spec_float) (n : string) : spec_float :=
  default (S754_zero false) (dict_get n d).

#[global] Instance example_constraint_class : ConstraintClass example_parameter := {|
  check parameter_at c d :=
    match c with
    | OrderConstraint l u =>
        SFleb (example_value d (name (parameter_at l)))
              (example_value d (name (parameter_at u)))
    | SumConstraint ps is_upper_bound bound =>
        let total :=
          foldr (λ p acc, SFadd 53 1024 (example_value d (name (parameter_at p))) acc)
                (S754_zero false) ps in
        if is_upper_bound then SFleb total bound else SFleb bound total
    | LinearConstraint constraint_dict bound =>
        SFleb (foldr (λ '(n, w) acc,
                        SFadd 53 1024 (SFmul 53 1024 w (example_value d n)) acc)
                     (S754_zero false) constraint_dict)
              bound
    end;
|}.

(** An interpreter for the examples. None of them converts a string to a
    float, and its parser knows no string. *)
#[global] Instance example_interpreter : Interpreter := {|
  float_of_str _ := None;
  recursion_limit := 100;
|}.

(** The parameters of the examples, by location. *)
Definition example_parameters (l : loc) : example_parameter :=
  match l with
  | 0 => choice_parameter "A" ["v1"; "v2"] [("v1", ["B"]); ("v2", ["C"])]
  | 1 => int_parameter "B" 0 10
  | 2 => int_parameter "C" 0 10
  | 3 => choice_parameter "D" ["x"] []
  | 4 => choice_parameter "A" ["v1"] [("v1", ["B"])]
  | 5 => choice_parameter "B" ["x"] [("x", ["C"])]
  | 6 => int_parameter "B" 0 10
  | 7 => int_parameter "C" 0 10
  | 8 => int_parameter "B" 0 5
  | 9 => int_parameter "N" 0 (2 ^ 1024)
  | 10 => choice_parameter "R" ["v1"] [("v1", ["S"; "T"])]
  | 11 => choice_parameter "S" ["x"] [("x", ["C"])]
  | 12 => choice_parameter "T" ["x"] [("x", ["C"])]
  | 13 => choice_parameter "E" ["x"] [("x", ["F"])]
  | 14 => choice_parameter "F" ["x"] [("x", ["E"])]
  | _ => int_parameter "B" 0 10
  end.

(** The constraints of the examples, by location. *)
Definition example_constraints (l : loc) : ParameterConstraint :=
  match l with
  | 50 => OrderConstraint 6 7
  | 51 => LinearConstraint [("Z", S754_finite false 1 0)] (S754_zero false)
  | 52 => OrderConstraint 1 2
  | _ => LinearConstraint [] (S754_zero false)
  end.

Definition example_heap : heap example_parameter :=
  mkHeap example_parameters example_constraints
    (λ _, mkSearchSpace SearchSpaceClass [] [] None None) 100.

(** The heap after [SearchSpace([B, C])], the new object being at
    location 100. *)
Definition heap_B_C : heap example_parameter :=
  (new_SearchSpace [1; 2] None example_heap).2.

(** The heap after [SearchSpace([B, C], [OrderConstraint(B, C)])]. *)
Definition heap_B_le_C : heap example_parameter :=
  (new_SearchSpace [1; 2] (Some [52]) example_heap).2.

(** The heap after [SearchSpace([N])], [N] ranging up to [2 ** 1024]. *)
Definition heap_N : heap example_parameter :=
  (new_SearchSpace [9] None example_heap).2.

(** The heap after [SearchSpace([R, S, T, C])]: [R] has the dependents [S]
    and [T], and both of these have the dependent [C]. *)
Definition heap_R_S_T_C : heap example_parameter :=
  (new_SearchSpace [10; 11; 12; 2] None example_heap).2.

(** The heap after
    [HierarchicalSearchSpace([A, B, C], [OrderConstraint(B, C)])]. *)
Definition heap_hierarchical : heap example_parameter :=
  (new_HierarchicalSearchSpace [0; 1; 2] (Some [52]) example_heap).2.

(** ** More objects for the examples *)

(** The integer parameters of the examples are range parameters; none of
    the examples is a fixed parameter. *)
#[global] Instance example_parameter_kinds : ParameterKinds example_parameter := {|
  isinstance_RangeParameter p :=
    match p with int_parameter _ _ _ => true | _ => false end;
  isinstance_FixedParameter _ := false;
|}.

(** The heap after [SearchSpace([E, F])]: [E] and [F] have each other as
    their dependent. *)
Definition heap_E_F : heap example_parameter :=
  (new_SearchSpace [13; 14] None example_heap).2.

(** Two more parameters: [G], hierarchical with a value that has no
    dependents, and [H], whose dependent is [G]. *)
Definition example_parameters_G_H (l : loc) : example_parameter :=
  match l with
  | 15 => choice_parameter "G" ["x"] [("x", [])]
  | 16 => choice_parameter "H" ["x"] [("x", ["G"])]
  | _ => example_parameters l
  end.

(** The heap after [SearchSpace([H, G])]. *)
Definition heap_H_G : heap example_parameter :=
  (new_SearchSpace [16; 15] None
     (mkHeap example_parameters_G_H example_constraints
        (λ _, mkSearchSpace SearchSpaceClass [] [] None None) 100)).2.

(** The heap after [SearchSpace([B, C], [OrderConstraint(B2, C2)])], where
    [B2] and [C2], at 6 and 7, equal the parameters [B] and [C]. *)
Definition heap_B_C_copies : heap example_parameter :=
  (new_SearchSpace [1; 2] (Some [50]) example_heap).2.

(** The heap after [clone] of the hierarchical space of the examples. *)
Definition heap_cloned : heap example_parameter :=
  (SearchSpace_clone 100 heap_hierarchical).2.

(** A parameter class whose [cast] is not idempotent, the way a subclass of
    [Parameter] may define it: a duration kept in milliseconds, whose
    [cast] takes a number of seconds. *)
Inductive duration_parameter := milliseconds (name : string).

#[global] Instance duration_parameter_eq_dec : EqDecision duration_parameter.
Proof. solve_decision. Defined.

#[global] Instance duration_parameter_class : ParameterClass duration_parameter := {|
  name p := match p with milliseconds n => n end;
  parameter_type _ := "INT";
  is_numeric _ := true;
  is_hierarchical _ := false;
  dependents _ := [];
  validate _ value := match value with VInt _ => true | _ => false end;
  is_valid_type _ value := match value with VInt _ => true | _ => false end;
  cast _ value :=
    match value with
    | VNone => Return VNone
    | VInt seconds => Return (VInt (1000 * seconds))
    | _ => Raise TypeError
    end;
  clone p := p;
|}.

(** * Properties *)

(** ** Ordered dictionaries *)

Section dict.
Context {V : Type}.
Implicit Types (d : dict V) (k : string) (v : V).

Lemma dict_get_Some_elem d k v : dict_get k d = Some v → (k, v) ∈ d.
Proof.
  induction d as [|[k' v'] d IH]; simpl; [done|].
  case_decide; intros; simplify_eq; [left | right; auto].
Qed.

Lemma dict_get_is_Some d k : is_Some (dict_get k d) ↔ k ∈ dict_keys d.
Proof.
  unfold dict_keys. induction d as [|[k' v'] d IH]; simpl.
  - split; [intros [? [=]] | inversion 1].
  - case_decide; subst.
    + split; [intros _; left | eauto].
    + rewrite IH. split; [by right | by inversion 1].
Qed.

Lemma dict_get_None d k : dict_get k d = None ↔ k ∉ dict_keys d.
Proof. rewrite <-dict_get_is_Some, eq_None_not_Some. done. Qed.

Lemma dict_contains_true d k : dict_contains k d = true ↔ k ∈ dict_keys d.
Proof.
  unfold dict_contains. rewrite bool_decide_eq_true. apply dict_get_is_Some.
Qed.

Lemma dict_contains_false d k : dict_contains k d = false ↔ k ∉ dict_keys d.
Proof.
  unfold dict_contains. rewrite bool_decide_eq_false, dict_get_is_Some. done.
Qed.

Lemma dict_get_NoDup d k v :
  NoDup (dict_keys d) → (k, v) ∈ d → dict_get k d = Some v.
Proof.
  unfold dict_keys. induction d as [|[k' v'] d IH]; simpl.
  - inversion 2.
  - rewrite NoDup_cons. intros [Hk Hd]. inversion 1; subst.
    + by rewrite decide_True.
    + rewrite decide_False; [auto|]. intros ->. apply Hk.
      apply list_elem_of_fmap. by exists (k', v).
Qed.

Lemma dict_get_set d k k' v :
  dict_get k' (dict_set k v d) = if decide (k = k') then Some v else dict_get k' d.
Proof.
  induction d as [|[k0 v0] d IH]; simpl.
  - by destruct (decide (k = k')), (decide (k' = k)); simplify_eq.
  - destruct (decide (k = k0)) as [->|]; simpl.
    + by destruct (decide (k0 = k')), (decide (k' = k0)); simplify_eq.
    + destruct (decide (k' = k0)) as [->|]; [by rewrite decide_False|done].
Qed.

Lemma dict_set_notin d k v : k ∉ dict_keys d → dict_set k v d = d ++ [(k, v)].
Proof.
  unfold dict_keys. induction d as [|[k0 v0] d IH]; simpl; [done|].
  rewrite not_elem_of_cons. intros [? ?]. rewrite decide_False by done.
  f_equal. auto.
Qed.

Lemma dict_keys_set_in d k v : k ∈ dict_keys d → dict_keys (dict_set k v d) = dict_keys d.
Proof.
  unfold dict_keys. induction d as [|[k0 v0] d IH]; simpl; [inversion 1|].
  case_decide; subst; [done|]. inversion 1; subst; [done|]. simpl. f_equal. auto.
Qed.

Lemma dict_keys_set d k v :
  dict_keys (dict_set k v d) =
  if decide (k ∈ dict_keys d) then dict_keys d else dict_keys d ++ [k].
Proof.
  case_decide.
  - by apply dict_keys_set_in.
  - rewrite dict_set_notin by done. unfold dict_keys. by rewrite fmap_app.
Qed.

Lemma dict_keys_set_elem d k k' v :
  k' ∈ dict_keys (dict_set k v d) ↔ k' = k ∨ k' ∈ dict_keys d.
Proof.
  rewrite dict_keys_set. case_decide.
  - split; [auto | by intros [->|]].
  - rewrite elem_of_app, list_elem_of_singleton. tauto.
Qed.

Lemma dict_set_NoDup d k v : NoDup (dict_keys d) → NoDup (dict_keys (dict_set k v d)).
Proof.
  intros Hd. rewrite dict_keys_set. case_decide; [done|].
  apply NoDup_app. split_and!; [done| |apply NoDup_singleton].
  intros x Hx ->%list_elem_of_singleton. done.
Qed.

Lemma dict_set_length_in d k v : k ∈ dict_keys d → length (dict_set k v d) = length d.
Proof.
  intros Hk. rewrite <-(length_fmap fst (dict_set k v d)), <-(length_fmap fst d).
  fold (dict_keys (dict_set k v d)). by rewrite dict_keys_set_in.
Qed.

Lemma dict_update_keys d d' :
  (∀ k, k ∈ dict_keys d' → k ∈ dict_keys d) →
  dict_keys (dict_update d d') = dict_keys d.
Proof.
  unfold dict_update. revert d. induction d' as [|[k v] d' IH]; intros d Hd; simpl; [done|].
  rewrite IH.
  - apply dict_keys_set_in, Hd. by left.
  - intros k' Hk'. apply dict_keys_set_elem. right. apply Hd. by right.
Qed.

Lemma dict_comprehension_from {A} (key : A → string) (val : A → V) xs d :
  NoDup (dict_keys d ++ (key <$> xs)) →
  foldl (λ d x, dict_set (key x) (val x) d) d xs = d ++ ((λ x, (key x, val x)) <$> xs).
Proof.
  revert d. induction xs as [|x xs IH]; intros d Hd; simpl.
  - by rewrite app_nil_r.
  - apply NoDup_app in Hd as (Hd & Hdis & Hxs). apply NoDup_cons in Hxs as [Hx Hxs].
    rewrite dict_set_notin by (intros ?; eapply Hdis; [done|by left]).
    rewrite IH, <-app_assoc; [done|].
    unfold dict_keys. rewrite fmap_app. simpl. rewrite <-app_assoc. simpl.
    apply NoDup_app. split_and!; [done| |by apply NoDup_cons].
    intros k Hk. apply Hdis. done.
Qed.

Lemma dict_comprehension_NoDup {A} (key : A → string) (val : A → V) xs :
  NoDup (key <$> xs) →
  dict_comprehension key val xs = (λ x, (key x, val x)) <$> xs.
Proof. intros. unfold dict_comprehension. by rewrite dict_comprehension_from. Qed.

Lemma dict_comprehension_keys_from {A} (key : A → string) (val : A → V) xs d k :
  k ∈ dict_keys (foldl (λ d x, dict_set (key x) (val x) d) d xs) ↔
  k ∈ dict_keys d ∨ k ∈ key <$> xs.
Proof.
  revert d. induction xs as [|x xs IH]; intros d; simpl.
  - split; [auto | intros [|?%elem_of_nil]; done].
  - rewrite IH, dict_keys_set_elem, elem_of_cons. tauto.
Qed.

Lemma dict_comprehension_keys {A} (key : A → string) (val : A → V) xs k :
  k ∈ dict_keys (dict_comprehension key val xs) ↔ k ∈ key <$> xs.
Proof.
  unfold dict_comprehension. rewrite dict_comprehension_keys_from.
  split; [intros [?%elem_of_nil|]; done | auto].
Qed.

Lemma dict_comprehension_keys_NoDup {A} (key : A → string) (val : A → V) xs :
  NoDup (dict_keys (dict_comprehension key val xs)).
Proof.
  unfold dict_comprehension. generalize (NoDup_nil_2 (A:=string)).
  change (@nil string) with (dict_keys (@nil (string * V))).
  generalize (@nil (string * V)). induction xs as [|x xs IH]; intros d Hd; simpl; [done|].
  by apply IH, dict_set_NoDup.
Qed.

(** Every value of a comprehension with a constant value is that constant. *)
Lemma dict_comprehension_const_from {A} (key : A → string) (c : V) xs d k v :
  (∀ k v, dict_get k d = Some v → v = c) →
  dict_get k (foldl (λ d x, dict_set (key x) c d) d xs) = Some v → v = c.
Proof.
  revert d. induction xs as [|x xs IH]; intros d Hd; simpl; [by eauto|].
  apply IH. intros k' v'. rewrite dict_get_set. case_decide; [congruence|eauto].
Qed.

Lemma dict_comprehension_const {A} (key : A → string) (c : V) xs k :
  k ∈ key <$> xs → dict_get k (dict_comprehension key (λ _, c) xs) = Some c.
Proof.
  intros Hk. apply (dict_comprehension_keys key (λ _, c)) in Hk.
  apply dict_get_is_Some in Hk as [v Hv]. rewrite Hv. f_equal.
  eapply dict_comprehension_const_from; [|exact Hv]. by intros ? ? [=].
Qed.
End dict.

(** ** Loops and statements *)

Section Properties.
Context {P : Type} `{!ParameterClass P, !ConstraintClass P, !Interpreter}.
Implicit Types (h : heap P) (self : loc).

Lemma for__Return {A} (xs : list A) (body : A → outcome unit) :
  for_ xs body = Return () ↔ ∀ x, x ∈ xs → body x = Return ().
Proof.
  induction xs as [|x xs IH]; simpl.
  - split; [intros _ x Hx; inversion Hx | done].
  - destruct (body x) as [[]|e] eqn:E; simpl.
    + rewrite IH. split.
      * intros Hxs y Hy. inversion Hy; subst; auto.
      * intros Hxs y Hy. apply Hxs. by right.
    + split; [done|]. intros Hxs. specialize (Hxs x). rewrite E in Hxs.
      discriminate Hxs. by left.
Qed.

Lemma M_bind_run {A B} (m : M P A) (f : A → M P B) h :
  (m ≫= f) h =
    match m h with
    | (Return a, h') => f a h'
    | (Raise e, h') => (Raise e, h')
    end.
Proof. done. Qed.

Lemma same_but_constraints_refl h : same_but_constraints h h.
Proof. done. Qed.

Lemma same_but_constraints_trans h1 h2 h3 :
  same_but_constraints h1 h2 → same_but_constraints h2 h3 →
  same_but_constraints h1 h3.
Proof. intros (?&?&?) (?&?&?). split_and!; congruence. Qed.

Lemma same_but_constraints_own h h' self p :
  same_but_constraints h h' → own h' self p = own h self p.
Proof. intros (Hp&Hs&_). unfold own, name_of. by rewrite Hp, Hs. Qed.

Lemma set_constraint_run c v h :
  ∃ h', set_constraint c v h = (Return (), h') ∧ same_but_constraints h h' ∧
        constraint_at h' = <[c := v]> (constraint_at h).
Proof. eexists. split; [done|]. done. Qed.

Lemma subscript_Return {V} (d : dict V) k v :
  subscript d k = Return v ↔ dict_get k d = Some v.
Proof. unfold subscript. destruct (dict_get k d); split; congruence. Qed.

(** *** Rebinding *)

Lemma rebind_sum_run self c h done todo ub b :
  constraint_at h c = SumConstraint (done ++ todo) ub b →
  (∀ p, p ∈ todo → is_Some (own h self p)) →
  ∃ h', rebind_sum self c (length done) todo h = (Return (), h') ∧
        same_but_constraints h h' ∧
        constraint_at h' c =
          SumConstraint (done ++ ((λ p, default p (own h self p)) <$> todo)) ub b ∧
        ∀ c', c' ≠ c → constraint_at h' c' = constraint_at h c'.
Proof.
  revert h done. induction todo as [|p todo IH]; intros h done Hc Hown.
  - exists h. simpl. rewrite app_nil_r in *. done.
  - destruct (Hown p) as [o Ho]; [by left|].
    cbn [rebind_sum]. unfold mbind, M_bind, get_heap, eval.
    fold (own h self p). unfold own in Ho |- *. unfold subscript. rewrite Ho, Hc.
    cbn [set_constraint].
    set (h1 := mkHeap _ _ _ _).
    assert (same_but_constraints h h1) as Hframe by done.
    destruct (IH h1 (done ++ [o])) as (h' & Hrun & Hframe' & Hc' & Hother).
    { simpl. rewrite fn_lookup_insert. f_equal.
      rewrite <-app_assoc. simpl.
      replace (length done) with (length done + 0) by lia.
      by rewrite insert_app_r. }
    { intros q Hq. rewrite (same_but_constraints_own h h1) by done.
      apply Hown. by right. }
    exists h'. rewrite length_app in Hrun. simpl in Hrun.
    replace (length done + 1) with (S (length done)) in Hrun by lia.
    split; [exact Hrun|]. split; [by eapply same_but_constraints_trans|]. split.
    + rewrite Hc'. f_equal. rewrite <-app_assoc. simpl. rewrite Ho.
      done.
    + intros c' Hne. rewrite Hother by done. simpl. by rewrite fn_lookup_insert_ne.
Qed.

Lemma rebind_run self c h :
  (∀ p, p ∈ constraint_parameters (constraint_at h c) → is_Some (own h self p)) →
  ∃ h', rebind self c h = (Return (), h') ∧ same_but_constraints h h' ∧
        constraint_at h' c = rebound h self (constraint_at h c) ∧
        ∀ c', c' ≠ c → constraint_at h' c' = constraint_at h c'.
Proof.
  intros Hown. unfold rebind, mbind, M_bind, get_heap.
  destruct (constraint_at h c) as [l u|ps ub b|d b] eqn:Hc.
  - destruct (Hown l) as [l' Hl]; [simpl; set_solver|].
    destruct (Hown u) as [u' Hu]; [simpl; set_solver|].
    unfold eval, subscript. fold (own h self l). rewrite Hl. cbn [set_constraint].
    set (h1 := mkHeap _ _ _ _).
    change (dict_get (name_of h1 u) (_parameters (search_space_at h1 self)))
      with (own h self u). rewrite Hu.
    eexists. split; [done|]. split; [done|]. simpl. split.
    + rewrite fn_lookup_insert. unfold rebound. by rewrite Hl, Hu.
    + intros c' Hne. by rewrite !fn_lookup_insert_ne.
  - destruct (rebind_sum_run self c h [] ps ub b) as (h' & Hrun & ? & ? & ?);
      [done|exact Hown|]. by exists h'.
  - exists h. by rewrite Hc.
Qed.

Lemma rebound_own h self c :
  keyed_by_name h (_parameters (search_space_at h self)) →
  (∀ p, p ∈ constraint_parameters c → is_Some (own h self p)) →
  refers_to_own h self (rebound h self c).
Proof.
  intros Hkeys Hown.
  assert (∀ p, is_Some (own h self p) →
               own h self (default p (own h self p)) = Some (default p (own h self p)))
    as Hfix.
  { intros p [o Ho]. rewrite Ho. simpl. unfold own in *.
    by rewrite (Hkeys _ _ Ho). }
  intros q Hq. destruct c as [l u|ps ub b|d b]; simpl in *.
  - apply elem_of_cons in Hq as [->|Hq]; [apply Hfix, Hown; set_solver|].
    apply list_elem_of_singleton in Hq as ->. apply Hfix, Hown; set_solver.
  - apply list_elem_of_fmap in Hq as (p & -> & Hp). by apply Hfix, Hown.
  - by apply elem_of_nil in Hq.
Qed.

Lemma rebound_id h self c : refers_to_own h self c → rebound h self c = c.
Proof.
  intros Hc. destruct c as [l u|ps ub b|d b]; simpl; [| |done].
  - rewrite !Hc by (simpl; set_solver). done.
  - f_equal. rewrite <-(list_fmap_id ps) at 2. apply list_fmap_ext.
    intros ? p Hp%list_elem_of_lookup_2. by rewrite Hc.
Qed.

Lemma refers_to_own_frame h h' self c :
  same_but_constraints h h' → refers_to_own h self c → refers_to_own h' self c.
Proof. intros Hf Hc p Hp. rewrite (same_but_constraints_own h h') by done. auto. Qed.

Lemma rebound_frame h h' self c :
  same_but_constraints h h' → rebound h' self c = rebound h self c.
Proof.
  intros Hf. destruct c; simpl; [| |done].
  - by rewrite !(same_but_constraints_own h h').
  - f_equal. apply list_fmap_ext. intros. by rewrite (same_but_constraints_own h h').
Qed.

(** The loop of [set_parameter_constraints] returns when every reference of
    the constraints has a namesake in the search space, and it leaves each
    constraint of the list rebound and every other constraint as it was. *)
Lemma rebind_loop_run self cs h :
  keyed_by_name h (_parameters (search_space_at h self)) →
  (∀ c p, c ∈ cs → p ∈ constraint_parameters (constraint_at h c) →
          is_Some (own h self p)) →
  ∃ h', forM_ cs (rebind self) h = (Return (), h') ∧ same_but_constraints h h' ∧
        (∀ c, c ∈ cs → constraint_at h' c = rebound h self (constraint_at h c)) ∧
        (∀ c, c ∉ cs → constraint_at h' c = constraint_at h c).
Proof.
  revert h. induction cs as [|c cs IH]; intros h Hkeys Hown.
  - exists h. split; [done|]. split; [done|]. split; [|done].
    intros c Hc. by apply elem_of_nil in Hc.
  - destruct (rebind_run self c h) as (h1 & Hrun1 & Hf1 & Hc1 & Hother1).
    { intros p Hp. apply (Hown c); [by left|done]. }
    assert (refers_to_own h self (constraint_at h1 c)) as Hown1.
    { rewrite Hc1. apply rebound_own; [done|]. intros p Hp. apply (Hown c); [by left|done]. }
    destruct (IH h1) as (h' & Hrun & Hf & Hin & Hout).
    { destruct Hf1 as (Hp1 & Hs1 & _). unfold keyed_by_name, name_of.
      rewrite Hp1, Hs1. exact Hkeys. }
    { intros c' p Hc' Hp. rewrite (same_but_constraints_own h h1) by done.
      destruct (decide (c' = c)) as [->|Hne].
      - rewrite (Hown1 p Hp). done.
      - rewrite Hother1 in Hp by done. apply (Hown c'); [by right|done]. }
    exists h'. cbn [forM_]. unfold mbind, M_bind. rewrite Hrun1.
    split; [exact Hrun|]. split; [by eapply same_but_constraints_trans|]. split.
    + intros c' Hc'. destruct (decide (c' ∈ cs)) as [Hcs|Hcs].
      * rewrite Hin by done. rewrite (rebound_frame h h1) by done.
        destruct (decide (c' = c)) as [->|Hne].
        -- rewrite rebound_id by done. done.
        -- by rewrite Hother1.
      * rewrite Hout by done. apply elem_of_cons in Hc' as [->|?]; done.
    + intros c' Hc'. apply not_elem_of_cons in Hc' as [? ?].
      rewrite Hout by done. by apply Hother1.
Qed.

(** Whatever the loop does, it changes constraint objects only. *)
Lemma rebind_sum_frame self c idx todo h o h' :
  rebind_sum self c idx todo h = (o, h') → same_but_constraints h h'.
Proof.
  revert idx h. induction todo as [|p todo IH]; intros idx h; simpl.
  - intros [= _ <-]. done.
  - unfold mbind, M_bind, get_heap, eval.
    destruct (subscript _ _) as [own|e]; [|intros [= _ <-]; done].
    destruct (constraint_at h c); simpl; intros Hrun; apply IH in Hrun; try done.
Qed.

Lemma rebind_frame self c h o h' :
  rebind self c h = (o, h') → same_but_constraints h h'.
Proof.
  unfold rebind, mbind, M_bind, get_heap, eval.
  destruct (constraint_at h c) as [l u|ps ub b|d b].
  - destruct (subscript _ _) as [l'|e]; [|intros [= _ <-]; done]. simpl.
    destruct (subscript _ _) as [u'|e]; intros [= _ <-]; done.
  - apply rebind_sum_frame.
  - intros [= _ <-]. done.
Qed.

Lemma rebind_loop_frame self cs h o h' :
  forM_ cs (rebind self) h = (o, h') → same_but_constraints h h'.
Proof.
  revert h. induction cs as [|c cs IH]; intros h; simpl.
  - intros [= _ <-]. done.
  - unfold mbind, M_bind. destruct (rebind self c h) as [[[]|e] h1] eqn:Hrun1.
    + intros Hrun. eapply same_but_constraints_trans; [by eapply rebind_frame|by eapply IH].
    + intros [= _ <-]. by eapply rebind_frame.
Qed.

(** *** Validation of constraints *)

Lemma validate_parameter_constraints_Return h self cs :
  _validate_parameter_constraints h self cs = Return () ↔
  constraints_valid h (_parameters (search_space_at h self)) cs.
Proof.
  unfold _validate_parameter_constraints, constraints_valid.
  rewrite for__Return. apply forall_proper; intros c.
  apply forall_proper; intros _.
  assert (∀ ps, for_ ps (λ parameter,
      if negb (dict_contains (name_of h parameter) (_parameters (search_space_at h self)))
      then Raise (ValueError (does_not_exist (name_of h parameter)))
      else
        own ← subscript (_parameters (search_space_at h self)) (name_of h parameter);
        if bool_decide (parameter_at h parameter ≠ parameter_at h own)
        then Raise (ValueError (definition_does_not_match (name_of h parameter)))
        else Return ()) = Return () ↔
    ∀ p, p ∈ ps → ∃ o, dict_get (name_of h p) (_parameters (search_space_at h self)) = Some o ∧
                        parameter_at h p = parameter_at h o) as Hstructural.
  { intros ps. rewrite for__Return. apply forall_proper; intros p.
    apply forall_proper; intros _.
    unfold dict_contains, subscript.
    destruct (dict_get _ _) as [o|] eqn:Ho.
    - rewrite bool_decide_eq_true_2 by eauto. simpl.
      unfold mbind, outcome_bind. case_bool_decide as Hne.
      + split; [done|]. intros (? & [= <-] & ?). done.
      + split; [|done]. intros _. exists o. split; [done|].
        by destruct (decide (parameter_at h p = parameter_at h o)).
    - rewrite bool_decide_eq_false_2 by (intros [? [=]]). simpl.
      split; [done|]. by intros (? & [=] & _). }
  destruct (constraint_at h c) as [l u|ps ub b|d b]; [apply Hstructural..|].
  rewrite for__Return. apply forall_proper; intros k.
  apply forall_proper; intros _.
  destruct (dict_contains k _) eqn:Hk; simpl.
  - apply dict_contains_true in Hk. done.
  - apply dict_contains_false in Hk. done.
Qed.

Lemma constraints_valid_owned h self cs :
  constraints_valid h (_parameters (search_space_at h self)) cs →
  ∀ c p, c ∈ cs → p ∈ constraint_parameters (constraint_at h c) →
         is_Some (own h self p).
Proof.
  intros Hvalid c p Hc Hp. specialize (Hvalid c Hc).
  destruct (constraint_at h c); simpl in Hp.
  - destruct (Hvalid p Hp) as (o & Ho & _). by exists o.
  - destruct (Hvalid p Hp) as (o & Ho & _). by exists o.
  - by apply elem_of_nil in Hp.
Qed.

(** *** [set_parameter_constraints] and [add_parameter_constraints] *)

(** When the keys of the space are the names of its parameters,
    [set_parameter_constraints] returns for constraints that pass
    validation; it changes the constraint objects of the list and the
    list attribute of [self] and nothing else, and each installed
    constraint then refers to the space's own parameter objects. *)
Lemma set_parameter_constraints_run self cs h :
  keyed_by_name h (_parameters (search_space_at h self)) →
  constraints_valid h (_parameters (search_space_at h self)) cs →
  ∃ h', set_parameter_constraints self cs h = (Return (), h') ∧
        parameter_at h' = parameter_at h ∧ next_loc h' = next_loc h ∧
        search_space_at h' self =
          (let s := search_space_at h self in
           mkSearchSpace (__class__ s) (_parameters s) cs
             (_all_parameter_names s) (_root s)) ∧
        (∀ s, s ≠ self → search_space_at h' s = search_space_at h s) ∧
        (∀ c, c ∈ cs → constraint_at h' c = rebound h self (constraint_at h c) ∧
                        refers_to_own h' self (constraint_at h' c)) ∧
        (∀ c, c ∉ cs → constraint_at h' c = constraint_at h c).
Proof.
  intros Hkeys Hvalid.
  destruct (rebind_loop_run self cs h Hkeys) as (h1 & Hrun & (Hp & Hs & Hn) & Hin & Hout).
  { by apply constraints_valid_owned. }
  apply validate_parameter_constraints_Return in Hvalid as Hval.
  unfold set_parameter_constraints, mbind, M_bind, eval. rewrite Hval, Hrun.
  eexists. split; [reflexivity|]. simpl. rewrite Hs.
  split_and!; [done|done|by rewrite fn_lookup_insert| | |done].
  - intros s Hne. by rewrite fn_lookup_insert_ne.
  - intros c Hc. split; [auto|]. rewrite Hin by done.
    intros p Hp'. unfold own, name_of. simpl. rewrite fn_lookup_insert, Hp. simpl.
    apply (rebound_own h self (constraint_at h c)); [done| |done].
    intros q Hq. by eapply constraints_valid_owned.
Qed.
End Properties.

Section Construction.
Context {P : Type} `{!ParameterClass P, !ConstraintClass P, !Interpreter}.
Implicit Types (h : heap P) (self : loc).

Lemma for__Raise {A} (xs : list A) (body : A → outcome unit) e :
  for_ xs body = Raise e → ∃ x, x ∈ xs ∧ body x = Raise e.
Proof.
  induction xs as [|x xs IH]; simpl; [done|].
  destruct (body x) as [[]|e'] eqn:E; simpl.
  - intros (y & ? & ?)%IH. exists y. split; [by right|done].
  - intros [= ->]. exists x. split; [by left|done].
Qed.

(** The errors of [_validate_parameter_constraints]: a name that is not a
    parameter of the space, or a definition that differs from the
    space's. *)
Lemma validate_parameter_constraints_Raise h self cs e :
  _validate_parameter_constraints h self cs = Raise e →
  ∃ n, e = ValueError (does_not_exist n) ∨
       e = ValueError (definition_does_not_match n).
Proof.
  unfold _validate_parameter_constraints.
  intros (c & _ & Hc)%for__Raise.
  destruct (constraint_at h c) as [l u|ps ub b|d b];
    apply for__Raise in Hc as (x & _ & Hx);
    unfold dict_contains, subscript in Hx;
    (destruct (dict_get _ _) as [o|];
     [rewrite bool_decide_eq_true_2 in Hx by eauto
     |rewrite bool_decide_eq_false_2 in Hx by (intros [? [=]])]);
    simpl in Hx; try (injection Hx as <-; eauto; fail); try discriminate.
  all: unfold mbind, outcome_bind in Hx;
    case_bool_decide; [injection Hx as <-; eauto|discriminate].
Qed.

Lemma set_parameter_constraints_invalid self cs h e :
  _validate_parameter_constraints h self cs = Raise e →
  set_parameter_constraints self cs h = (Raise e, h).
Proof.
  intros He. unfold set_parameter_constraints, mbind, M_bind, eval. by rewrite He.
Qed.

Lemma set_parameter_constraints_Raise self cs h e h' :
  set_parameter_constraints self cs h = (Raise e, h') →
  search_space_at h' = search_space_at h ∧ parameter_at h' = parameter_at h.
Proof.
  unfold set_parameter_constraints, mbind, M_bind, eval.
  destruct (_validate_parameter_constraints h self cs) as [[]|e'].
  - destruct (forM_ cs (rebind self) h) as [[[]|e''] h1] eqn:Hloop.
    + discriminate.
    + intros [= _ <-]. apply rebind_loop_frame in Hloop as (-> & -> & _). done.
  - intros [= _ <-]. done.
Qed.

Lemma set_parameter_constraints_Return self cs h h' :
  set_parameter_constraints self cs h = (Return (), h') →
  _validate_parameter_constraints h self cs = Return () ∧
  _parameter_constraints (search_space_at h' self) = cs.
Proof.
  unfold set_parameter_constraints, mbind, M_bind, eval.
  destruct (_validate_parameter_constraints h self cs) as [[]|e']; [|discriminate].
  destruct (forM_ cs (rebind self) h) as [[[]|e''] h1] eqn:Hloop; [|discriminate].
  intros [= <-]. simpl. by rewrite fn_lookup_insert.
Qed.

(** C6. When [set_parameter_constraints] fails on validation, nothing at
    all has changed; however it fails, no attribute of a search space has
    changed, the list of constraints of [self] in particular; and when it
    returns, validation has passed and the list of [self] is the new one.
    Validation fails on a name that is not a parameter of the space or on
    a differing definition. *)
Theorem set_parameter_constraints_atomic self cs h :
  (∀ e, _validate_parameter_constraints h self cs = Raise e →
        set_parameter_constraints self cs h = (Raise e, h) ∧
        ∃ n, e = ValueError (does_not_exist n) ∨
             e = ValueError (definition_does_not_match n)) ∧
  (∀ e h', set_parameter_constraints self cs h = (Raise e, h') →
        search_space_at h' = search_space_at h ∧
        _parameter_constraints (search_space_at h' self) =
          _parameter_constraints (search_space_at h self)) ∧
  (∀ h', set_parameter_constraints self cs h = (Return (), h') →
        _validate_parameter_constraints h self cs = Return () ∧
        _parameter_constraints (search_space_at h' self) = cs).
Proof.
  split_and!.
  - intros e He. split; [by apply set_parameter_constraints_invalid|].
    by eapply validate_parameter_constraints_Raise.
  - intros e h' [-> _]%set_parameter_constraints_Raise. done.
  - intros h'. apply set_parameter_constraints_Return.
Qed.

(** [add_parameter_constraints] validates, appends, and leaves every
    constraint object as it is. *)
Lemma add_parameter_constraints_run self cs h :
  add_parameter_constraints self cs h =
    match _validate_parameter_constraints h self cs with
    | Return _ =>
        set__parameter_constraints self
          (_parameter_constraints (search_space_at h self) ++ cs) h
    | Raise e => (Raise e, h)
    end.
Proof.
  unfold add_parameter_constraints, mbind, M_bind, eval, get_heap.
  by destruct (_validate_parameter_constraints h self cs) as [[]|e].
Qed.

Lemma add_parameter_constraints_constraint_at self cs h :
  constraint_at (add_parameter_constraints self cs h).2 = constraint_at h.
Proof.
  rewrite add_parameter_constraints_run.
  by destruct (_validate_parameter_constraints h self cs) as [[]|e].
Qed.

(** *** [SearchSpace.__init__] *)

Lemma size_list_to_set_le (l : list string) :
  (size (list_to_set l : gset string) ≤ length l)%nat.
Proof.
  induction l as [|x l IH]; [by rewrite list_to_set_nil, size_empty|].
  rewrite list_to_set_cons, size_union_alt, size_singleton.
  assert (size (list_to_set l ∖ {[x]} : gset string) ≤ size (list_to_set l : gset string))%nat
    by (apply subseteq_size; set_solver).
  simpl. lia.
Qed.

Lemma size_list_to_set_lt (l : list string) :
  (size (list_to_set l : gset string) < length l)%nat ↔ ¬ NoDup l.
Proof.
  split.
  - intros Hlt Hl. rewrite size_list_to_set in Hlt by done. lia.
  - induction l as [|x l IH]; intros Hl; [destruct Hl; constructor|].
    rewrite list_to_set_cons. destruct (decide (x ∈ l)) as [Hx|Hx].
    + replace ({[x]} ∪ list_to_set l : gset string) with (list_to_set l : gset string)
        by set_solver.
      pose proof (size_list_to_set_le l). simpl. lia.
    + rewrite size_union, size_singleton by set_solver.
      assert (size (list_to_set l : gset string) < length l)%nat; [|simpl; lia].
      apply IH. intros Hl'. apply Hl. by constructor.
Qed.

Lemma parameters_dict_keys h parameters :
  dict_keys (parameters_dict h parameters) = name_of h <$> parameters.
Proof. unfold dict_keys, parameters_dict. rewrite <-list_fmap_compose. done. Qed.

Lemma parameters_dict_values h parameters :
  dict_values (parameters_dict h parameters) = parameters.
Proof.
  unfold dict_values, parameters_dict. rewrite <-list_fmap_compose.
  apply list_fmap_id.
Qed.

Lemma parameters_dict_keyed h parameters :
  keyed_by_name h (parameters_dict h parameters).
Proof.
  intros k l (p & [= -> ->] & _)%dict_get_Some_elem%list_elem_of_fmap. done.
Qed.

(** [SearchSpace.__init__] raises on a repeated name, and otherwise runs
    [set_parameter_constraints] on the object whose mapping has one entry
    per parameter. *)
Lemma SearchSpace__init___unfold self parameters pcs h :
  SearchSpace__init__ self parameters pcs h =
    if decide (NoDup (name_of h <$> parameters))
    then set_parameter_constraints self (default [] pcs)
           (set__parameters self (parameters_dict h parameters) h).2
    else (Raise (ValueError names_must_be_unique), h).
Proof.
  unfold SearchSpace__init__, mbind, M_bind, get_heap, raise.
  case_bool_decide as Hsize;
    rewrite <-(length_fmap (name_of h) parameters), size_list_to_set_lt in Hsize.
  - by rewrite decide_False.
  - apply dec_stable in Hsize. rewrite decide_True by done.
    unfold dict_comprehension, parameters_dict.
    rewrite (dict_comprehension_from (name_of h) id) by done. done.
Qed.

Lemma set__parameters_lookup self d h :
  _parameters (search_space_at (set__parameters self d h).2 self) = d.
Proof. simpl. by rewrite fn_lookup_insert. Qed.

(** [SearchSpace.__init__] on any object: with distinct names and
    constraints that pass validation against the new mapping it returns,
    having assigned the two attributes of [self]. *)
Lemma SearchSpace__init___run self parameters pcs h :
  NoDup (name_of h <$> parameters) →
  constraints_valid h (parameters_dict h parameters) (default [] pcs) →
  ∃ h', SearchSpace__init__ self parameters pcs h = (Return (), h') ∧
        parameter_at h' = parameter_at h ∧ next_loc h' = next_loc h ∧
        search_space_at h' self =
          (let s := search_space_at h self in
           mkSearchSpace (__class__ s) (parameters_dict h parameters)
             (default [] pcs) (_all_parameter_names s) (_root s)) ∧
        (∀ s, s ≠ self → search_space_at h' s = search_space_at h s) ∧
        (∀ c, c ∈ default [] pcs → refers_to_own h' self (constraint_at h' c)) ∧
        (∀ c, c ∉ default [] pcs → constraint_at h' c = constraint_at h c).
Proof.
  intros Hnames Hvalid. rewrite SearchSpace__init___unfold, decide_True by done.
  set (h1 := (set__parameters self (parameters_dict h parameters) h).2).
  assert (_parameters (search_space_at h1 self) = parameters_dict h parameters) as Hparams.
  { simpl. by rewrite fn_lookup_insert. }
  destruct (set_parameter_constraints_run self (default [] pcs) h1)
    as (h' & Hrun & Hp & Hn & Hself & Hothers & Hin & Hout).
  { rewrite Hparams. exact (parameters_dict_keyed h parameters). }
  { rewrite Hparams. exact Hvalid. }
  exists h'. split; [done|]. split; [done|]. split; [done|]. split.
  { rewrite Hself. simpl. by rewrite fn_lookup_insert. }
  split.
  { intros s Hs. rewrite Hothers by done. simpl. by rewrite fn_lookup_insert_ne. }
  split; [|done]. intros c Hc. by apply Hin.
Qed.

(** Without distinct names or without valid constraints it raises. *)
Lemma SearchSpace__init___Raise self parameters pcs h :
  ¬ (NoDup (name_of h <$> parameters) ∧
     constraints_valid h (parameters_dict h parameters) (default [] pcs)) →
  ∃ e h', SearchSpace__init__ self parameters pcs h = (Raise e, h').
Proof.
  intros Hnot. rewrite SearchSpace__init___unfold. case_decide as Hnames; [|by eauto].
  set (h1 := (set__parameters self (parameters_dict h parameters) h).2).
  destruct (_validate_parameter_constraints h1 self (default [] pcs)) as [[]|e] eqn:Hval.
  - destruct Hnot. split; [done|].
    apply validate_parameter_constraints_Return in Hval.
    unfold h1 in Hval. rewrite set__parameters_lookup in Hval. exact Hval.
  - exists e, h1. by apply set_parameter_constraints_invalid.
Qed.

Lemma new_SearchSpace_unfold parameters pcs h :
  new_SearchSpace parameters pcs h =
    match SearchSpace__init__ (next_loc h) parameters pcs
            (new_search_space SearchSpaceClass h).2 with
    | (Return _, h') => (Return (next_loc h), h')
    | (Raise e, h') => (Raise e, h')
    end.
Proof. done. Qed.

(** The call of the constructor returns the new object when the names are
    distinct and the constraints valid. *)
Lemma new_SearchSpace_run parameters pcs h :
  NoDup (name_of h <$> parameters) →
  constraints_valid h (parameters_dict h parameters) (default [] pcs) →
  ∃ h', new_SearchSpace parameters pcs h = (Return (next_loc h), h') ∧
        search_space_at h' (next_loc h) =
          mkSearchSpace SearchSpaceClass (parameters_dict h parameters)
            (default [] pcs) None None.
Proof.
  intros Hnames Hvalid. rewrite new_SearchSpace_unfold.
  destruct (SearchSpace__init___run (next_loc h) parameters pcs
              (new_search_space SearchSpaceClass h).2)
    as (h' & -> & _ & _ & Hself & _); [done..|].
  exists h'. split; [done|]. rewrite Hself. simpl. by rewrite fn_lookup_insert.
Qed.

(** C8, as amended. Construction of a [SearchSpace] raises the
    [ValueError] about unique names when two parameters of the list share
    a name. When the names are distinct, it returns if the constraints pass
    validation against the new parameters, as they do when none are given,
    and the resulting mapping then has one entry per parameter of the
    list; it raises if they do not pass. *)
Theorem SearchSpace_construction parameters pcs h :
  let names := name_of h <$> parameters in
  let self := next_loc h in
  (¬ NoDup names →
     (new_SearchSpace parameters pcs h).1 = Raise (ValueError names_must_be_unique)) ∧
  (NoDup names →
     constraints_valid h (parameters_dict h parameters) (default [] pcs) →
     ∃ h', new_SearchSpace parameters pcs h = (Return self, h') ∧
           _parameters (search_space_at h' self) = parameters_dict h parameters ∧
           length (_parameters (search_space_at h' self)) = length parameters) ∧
  (NoDup names → pcs = None →
     ∃ h', new_SearchSpace parameters pcs h = (Return self, h') ∧
           length (_parameters (search_space_at h' self)) = length parameters) ∧
  (NoDup names →
     ¬ constraints_valid h (parameters_dict h parameters) (default [] pcs) →
     ∃ e, (new_SearchSpace parameters pcs h).1 = Raise e).
Proof.
  intros names self.
  assert (NoDup names →
     constraints_valid h (parameters_dict h parameters) (default [] pcs) →
     ∃ h', new_SearchSpace parameters pcs h = (Return self, h') ∧
           _parameters (search_space_at h' self) = parameters_dict h parameters ∧
           length (_parameters (search_space_at h' self)) = length parameters)
    as Hreturns.
  { intros Hnames Hvalid.
    destruct (new_SearchSpace_run parameters pcs h) as (h' & Hrun & Hself); [done..|].
    exists h'. split; [done|]. fold self in Hself. rewrite Hself. simpl.
    split; [done|]. unfold parameters_dict. by rewrite length_fmap. }
  split_and!.
  - intros Hdup.
    rewrite new_SearchSpace_unfold, SearchSpace__init___unfold, decide_False by done.
    done.
  - exact Hreturns.
  - intros Hnames ->. destruct Hreturns as (h' & ? & ? & ?); [done| |by eauto].
    intros c Hc. by apply elem_of_nil in Hc.
  - intros Hnames Hinvalid. rewrite new_SearchSpace_unfold.
    destruct (SearchSpace__init___Raise self parameters pcs
                (new_search_space SearchSpaceClass h).2) as (e & h' & Hrun).
    { intros [_ ?]. by apply Hinvalid. }
    exists e. fold self. by rewrite Hrun.
Qed.
End Construction.

(** ** Arms and membership *)

Section Arms.
Context {P : Type} `{!ParameterClass P, !ConstraintClass P, !Interpreter}.
Implicit Types (h : heap P) (self : loc).

(** *** [construct_arm] *)

Lemma construct_arm_validate_Return h params ps :
  construct_arm_validate h params ps = Return () →
  ∀ k, k ∈ dict_keys ps → k ∈ dict_keys params.
Proof.
  unfold construct_arm_validate. rewrite for__Return.
  intros Hps k ([k' v] & -> & Hkv)%list_elem_of_fmap. specialize (Hps _ Hkv).
  simpl in *. destruct (dict_contains k' params) eqn:Hk; [|done].
  by apply dict_contains_true.
Qed.

(** C7. An arm that [construct_arm] returns has an entry for a name
    exactly when the name is a parameter of the space. Without overrides
    [construct_arm] returns, as does [out_of_design_arm] with the same arm,
    and every entry of that arm is [None]. *)
Theorem construct_arm_entries h self :
  let names := dict_keys (_parameters (search_space_at h self)) in
  (∀ parameters name arm,
      construct_arm h self parameters name = Return arm →
      (∀ k, k ∈ names → is_Some (dict_get k (Arm_parameters arm))) ∧
      (∀ k, k ∈ dict_keys (Arm_parameters arm) ↔ k ∈ names) ∧
      Arm_name arm = name) ∧
  (∃ arm,
      construct_arm h self None None = Return arm ∧
      out_of_design_arm h self = Return arm ∧
      (∀ k, k ∈ dict_keys (Arm_parameters arm) ↔ k ∈ names) ∧
      (∀ k, k ∈ names → dict_get k (Arm_parameters arm) = Some VNone) ∧
      (∀ k v, (k, v) ∈ Arm_parameters arm → v = VNone)).
Proof.
  intros names.
  set (final := dict_comprehension id (λ _ : string, VNone) names).
  assert (∀ k, k ∈ dict_keys final ↔ k ∈ names) as Hkeys.
  { intros k. unfold final. rewrite dict_comprehension_keys.
    by rewrite list_fmap_id. }
  split.
  - intros parameters name arm. unfold construct_arm. fold names. fold final.
    assert (∀ d : dict TParamValue, dict_keys d = dict_keys final →
              (∀ k, k ∈ names → is_Some (dict_get k d)) ∧
              (∀ k, k ∈ dict_keys d ↔ k ∈ names)) as Hentries.
    { intros d Hd. split; intros k.
      - intros Hk. apply dict_get_is_Some. rewrite Hd. by apply Hkeys.
      - rewrite Hd. apply Hkeys. }
    destruct parameters as [parameters|].
    + destruct (construct_arm_validate _ _ _) as [[]|e] eqn:Hval; [|done].
      intros [= <-]. simpl. split_and!; [..|done]; apply Hentries.
      * apply dict_update_keys. intros k Hk. apply Hkeys.
        by eapply construct_arm_validate_Return.
      * apply dict_update_keys. intros k Hk. apply Hkeys.
        by eapply construct_arm_validate_Return.
    + intros [= <-]. simpl. split_and!; [..|done]; by apply Hentries.
  - exists (mkArm final None). split_and!; [done|done|exact Hkeys| |].
    + intros k Hk. simpl. unfold final.
      apply dict_comprehension_const. by rewrite list_fmap_id.
    + intros k v Hkv. simpl in Hkv.
      assert (k ∈ names) as Hk.
      { apply Hkeys, list_elem_of_fmap. by exists (k, v). }
      apply (dict_get_NoDup final) in Hkv; [|apply dict_comprehension_keys_NoDup].
      unfold final in Hkv. rewrite dict_comprehension_const in Hkv
        by (by rewrite list_fmap_id). congruence.
Qed.

(** *** [cast_arm] *)



(** *** [check_membership] *)

(** The first loop falls through when every item is valid and returns
    [False] otherwise. *)
Lemma check_membership_items_false h params items :
  (Forall (valid_item h params) items ∧
   check_membership_items h params false items = Return None) ∨
  (¬ Forall (valid_item h params) items ∧
   check_membership_items h params false items = Return (Some false)).
Proof.
  induction items as [|[k v] items IH]; simpl; [by left|].
  unfold dict_contains, subscript.
  destruct (dict_get k params) as [l|] eqn:Hk.
  - rewrite bool_decide_eq_true_2 by eauto. simpl.
    destruct (validate (parameter_at h l) v) eqn:Hv; simpl.
    + destruct IH as [[Hitems ->]|[Hitems ->]]; [left|right]; split; try done.
      * constructor; [|done]. by exists l.
      * by intros [_ ?]%Forall_cons.
    + right. split; [|done]. intros [(l' & Hl' & Hv') _]%Forall_cons.
      simpl in *. congruence.
  - rewrite bool_decide_eq_false_2 by (intros [? [=]]). simpl.
    right. split; [|done]. intros [(l' & Hl' & _) _]%Forall_cons.
    simpl in *. congruence.
Qed.

Lemma coerced_functional items fs fs' : coerced items fs → coerced items fs' → fs = fs'.
Proof.
  intros Hfs. revert fs'. induction Hfs as [|[k v] [k1 f1] items fs [??] ? IH];
    intros fs'; inversion 1 as [|? [k2 f2] ? ? [??]]; simplify_eq/=; [done|].
  f_equal; [congruence|auto].
Qed.

(** The comprehension coerces the items of numeric parameters in order: it
    yields the dictionary of the coerced items, or raises what the first
    failing coercion raises. *)
Lemma numerical_param_dict_run h params items d :
  Forall (valid_item h params) items →
  let numeric := filter (λ kv, is_numeric_name h params kv.1 = true) items in
  (∃ fs, coerced numeric fs ∧
         numerical_param_dict h params items d = Return (dict_update d fs)) ∨
  (∃ e kv, kv ∈ numeric ∧ float kv.2 = Raise e ∧
           numerical_param_dict h params items d = Raise e).
Proof.
  intros Hitems. revert d.
  induction Hitems as [|[k v] items (l & Hl & _) _ IH]; intros d; simpl.
  - left. exists []. split; [constructor|done].
  - simpl in Hl. unfold subscript. rewrite Hl. simpl.
    destruct (is_numeric (parameter_at h l)) eqn:Hnum.
    + rewrite filter_cons_True by (unfold is_numeric_name; simpl; by rewrite Hl).
      destruct (float v) as [f|e] eqn:Hf; simpl.
      * destruct (IH (dict_set k f d)) as [(fs & Hfs & ->)|(e & kv & ? & ? & ->)].
        -- left. exists ((k, f) :: fs). split; [by constructor|done].
        -- right. exists e, kv. split; [by right|done].
      * right. exists e, (k, v). split; [by left|done].
    + rewrite filter_cons_False
        by (unfold is_numeric_name; simpl; rewrite Hl; congruence).
      apply IH.
Qed.

Lemma check_membership_constraints_false h numerical cs :
  ((∀ c, c ∈ cs → check (parameter_at h) (constraint_at h c) numerical = true) ∧
   check_membership_constraints h false numerical cs = Return true) ∨
  (¬ (∀ c, c ∈ cs → check (parameter_at h) (constraint_at h c) numerical = true) ∧
   check_membership_constraints h false numerical cs = Return false).
Proof.
  induction cs as [|c cs IH]; simpl.
  - left. split; [|done]. by intros c ?%elem_of_nil.
  - destruct (check _ _ _) eqn:Hc; simpl.
    + destruct IH as [[Hcs ->]|[Hcs ->]]; [left|right]; split; try done.
      * intros c' [->|?]%elem_of_cons; auto.
      * intros Hall. apply Hcs. intros c' ?. apply Hall. by right.
    + right. split; [|done]. intros Hall. specialize (Hall c). rewrite Hc in Hall.
      discriminate Hall. by left.
Qed.
End Arms.

(** ** The hierarchy *)

Section Hierarchy.
Context {P : Type} `{!ParameterClass P, !ConstraintClass P, !Interpreter}.
Implicit Types (h : heap P) (self : loc) (sets : list (gset string)).

(** *** Disjoint unions *)

Lemma pairwise_disjoint_snoc sets s :
  pairwise_disjoint sets → ⋃ sets ## s → pairwise_disjoint (sets ++ [s]).
Proof.
  intros Hsets Hs i j s1 s2 Hij Hi Hj.
  destruct (decide (j < length sets)) as [Hlt|Hge].
  - rewrite lookup_app_l in Hi, Hj by lia. exact (Hsets i j s1 s2 Hij Hi Hj).
  - rewrite lookup_app_r in Hj by lia.
    apply list_lookup_singleton_Some in Hj as [Hj ->].
    rewrite lookup_app_l in Hi by lia.
    apply list_elem_of_lookup_2 in Hi.
    intros x Hx1 Hx2. apply (Hs x); [|done]. apply elem_of_union_list. eauto.
Qed.

Lemma union_list_snoc sets s : ⋃ (sets ++ [s]) = ⋃ sets ∪ s.
Proof. rewrite union_list_app_L. simpl. by rewrite (right_id_L ∅ (∪)). Qed.

Lemma reduce_cons_Return {A B} (f : A → B → outcome A) b gen acc :
  reduce f (Return b :: gen) acc = f acc b ≫= reduce f gen.
Proof. done. Qed.

Lemma bind_Return {A B} (a : A) (f : A → outcome B) : Return a ≫= f = f a.
Proof. done. Qed.

Lemma bind_Raise {A B} e (f : A → outcome B) : Raise e ≫= f = Raise e.
Proof. done. Qed.

(** The reduction of [_disjoint_union] over sets that follow a prefix
    already united: either all the sets are pairwise disjoint and it
    returns their union, or it raises at the first set that meets the
    union of the ones before it, naming what they share. *)
Lemma reduce_disjoint_union_spec prefix sets :
  pairwise_disjoint prefix →
  (pairwise_disjoint (prefix ++ sets) ∧
   reduce _disjoint_union (Return <$> sets) (⋃ prefix) = Return (⋃ (prefix ++ sets))) ∨
  (∃ shared,
     reduce _disjoint_union (Return <$> sets) (⋃ prefix) =
       Raise (UserInputError (subtrees_contain_the_same_parameters shared)) ∧
     shared ≠ ∅ ∧
     ∀ x, x ∈ shared → shared_by (prefix ++ sets) x).
Proof.
  revert prefix. induction sets as [|s sets IH]; intros prefix Hprefix.
  - left. rewrite app_nil_r. done.
  - rewrite fmap_cons, reduce_cons_Return.
    destruct (decide (⋃ prefix ## s)) as [Hdisjoint|Hdisjoint].
    + assert (_disjoint_union (⋃ prefix) s = Return (⋃ prefix ∪ s)) as ->.
      { unfold _disjoint_union. by rewrite bool_decide_eq_true_2. }
      rewrite bind_Return.
      destruct (IH (prefix ++ [s])) as [[Hall Hrun]|(shared & Hrun & Hne & Hshared)].
      { by apply pairwise_disjoint_snoc. }
      * left. rewrite <-app_assoc in Hall, Hrun. rewrite union_list_snoc in Hrun. done.
      * right. exists shared. rewrite <-app_assoc in Hshared.
        rewrite union_list_snoc in Hrun. done.
    + assert (_disjoint_union (⋃ prefix) s =
              Raise (UserInputError
                       (subtrees_contain_the_same_parameters (⋃ prefix ∩ s)))) as ->.
      { unfold _disjoint_union. by rewrite bool_decide_eq_false_2. }
      rewrite bind_Raise. right. exists (⋃ prefix ∩ s). split; [done|]. split; [set_solver|].
      intros x [Hx Hs]%elem_of_intersection.
      apply elem_of_union_list in Hx as (s1 & [i Hi]%list_elem_of_lookup & Hx1).
      pose proof (lookup_lt_Some _ _ _ Hi) as Hlt.
      exists i, (length prefix), s1, s.
      split_and!; [done|by rewrite lookup_app_l| |done|done].
      rewrite lookup_app_r by lia. by rewrite Nat.sub_diag.
Qed.

Lemma pairwise_disjoint_singleton s : pairwise_disjoint [s].
Proof.
  intros i j s1 s2 Hij Hi Hj. apply lookup_lt_Some in Hi, Hj. simpl in *. lia.
Qed.

(** [reduce(_disjoint_union, rest, first)]. *)
Lemma reduce_disjoint_union_first s0 sets :
  (pairwise_disjoint (s0 :: sets) ∧
   reduce _disjoint_union (Return <$> sets) s0 = Return (⋃ (s0 :: sets))) ∨
  (∃ shared,
     reduce _disjoint_union (Return <$> sets) s0 =
       Raise (UserInputError (subtrees_contain_the_same_parameters shared)) ∧
     shared ≠ ∅ ∧ ∀ x, x ∈ shared → shared_by (s0 :: sets) x).
Proof.
  pose proof (reduce_disjoint_union_spec [s0] sets (pairwise_disjoint_singleton s0))
    as Hspec.
  assert (⋃ [s0] = s0) as Hs0 by (simpl; apply (right_id_L ∅ (∪))).
  by rewrite Hs0 in Hspec.
Qed.

Lemma shared_by_not_disjoint sets x : shared_by sets x → ¬ pairwise_disjoint sets.
Proof.
  intros (i & j & s1 & s2 & Hij & Hi & Hj & Hx1 & Hx2) Hsets.
  by apply (Hsets i j s1 s2 Hij Hi Hj x).
Qed.

Lemma reduce_app_Return {A B} (f : A → B → outcome A) bs gen acc :
  reduce f ((Return <$> bs) ++ gen) acc =
  reduce f (Return <$> bs) acc ≫= reduce f gen.
Proof.
  revert acc. induction bs as [|b bs IH]; intros acc; [done|].
  rewrite fmap_cons. simpl. destruct (f acc b); simpl; [apply IH|done].
Qed.

Lemma reduce_Return_elements {A B} (f : A → B → outcome A) gen acc r :
  reduce f gen acc = Return r → ∃ bs, gen = Return <$> bs.
Proof.
  revert acc. induction gen as [|[b|e] gen IH]; intros acc; simpl.
  - by exists [].
  - destruct (f acc b); simpl; [|done]. intros (bs & ->)%IH. by exists (b :: bs).
  - done.
Qed.

(** *** [_check_subtree] *)

Lemma check_subtree_unfold depth h self root :
  _check_subtree (S depth) h self root =
    if negb (is_hierarchical (parameter_at h root))
    then Return {[ name_of h root ]}
    else
      match (λ param_name,
               in_generator (__getitem__ h self param_name
                               ≫= _check_subtree depth h self))
              <$> dependent_names (parameter_at h root) with
      | [] => Raise StopIteration
      | first :: rest =>
          initial ← first;
          subtrees ← reduce _disjoint_union rest initial;
          Return ({[ name_of h root ]} ∪ subtrees)
      end.
Proof. done. Qed.

Lemma in_generator_Return {A} (o : outcome A) a :
  in_generator o = Return a ↔ o = Return a.
Proof. destruct o as [|[]]; simpl; split; congruence. Qed.

Lemma subtree_of_generator depth h self param_name s :
  in_generator (__getitem__ h self param_name ≫= _check_subtree depth h self) =
    Return s ↔
  subtree_of depth h self param_name s.
Proof.
  rewrite in_generator_Return. unfold subtree_of.
  destruct (__getitem__ h self param_name) as [child|e]; simpl.
  - split; [by eauto|]. by intros (? & [= <-] & ?).
  - split; [done|]. by intros (? & [=] & _).
Qed.

Lemma generator_Return depth h self names sets :
  (λ param_name,
     in_generator (__getitem__ h self param_name ≫= _check_subtree depth h self))
    <$> names = Return <$> sets ↔
  Forall2 (subtree_of depth h self) names sets.
Proof.
  revert sets. induction names as [|n names IH]; intros [|s sets].
  - split; [constructor|done].
  - split; [done|inversion 1].
  - split; [done|inversion 1].
  - rewrite !fmap_cons, Forall2_cons, <-IH, <-subtree_of_generator.
    split; [by intros [= -> ->]|by intros [-> ->]].
Qed.


(** When the check of a hierarchical parameter returns, each of its
    subtrees validated and their sets are pairwise disjoint. *)
Lemma check_subtree_Return_inv depth h self root s :
  is_hierarchical (parameter_at h root) = true →
  _check_subtree (S depth) h self root = Return s →
  ∃ subtrees,
    Forall2 (subtree_of depth h self) (dependent_names (parameter_at h root)) subtrees ∧
    pairwise_disjoint subtrees ∧ s = {[ name_of h root ]} ∪ ⋃ subtrees.
Proof.
  intros Hhier. rewrite check_subtree_unfold, Hhier. cbn [negb].
  destruct (dependent_names (parameter_at h root)) as [|n names']; [done|].
  rewrite fmap_cons.
  destruct (in_generator _) as [s0|e] eqn:Hfirst; [|done]. rewrite bind_Return.
  destruct (reduce _ _ _) as [u|e] eqn:Hreduce; [|done]. rewrite bind_Return.
  intros [= <-].
  apply reduce_Return_elements in Hreduce as Helements.
  destruct Helements as (sets & Hsets). rewrite Hsets in Hreduce.
  exists (s0 :: sets). split.
  { constructor; [by apply subtree_of_generator|by apply generator_Return]. }
  destruct (reduce_disjoint_union_first s0 sets)
    as [[Hall Hrun]|(shared & Hrun & _)]; [|congruence].
  split; [done|]. rewrite Hrun in Hreduce. by injection Hreduce as <-.
Qed.

(** The exception of the first subtree that fails to validate, the ones
    before it being pairwise disjoint, is the exception of the check. *)
Lemma check_subtree_Raise_child depth h self root names1 param_name names2
    subtrees1 e :
  is_hierarchical (parameter_at h root) = true →
  dependent_names (parameter_at h root) = names1 ++ param_name :: names2 →
  Forall2 (subtree_of depth h self) names1 subtrees1 →
  pairwise_disjoint subtrees1 →
  __getitem__ h self param_name ≫= _check_subtree depth h self = Raise e →
  _check_subtree (S depth) h self root = in_generator (Raise e).
Proof.
  intros Hhier Hnames Hsubtrees1 Hall He.
  rewrite check_subtree_unfold, Hhier. cbn [negb]. rewrite Hnames.
  rewrite fmap_app, fmap_cons, He.
  apply generator_Return in Hsubtrees1. rewrite Hsubtrees1.
  destruct subtrees1 as [|s0 sets]; [by destruct e|].
  rewrite fmap_cons. cbn [app]. rewrite bind_Return, reduce_app_Return.
  destruct (reduce_disjoint_union_first s0 sets)
    as [[_ ->]|(shared & _ & Hshared & Hnames')].
  - rewrite bind_Return. by destruct e.
  - apply set_choose_L in Hshared as [x Hx].
    by apply Hnames', shared_by_not_disjoint in Hx.
Qed.

End Hierarchy.

(** *** [_find_root] *)

Section Root.
Context {P : Type} `{!ParameterClass P, !ConstraintClass P, !Interpreter}.
Implicit Types (h : heap P) (self : loc).

Lemma foldl_union_elem (acc : gset string) (ls : list (list string)) x :
  x ∈ foldl (λ names deps, names ∪ list_to_set deps) acc ls ↔
  x ∈ acc ∨ x ∈ concat ls.
Proof.
  revert acc. induction ls as [|l ls IH]; intros acc; simpl.
  - split; [auto|]. by intros [?|?%elem_of_nil].
  - rewrite IH, elem_of_union, elem_of_list_to_set, elem_of_app. tauto.
Qed.

Lemma dependent_parameter_names_from h ps (acc : gset string) x :
  x ∈ foldl (λ names parameter,
               if is_hierarchical (parameter_at h parameter)
               then foldl (λ names deps, names ∪ list_to_set deps) names
                          (dependents (parameter_at h parameter)).*2
               else names) acc ps ↔
  x ∈ acc ∨ ∃ p, p ∈ ps ∧ is_hierarchical (parameter_at h p) = true ∧
                 x ∈ dependent_names (parameter_at h p).
Proof.
  revert acc. induction ps as [|p ps IH]; intros acc; simpl.
  - split; [auto|]. by intros [?|(? & ?%elem_of_nil & _)].
  - rewrite IH. destruct (is_hierarchical (parameter_at h p)) eqn:Hp.
    + rewrite foldl_union_elem. fold (dependent_names (parameter_at h p)). split.
      * intros [[?|?]|(q & ? & ? & ?)]; [by left|right..].
        -- exists p. split; [by left|done].
        -- exists q. split; [by right|done].
      * intros [?|(q & [->|?]%elem_of_cons & ? & ?)]; [by left; left|by left; right|].
        right. by exists q.
    + split.
      * intros [?|(q & ? & ? & ?)]; [by left|]. right. exists q. split; [by right|done].
      * intros [?|(q & [->|?]%elem_of_cons & ? & ?)]; [by left|congruence|].
        right. by exists q.
Qed.

Lemma dependent_parameter_names_elem h ps x :
  x ∈ dependent_parameter_names h ps ↔
  ∃ p, p ∈ ps ∧ is_hierarchical (parameter_at h p) = true ∧
       x ∈ dependent_names (parameter_at h p).
Proof.
  unfold dependent_parameter_names. rewrite dependent_parameter_names_from.
  split; [by intros [?%not_elem_of_empty|?]|by right].
Qed.

Lemma dependent_parameter_names_ext h h' ps :
  parameter_at h' = parameter_at h →
  dependent_parameter_names h' ps = dependent_parameter_names h ps.
Proof. intros Hp. unfold dependent_parameter_names. by rewrite Hp. Qed.

Lemma find_root_spec h self all_parameter_names :
  let s := search_space_at h self in
  let deps := dependent_parameter_names h (dict_values (_parameters s)) in
  _all_parameter_names s = Some all_parameter_names →
  (size (all_parameter_names ∖ deps) ≠ 1 →
     _find_root h self =
       Raise (NotImplementedError
                (could_not_find_root deps (length (_parameters s))
                   (all_parameter_names ∖ deps)))) ∧
  (∀ r, all_parameter_names ∖ deps = {[ r ]} →
     _find_root h self = subscript (_parameters s) r) ∧
  (size (all_parameter_names ∖ deps) = 1 →
     ∃ r, all_parameter_names ∖ deps = {[ r ]}).
Proof.
  intros s deps Hall. unfold _find_root. fold s. rewrite Hall. fold deps.
  split_and!.
  - intros Hsize. by rewrite bool_decide_eq_true_2.
  - intros r ->. rewrite size_singleton, bool_decide_eq_false_2 by lia.
    by rewrite elements_singleton.
  - intros (r & Hr)%size_1_elem_of. exists r. by apply leibniz_equiv.
Qed.
End Root.

(** *** Construction of a hierarchical search space *)

Section HierarchicalConstruction.
Context {P : Type} `{!ParameterClass P, !ConstraintClass P, !Interpreter}.
Implicit Types (h : heap P) (self : loc).

Lemma getitem_Return h self n child :
  __getitem__ h self n = Return child ↔
  dict_get n (_parameters (search_space_at h self)) = Some child.
Proof.
  unfold __getitem__, dict_contains, subscript.
  destruct (dict_get n _) as [l|] eqn:Hn.
  - rewrite bool_decide_eq_true_2 by eauto. split; congruence.
  - rewrite bool_decide_eq_false_2 by (intros [? [=]]). split; congruence.
Qed.

(** The names that a validation visits are names of parameters of the
    space. *)
Lemma check_subtree_names depth h self root s :
  keyed_by_name h (_parameters (search_space_at h self)) →
  name_of h root ∈ dict_keys (_parameters (search_space_at h self)) →
  _check_subtree depth h self root = Return s →
  ∀ x, x ∈ s → x ∈ dict_keys (_parameters (search_space_at h self)).
Proof.
  intros Hkeys. revert root s. induction depth as [|depth IH]; intros root s Hroot; [done|].
  destruct (is_hierarchical (parameter_at h root)) eqn:Hhier.
  - intros (subtrees & Hsubtrees & _ & ->)%check_subtree_Return_inv; [|done].
    intros x [->%elem_of_singleton|Hx]%elem_of_union; [done|].
    apply elem_of_union_list in Hx as (s' & [i Hi]%list_elem_of_lookup & Hx).
    destruct (Forall2_lookup_r _ _ _ _ _ Hsubtrees Hi)
      as (n & _ & child & Hchild%getitem_Return & Hs').
    apply (IH child s'); [|done..].
    rewrite (Hkeys _ _ Hchild). apply dict_get_is_Some. eauto.
  - rewrite check_subtree_unfold, Hhier. intros [= <-] x ->%elem_of_singleton. done.
Qed.

(** [HierarchicalSearchSpace(...)], statement by statement. *)
Lemma new_HierarchicalSearchSpace_unfold parameters pcs h :
  new_HierarchicalSearchSpace parameters pcs h =
    let self := next_loc h in
    match SearchSpace__init__ self parameters pcs
            (new_search_space HierarchicalSearchSpaceClass h).2 with
    | (Raise e, h1) => (Raise e, h1)
    | (Return _, h1) =>
        let h2 :=
          (set__all_parameter_names self
             (list_to_set (dict_keys (_parameters (search_space_at h1 self)))) h1).2 in
        match _find_root h2 self with
        | Raise e => (Raise e, h2)
        | Return root =>
            let h3 := (set__root self root h2).2 in
            match _validate_hierarchical_structure h3 self with
            | Return _ => (Return self, h3)
            | Raise e => (Raise e, h3)
            end
        end
    end.
Proof.
  unfold new_HierarchicalSearchSpace, HierarchicalSearchSpace__init__.
  unfold mbind, M_bind, mret, M_ret, eval, get_heap. cbn [new_search_space snd].
  destruct (SearchSpace__init__ _ _ _ _) as [[[]|e] h1]; [|done].
  cbn [set__all_parameter_names set_search_space snd].
  destruct (_find_root _ _) as [root|e]; [|done].
  cbn [set__root set_search_space snd].
  by destruct (_validate_hierarchical_structure _ _) as [[]|e].
Qed.

(** [SearchSpace.__init__] leaves the class of the object and the
    attributes of the hierarchy as they are, whatever its outcome. *)
Lemma SearchSpace__init___root self parameters pcs h o h' :
  SearchSpace__init__ self parameters pcs h = (o, h') →
  (__class__ (search_space_at h' self) = __class__ (search_space_at h self) ∧
   _all_parameter_names (search_space_at h' self) =
     _all_parameter_names (search_space_at h self) ∧
   _root (search_space_at h' self) = _root (search_space_at h self)) ∧
  parameter_at h' = parameter_at h.
Proof.
  rewrite SearchSpace__init___unfold. case_decide; [|by intros [= _ <-]].
  set (h1 := (set__parameters self (parameters_dict h parameters) h).2).
  assert (__class__ (search_space_at h1 self) = __class__ (search_space_at h self) ∧
          _all_parameter_names (search_space_at h1 self) =
            _all_parameter_names (search_space_at h self) ∧
          _root (search_space_at h1 self) = _root (search_space_at h self)) as Hattrs.
  { simpl. by rewrite fn_lookup_insert. }
  destruct o as [[]|e].
  - unfold set_parameter_constraints, mbind, M_bind, eval.
    destruct (_validate_parameter_constraints h1 self (default [] pcs)) as [[]|e'];
      [|done].
    destruct (forM_ _ _ h1) as [[[]|e''] h2] eqn:Hloop; [|done].
    apply rebind_loop_frame in Hloop as (Hp & Hs & _).
    intros [= <-]. simpl. rewrite fn_lookup_insert, Hs, Hp.
    cbn [__class__ _all_parameter_names _root]. done.
  - intros [-> ->]%set_parameter_constraints_Raise. done.
Qed.

(** Either the part of the construction that [SearchSpace.__init__] does
    raises, or the names are distinct and the constraints valid, and the
    outcome is that of finding the root and validating the structure on
    the object built so far. *)
Lemma new_HierarchicalSearchSpace_cases parameters pcs h :
  let self := next_loc h in
  let names : gset string := list_to_set (name_of h <$> parameters) in
  (∃ e h', new_HierarchicalSearchSpace parameters pcs h = (Raise e, h') ∧
           _root (search_space_at h' self) = None ∧
           ¬ (NoDup (name_of h <$> parameters) ∧
              constraints_valid h (parameters_dict h parameters) (default [] pcs))) ∨
  (NoDup (name_of h <$> parameters) ∧
   constraints_valid h (parameters_dict h parameters) (default [] pcs) ∧
   ∃ h2, parameter_at h2 = parameter_at h ∧
         search_space_at h2 self =
           mkSearchSpace HierarchicalSearchSpaceClass
             (parameters_dict h parameters) (default [] pcs) (Some names) None ∧
         new_HierarchicalSearchSpace parameters pcs h =
           match _find_root h2 self with
           | Raise e => (Raise e, h2)
           | Return root =>
               let h3 := (set__root self root h2).2 in
               match _validate_hierarchical_structure h3 self with
               | Return _ => (Return self, h3)
               | Raise e => (Raise e, h3)
               end
           end).
Proof.
  intros self names. rewrite new_HierarchicalSearchSpace_unfold. cbn zeta. fold self.
  set (h0 := (new_search_space (P:=P) HierarchicalSearchSpaceClass h).2).
  destruct (SearchSpace__init__ self parameters pcs h0) as [[[]|e] h1] eqn:Hinit.
  - right.
    assert (NoDup (name_of h <$> parameters) ∧
            constraints_valid h (parameters_dict h parameters) (default [] pcs))
      as [Hnames Hvalid].
    { rewrite SearchSpace__init___unfold in Hinit. case_decide; [|done].
      split; [done|].
      apply set_parameter_constraints_Return in Hinit as [Hval _].
      apply validate_parameter_constraints_Return in Hval.
      rewrite set__parameters_lookup in Hval. exact Hval. }
    split; [done|]. split; [done|].
    destruct (SearchSpace__init___run self parameters pcs h0)
      as (h1' & Hrun & Hp & _ & Hself & _); [done..|].
    assert (h1' = h1) as -> by congruence.
    exists (set__all_parameter_names self
              (list_to_set (dict_keys (_parameters (search_space_at h1 self)))) h1).2.
    split; [exact Hp|]. split; [|reflexivity].
    simpl. rewrite fn_lookup_insert, Hself. simpl. rewrite fn_lookup_insert. simpl.
    f_equal. f_equal. by rewrite parameters_dict_keys.
  - left. exists e, h1. split; [done|].
    apply SearchSpace__init___root in Hinit as Hroot. destruct Hroot as [(_ & _ & ->) _].
    split; [simpl; by rewrite fn_lookup_insert|]. intros [Hnames Hvalid].
    destruct (SearchSpace__init___run self parameters pcs h0)
      as (h1' & Hrun & _); [done..|]. congruence.
Qed.

(** C1. The set that root discovery collects holds the names in the
    dependents of the hierarchical parameters of the list. Construction
    raises unless exactly one name of the list is outside that set, with
    [_find_root]'s [NotImplementedError] if the construction got that far;
    and when construction returns, exactly one name is outside the set and
    the root recorded is the parameter of the list with that name. *)
Theorem HierarchicalSearchSpace_root parameters pcs h :
  let self := next_loc h in
  let names : gset string := list_to_set (name_of h <$> parameters) in
  let deps := dependent_parameter_names h parameters in
  (∀ x, x ∈ deps ↔
        ∃ p, p ∈ parameters ∧ is_hierarchical (parameter_at h p) = true ∧
             x ∈ dependent_names (parameter_at h p)) ∧
  (size (names ∖ deps) ≠ 1 →
     ∃ e h', new_HierarchicalSearchSpace parameters pcs h = (Raise e, h') ∧
       (NoDup (name_of h <$> parameters) →
        constraints_valid h (parameters_dict h parameters) (default [] pcs) →
        e = NotImplementedError
              (could_not_find_root deps (length parameters) (names ∖ deps)))) ∧
  (∀ self' h',
     new_HierarchicalSearchSpace parameters pcs h = (Return self', h') →
     self' = self ∧
     ∃ r root, names ∖ deps = {[ r ]} ∧
               _root (search_space_at h' self) = Some root ∧
               dict_get r (_parameters (search_space_at h' self)) = Some root ∧
               root ∈ parameters ∧ name_of h root = r).
Proof.
  intros self names deps. split; [apply dependent_parameter_names_elem|].
  destruct (new_HierarchicalSearchSpace_cases parameters pcs h)
    as [(e & h' & -> & _ & Hnot)|(Hnames & Hvalid & h2 & Hp & Hself & ->)].
  { split; [|done]. intros _. exists e, h'. split; [done|]. intros. by destruct Hnot. }
  fold self names in Hself.
  destruct (find_root_spec h2 self names) as (Hnone & Hone & Hsize).
  { by rewrite Hself. }
  rewrite Hself in Hnone, Hone, Hsize. cbn [_parameters] in Hnone, Hone, Hsize.
  rewrite parameters_dict_values in Hnone, Hone, Hsize.
  rewrite (dependent_parameter_names_ext h h2) in Hnone, Hone, Hsize by done.
  fold deps in Hnone, Hone, Hsize. fold self.
  split.
  - intros Hne. rewrite (Hnone Hne). eexists _, _. split; [done|]. intros _ _.
    unfold parameters_dict. by rewrite length_fmap.
  - intros self' h'.
    destruct (decide (size (names ∖ deps) = 1)) as [Hsize1|Hsize1];
      [|by rewrite (Hnone Hsize1)].
    destruct (Hsize Hsize1) as [r Hr]. rewrite (Hone r Hr).
    unfold subscript. destruct (dict_get r _) as [root|] eqn:Hroot; [|done].
    cbn zeta. destruct (_validate_hierarchical_structure _ _) as [[]|e]; [|done].
    intros [= <- <-]. split; [done|]. exists r, root. split; [done|].
    simpl. rewrite fn_lookup_insert, Hself. simpl. split_and!; [done|done|..].
    + apply dict_get_Some_elem, list_elem_of_fmap in Hroot as (p & [= -> ->] & Hp').
      done.
    + by apply parameters_dict_keyed in Hroot.
Qed.

(** The root that [_find_root] returns is a parameter of the space, found
    under its own name. *)
Lemma find_root_Return h self root :
  is_Some (_all_parameter_names (search_space_at h self)) →
  _find_root h self = Return root →
  ∃ r, dict_get r (_parameters (search_space_at h self)) = Some root.
Proof.
  intros [names Hnames]. unfold _find_root. rewrite Hnames.
  case_bool_decide; [done|]. destruct (elements _) as [|r ?]; [done|].
  intros Hr%subscript_Return. eauto.
Qed.

(** C3. When construction returns, validating the root's subtree visited
    exactly the names of the parameters, which are the snapshot
    [_all_parameter_names]. In the state that construction leaves behind,
    once a root is recorded and the validation of its subtree returns a
    set, the names in the set are names of parameters; construction has
    raised the [UserInputError] naming the parameters outside the set if
    there are any, and has returned otherwise. *)
Theorem HierarchicalSearchSpace_reaches_all parameters pcs h :
  let self := next_loc h in
  let all_parameter_names : gset string :=
    list_to_set (name_of h <$> parameters) in
  (∀ self' h',
     new_HierarchicalSearchSpace parameters pcs h = (Return self', h') →
     ∃ root visited,
       _root (search_space_at h' self) = Some root ∧
       _all_parameter_names (search_space_at h' self) = Some all_parameter_names ∧
       _check_subtree recursion_limit h' self root = Return visited ∧
       visited = all_parameter_names) ∧
  (∀ o h' root visited,
     new_HierarchicalSearchSpace parameters pcs h = (o, h') →
     _root (search_space_at h' self) = Some root →
     _check_subtree recursion_limit h' self root = Return visited →
     _all_parameter_names (search_space_at h' self) = Some all_parameter_names ∧
     (∀ x, x ∈ visited → x ∈ all_parameter_names) ∧
     (all_parameter_names ∖ visited ≠ ∅ →
        o = Raise (UserInputError
                     (not_reachable_from_the_root
                        (all_parameter_names ∖ visited)))) ∧
     (all_parameter_names ∖ visited = ∅ → o = Return self)).
Proof.
  intros self names.
  destruct (new_HierarchicalSearchSpace_cases parameters pcs h)
    as [(e & h' & -> & Hnoroot & _)|(Hnames & Hvalid & h2 & Hp & Hself & ->)].
  { split; [done|]. intros o h'' root visited [= <- <-] Hroot.
    fold self in Hnoroot. congruence. }
  fold self names in Hself |- *.
  destruct (_find_root h2 self) as [root0|e] eqn:Hfind.
  2:{ split; [done|]. intros o h' root visited [= <- <-]. by rewrite Hself. }
  cbn zeta. set (h3 := (set__root self root0 h2).2).
  assert (search_space_at h3 self =
          mkSearchSpace HierarchicalSearchSpaceClass (parameters_dict h parameters)
            (default [] pcs) (Some names) (Some root0)) as Hself3.
  { simpl. by rewrite fn_lookup_insert, Hself. }
  assert (∀ visited,
            _check_subtree recursion_limit h3 self root0 = Return visited →
            ∀ x, x ∈ visited → x ∈ names) as Hsubset.
  { intros visited Hcheck x Hx.
    apply find_root_Return in Hfind as [r Hr]; [|by rewrite Hself].
    rewrite Hself in Hr. cbn [_parameters] in Hr.
    apply elem_of_list_to_set. rewrite <-(parameters_dict_keys h).
    replace (parameters_dict h parameters)
      with (_parameters (search_space_at h3 self)) by (by rewrite Hself3).
    apply (check_subtree_names recursion_limit h3 self root0 visited); [| |done..].
    - rewrite Hself3. cbn [_parameters]. intros k l Hkl.
      apply parameters_dict_keyed in Hkl. unfold name_of in *. simpl. by rewrite Hp.
    - rewrite Hself3. cbn [_parameters]. apply dict_get_is_Some.
      exists root0. apply parameters_dict_keyed in Hr as Hname.
      unfold name_of in *. simpl. rewrite Hp. by rewrite Hname. }
  unfold _validate_hierarchical_structure. rewrite Hself3. cbn [_root _all_parameter_names].
  destruct (_check_subtree recursion_limit h3 self root0) as [visited|e] eqn:Hcheck.
  2:{ split; [done|]. intros o h' root visited [= <- <-]. rewrite Hself3.
      intros [= <-]. congruence. }
  rewrite bind_Return. specialize (Hsubset visited eq_refl).
  case_bool_decide as Hsize.
  - split; [done|]. intros o h' root visited' [= <- <-]. rewrite Hself3.
    intros [= <-]. rewrite Hcheck. intros [= <-]. split_and!; [done..|].
    intros Hempty. rewrite Hempty, size_empty in Hsize. done.
  - assert (names ∖ visited = ∅) as Hempty.
    { apply leibniz_equiv, size_empty_iff. lia. }
    split.
    + intros self' h' [= <- <-]. exists root0, visited. rewrite Hself3.
      split_and!; [done..|]. apply set_eq. intros x. split; [by apply Hsubset|].
      intros Hx. destruct (decide (x ∈ visited)) as [|Hnot]; [done|].
      assert (x ∈ names ∖ visited) as Hx' by (by apply elem_of_difference).
      rewrite Hempty in Hx'. by apply not_elem_of_empty in Hx'.
    + intros o h' root visited' [= <- <-]. rewrite Hself3.
      intros [= <-]. rewrite Hcheck. intros [= <-]. split_and!; [done..| |done].
      by rewrite Hempty.
Qed.
End HierarchicalConstruction.

(** ** [clone] *)

Section Clone.
Context {P : Type} `{!ParameterClass P, !ConstraintClass P, !Interpreter}.
Implicit Types (h : heap P) (self : loc).

Lemma below_refl h : below h h.
Proof. done. Qed.

Lemma below_trans h1 h2 h3 : below h1 h2 → below h2 h3 → below h1 h3.
Proof.
  intros (Hn & Hs & Hl) (Hn' & Hs' & Hl'). split_and!; [lia|congruence|].
  intros l Hlt. destruct (Hl l Hlt) as [<- <-]. apply Hl'. lia.
Qed.

Lemma new_parameter_below p h : below h (new_parameter p h).2.
Proof.
  split_and!; [simpl; lia|done|]. intros l Hl. simpl.
  rewrite fn_lookup_insert_ne by lia. done.
Qed.

Lemma new_constraint_below c h : below h (new_constraint (P:=P) c h).2.
Proof.
  split_and!; [simpl; lia|done|]. intros l Hl. simpl.
  rewrite fn_lookup_insert_ne by lia. done.
Qed.

(** Allocating one parameter per element of a list. *)
Lemma new_parameters_run (g : loc → P) ps h :
  ∃ h', mapM (λ p, new_parameter (g p)) ps h =
          (Return (seq (next_loc h) (length ps)), h') ∧
        below h h' ∧ next_loc h' = next_loc h + length ps ∧
        constraint_at h' = constraint_at h ∧
        ∀ i p, ps !! i = Some p → parameter_at h' (next_loc h + i) = g p.
Proof.
  revert h. induction ps as [|p ps IH]; intros h.
  - exists h. split_and!; [done|done|simpl; lia|done|]. by intros i p [=].
  - destruct (IH (new_parameter (g p) h).2) as (h' & Hrun & Hbelow & Hnext & Hcs & Hps).
    exists h'. cbn [mapM]. rewrite M_bind_run. cbn [new_parameter].
    rewrite M_bind_run. simpl in Hrun. rewrite Hrun. simpl in *.
    split_and!; [done| |lia|done|].
    + eapply below_trans; [apply (new_parameter_below (g p) h)|done].
    + intros [|i] q Hq; simpl in Hq.
      * injection Hq as ->. rewrite Nat.add_0_r.
        destruct Hbelow as (_ & _ & Hl). destruct (Hl (next_loc h)) as [-> _];
          [simpl; lia|]. simpl. by rewrite fn_lookup_insert.
      * rewrite <-(Hps i q Hq). f_equal. lia.
Qed.

Lemma clone_constraint_run pc h :
  ∃ c' h', clone_constraint pc h = (Return c', h') ∧ below h h' ∧
           deep_copy h pc h' c'.
Proof.
  unfold clone_constraint. rewrite M_bind_run. unfold get_heap. cbn beta iota.
  destruct (constraint_at h pc) as [l u|ps ub b|d b] eqn:Hpc.
  - eexists _, _. split; [reflexivity|]. cbn [snd new_parameter new_constraint].
    split.
    + split_and!; [simpl; lia|done|]. intros q Hq. simpl.
      rewrite !fn_lookup_insert_ne by lia. done.
    + split_and!; simpl.
      * lia.
      * rewrite fn_lookup_insert. simpl.
        intros q' Hq'. rewrite Hpc. simpl.
        apply elem_of_cons in Hq' as [->|Hq'];
          [|apply list_elem_of_singleton in Hq' as ->].
        -- split; [lia|]. exists l. split; [by left|].
           rewrite fn_lookup_insert_ne by lia. by rewrite fn_lookup_insert.
        -- split; [lia|]. exists u. split; [by right; left|].
           by rewrite fn_lookup_insert.
      * rewrite fn_lookup_insert. done.
  - destruct (new_parameters_run (λ p, clone (parameter_at h p)) ps h)
      as (h1 & Hrun & Hbelow & Hnext & Hcs & Hps).
    rewrite M_bind_run, Hrun. cbn [new_constraint].
    eexists _, _. split; [reflexivity|]. split.
    + eapply below_trans; [done|]. apply (new_constraint_below _ h1).
    + split_and!; simpl.
      * lia.
      * rewrite fn_lookup_insert. simpl. intros q' [Hge Hlt]%elem_of_seq.
        split; [lia|].
        destruct (lookup_lt_is_Some_2 ps (q' - next_loc h)) as [p Hp]; [lia|].
        exists p. rewrite Hpc. split; [by eapply list_elem_of_lookup_2|].
        rewrite <-(Hps _ _ Hp). f_equal. lia.
      * rewrite fn_lookup_insert. done.
  - eexists _, _. split; [reflexivity|]. split; [apply new_constraint_below|].
    split_and!; simpl.
    + lia.
    + rewrite fn_lookup_insert. simpl. by intros q' ?%elem_of_nil.
    + rewrite fn_lookup_insert. by intros d' b' [= <- <-].
Qed.

Lemma deep_copy_below_r h pc h1 h2 c' :
  below h1 h2 → deep_copy h pc h1 c' → deep_copy h pc h2 c'.
Proof.
  intros (Hn & _ & Hl) (Hc' & Hrefs & Hlinear).
  destruct (Hl c' Hc') as [_ Hc]. unfold deep_copy. rewrite Hc. split_and!; [lia| |done].
  intros q' Hq'. destruct (Hrefs q' Hq') as (Hlt & q & Hq & Hclone).
  split; [lia|]. exists q. split; [done|]. destruct (Hl q' Hlt) as [-> _]. done.
Qed.

Lemma deep_copy_below_l h0 h1 pc h2 c' :
  below h0 h1 → allocated h0 [pc] → deep_copy h1 pc h2 c' → deep_copy h0 pc h2 c'.
Proof.
  intros (Hn & _ & Hl) Halloc (Hc' & Hrefs & Hlinear).
  destruct (Halloc pc) as [Hpc Hqs]; [by left|].
  destruct (Hl pc Hpc) as [_ Hc]. unfold deep_copy. rewrite Hc in Hrefs, Hlinear.
  split_and!; [done| |done].
  intros q' Hq'. destruct (Hrefs q' Hq') as (Hlt & q & Hq & Hclone).
  split; [done|]. exists q. split; [done|].
  destruct (Hl q (Hqs q Hq)) as [<- _]. done.
Qed.

Lemma clone_constraints_run cs h :
  allocated h cs →
  ∃ cs' h', mapM clone_constraint cs h = (Return cs', h') ∧ below h h' ∧
            Forall2 (λ pc c', deep_copy h pc h' c') cs cs'.
Proof.
  revert h. induction cs as [|pc cs IH]; intros h Halloc.
  - exists [], h. split_and!; [done|done|constructor].
  - destruct (clone_constraint_run pc h) as (c' & h1 & Hrun1 & Hbelow1 & Hcopy1).
    destruct (IH h1) as (cs' & h' & Hrun & Hbelow & Hcopies).
    { intros pc2 Hpc2. destruct (Halloc pc2) as [Hlt Hqs]; [by right|].
      destruct Hbelow1 as (Hn & _ & Hl). destruct (Hl pc2 Hlt) as [_ ->].
      split; [lia|]. intros q Hq. specialize (Hqs q Hq). lia. }
    exists (c' :: cs'), h'. cbn [mapM]. rewrite M_bind_run, Hrun1, M_bind_run.
    fold (mapM (M:=M P) clone_constraint cs). rewrite Hrun.
    split_and!; [done|by eapply below_trans|]. constructor.
    + by eapply deep_copy_below_r.
    + apply Forall2_same_length_lookup.
      apply Forall2_same_length_lookup in Hcopies as [Hlen Hlookup].
      split; [done|]. intros i pc2 c2 Hi Hj.
      eapply deep_copy_below_l; [exact Hbelow1| |by eapply Hlookup].
      intros ? ->%list_elem_of_singleton. apply Halloc. right.
      by eapply list_elem_of_lookup_2.
Qed.

(** What [clone] returns was made by the constructor of [SearchSpace]. *)
Lemma SearchSpace_clone_Return self h s' h' :
  SearchSpace_clone self h = (Return s', h') →
  search_space_at h' s' =
    mkSearchSpace SearchSpaceClass (_parameters (search_space_at h' s'))
      (_parameter_constraints (search_space_at h' s')) None None.
Proof.
  unfold SearchSpace_clone. rewrite M_bind_run. unfold get_heap. cbn beta iota zeta.
  rewrite M_bind_run. destruct (mapM (M:=M P) _ _ h) as [[ps|e] h1]; [|done].
  rewrite M_bind_run. destruct (mapM (M:=M P) _ _ h1) as [[pcs|e] h2]; [|done].
  rewrite new_SearchSpace_unfold.
  destruct (SearchSpace__init__ _ _ _ _) as [[[]|e] h3] eqn:Hinit; [|done].
  intros [= <- <-].
  apply SearchSpace__init___root in Hinit as [(Hclass & Hall & Hroot) _].
  simpl in Hclass, Hall, Hroot. rewrite fn_lookup_insert in Hclass, Hall, Hroot.
  destruct (search_space_at h3 (next_loc h2)). simpl in *. congruence.
Qed.

(** [clone] returns for a space whose constraints are valid against its
    parameters, when cloning a parameter keeps its name. *)
Lemma SearchSpace_clone_run self h :
  let s := search_space_at h self in
  (∀ p : P, name (clone p) = name p) →
  NoDup (dict_keys (_parameters s)) →
  keyed_by_name h (_parameters s) →
  constraints_valid h (_parameters s) (_parameter_constraints s) →
  allocated h (_parameter_constraints s) →
  ∃ s' h', SearchSpace_clone self h = (Return s', h') ∧
           dict_keys (_parameters (search_space_at h' s')) = dict_keys (_parameters s).
Proof.
  intros s Hclone Hnodup Hkeys Hvalid Halloc.
  set (params := _parameters s) in *. set (cs := _parameter_constraints s) in *.
  destruct (new_parameters_run (λ p, clone (parameter_at h p)) (dict_values params) h)
    as (h1 & Hrun1 & Hbelow1 & Hnext1 & Hcs1 & Hps1).
  destruct (clone_constraints_run cs h1) as (cs' & h2 & Hrun2 & Hbelow2 & Hcopies).
  { intros pc Hpc. destruct (Halloc pc Hpc) as [Hlt Hqs].
    destruct Hbelow1 as (Hn & _ & _). rewrite Hcs1. split; [lia|].
    intros q Hq. specialize (Hqs q Hq). lia. }
  set (n := next_loc h) in *.
  set (ls := seq n (length (dict_values params))) in *.
  assert (∀ i kk v, params !! i = Some (kk, v) →
            ls !! i = Some (n + i) ∧
            parameter_at h2 (n + i) = clone (parameter_at h v) ∧
            name_of h2 (n + i) = kk) as Hclones.
  { intros i kk v Hi.
    assert (dict_values params !! i = Some v) as Hv.
    { unfold dict_values. by rewrite list_lookup_fmap, Hi. }
    assert (parameter_at h2 (n + i) = clone (parameter_at h v)) as Hstate.
    { destruct Hbelow2 as (_ & _ & Hl). destruct (Hl (n + i)) as [-> _].
      - apply lookup_lt_Some in Hv. lia.
      - by apply Hps1. }
    split_and!; [|done|].
    - apply lookup_seq. apply lookup_lt_Some in Hv. done.
    - unfold name_of. rewrite Hstate, Hclone. apply (Hkeys kk v).
      apply dict_get_NoDup; [done|]. by eapply list_elem_of_lookup_2. }
  assert (name_of h2 <$> ls = dict_keys params) as Hnames.
  { apply list_eq_same_length with (length params).
    - unfold dict_keys. by rewrite length_fmap.
    - unfold ls, dict_values. by rewrite length_fmap, length_seq, length_fmap.
    - intros i x y Hi. rewrite list_lookup_fmap. unfold dict_keys.
      rewrite list_lookup_fmap.
      destruct (lookup_lt_is_Some_2 params i Hi) as [[kk v] Hkv].
      destruct (Hclones i kk v Hkv) as (-> & _ & Hname). rewrite Hkv. simpl.
      congruence. }
  destruct (new_SearchSpace_run ls (Some cs') h2) as (h3 & Hrun3 & Hself3).
  { by rewrite Hnames. }
  { assert (NoDup (dict_keys (parameters_dict h2 ls))) as Hnodup'.
    { by rewrite parameters_dict_keys, Hnames. }
    intros c' Hc'. simpl in Hc'.
    apply list_elem_of_lookup in Hc' as [j Hj].
    destruct (Forall2_lookup_r _ _ _ _ _ Hcopies Hj) as (pc & Hpc & _ & Hrefs & Hlinear).
    apply list_elem_of_lookup_2 in Hpc. rewrite Hcs1 in Hrefs, Hlinear.
    pose proof (Hvalid pc Hpc) as Hvalid_pc.
    assert (∀ q', q' ∈ constraint_parameters (constraint_at h2 c') →
              ∃ o', dict_get (name_of h2 q') (parameters_dict h2 ls) = Some o' ∧
                    parameter_at h2 q' = parameter_at h2 o') as Hstructural.
    { intros q' Hq'. destruct (Hrefs q' Hq') as (_ & q & Hq & Hstate).
      destruct (Halloc pc Hpc) as [_ Hqs].
      destruct Hbelow1 as (_ & _ & Hl1). destruct (Hl1 q (Hqs q Hq)) as [Hq1 _].
      rewrite Hq1 in Hstate.
      assert (∃ o, dict_get (name_of h q) params = Some o ∧
                   parameter_at h q = parameter_at h o) as (o & Ho & Hqo).
      { destruct (constraint_at h pc); [by apply Hvalid_pc..|].
        by apply elem_of_nil in Hq. }
      apply dict_get_Some_elem, list_elem_of_lookup in Ho as [i Hi].
      destruct (Hclones _ _ _ Hi) as (Hls & Hstate' & Hname').
      exists (n + i). split.
      - apply dict_get_NoDup; [done|]. unfold name_of at 1.
        rewrite Hstate, Hclone. apply list_elem_of_fmap. exists (n + i).
        split; [by rewrite Hname'|by eapply list_elem_of_lookup_2].
      - by rewrite Hstate, Hstate', Hqo. }
    destruct (constraint_at h2 c') as [l u|ps ub b|d b] eqn:Hc2;
      [exact Hstructural..|].
    intros kk Hkk. rewrite parameters_dict_keys, Hnames.
    specialize (Hlinear d b eq_refl). rewrite Hlinear in Hvalid_pc. by apply Hvalid_pc. }
  exists (next_loc h2), h3. split.
  - unfold SearchSpace_clone. rewrite M_bind_run. unfold get_heap. cbn beta iota zeta.
    fold s. fold params. fold cs. rewrite M_bind_run, Hrun1, M_bind_run, Hrun2. done.
  - rewrite Hself3. cbn [_parameters]. by rewrite parameters_dict_keys.
Qed.
End Clone.

(** ** Adding and replacing parameters *)

Section Parameters.
Context {P : Type} `{!ParameterClass P, !ConstraintClass P, !Interpreter}.
Implicit Types (h : heap P) (self : loc).

Lemma set__parameters_same self d h :
  same_but_parameters h (set__parameters self d h).2 self.
Proof.
  unfold same_but_parameters, set__parameters, set_search_space. simpl.
  rewrite fn_lookup_insert. done.
Qed.

Lemma getitem_dict_get h h' self self' k :
  dict_get k (_parameters (search_space_at h' self')) =
    dict_get k (_parameters (search_space_at h self)) →
  __getitem__ h' self' k = __getitem__ h self k.
Proof.
  intros Heq. unfold __getitem__, dict_contains, subscript. rewrite Heq. done.
Qed.

Lemma add_parameter_unfold self parameter h :
  add_parameter self parameter h =
    let params := _parameters (search_space_at h self) in
    if dict_contains (name_of h parameter) params
    then (Raise (ValueError (already_exists (name_of h parameter))), h)
    else set__parameters self (dict_set (name_of h parameter) parameter params) h.
Proof.
  unfold add_parameter. rewrite M_bind_run. unfold get_heap. cbn beta iota zeta.
  destruct (dict_contains _ _); done.
Qed.

Lemma update_parameter_unfold self parameter h :
  update_parameter self parameter h =
    let params := _parameters (search_space_at h self) in
    let n := name_of h parameter in
    match dict_get n params with
    | None => (Raise (ValueError (does_not_exist_use_add n)), h)
    | Some prev =>
        let prev_type := parameter_type (parameter_at h prev) in
        if decide (parameter_type (parameter_at h parameter) = prev_type)
        then set__parameters self (dict_set n parameter params) h
        else (Raise (ValueError
                       (cannot_update_type n prev_type
                          (parameter_type (parameter_at h parameter)))), h)
    end.
Proof.
  unfold update_parameter. rewrite M_bind_run. unfold get_heap. cbn beta iota zeta.
  unfold dict_contains.
  destruct (dict_get _ _) as [prev|] eqn:Hget.
  - rewrite bool_decide_eq_true_2 by done. cbn [negb].
    rewrite M_bind_run. unfold eval, subscript. rewrite Hget.
    case_bool_decide; destruct (decide _); done.
  - rewrite bool_decide_eq_false_2 by (by intros [? ?]). done.
Qed.

(** X1. [add_parameter] never replaces a parameter: for a name that the
    space has it raises a [ValueError] and changes nothing. For a new name
    it appends the parameter to the dictionary: looking the name up yields
    the parameter, every other lookup is as before, and the constraints,
    the class, the root and the snapshot of names of the object stay as
    they were. *)
Theorem add_parameter_spec self parameter h :
  let params := _parameters (search_space_at h self) in
  let n := name_of h parameter in
  (n ∈ dict_keys params →
     add_parameter self parameter h = (Raise (ValueError (already_exists n)), h)) ∧
  (n ∉ dict_keys params →
     ∃ h', add_parameter self parameter h = (Return (), h') ∧
           _parameters (search_space_at h' self) = params ++ [(n, parameter)] ∧
           __getitem__ h' self n = Return parameter ∧
           (∀ k, k ≠ n → __getitem__ h' self k = __getitem__ h self k) ∧
           same_but_parameters h h' self).
Proof.
  intros params n. rewrite add_parameter_unfold. cbn zeta. fold params n. split.
  - intros Hin. apply dict_contains_true in Hin. rewrite Hin. done.
  - intros Hnotin. pose proof Hnotin as Hfalse. apply dict_contains_false in Hfalse.
    rewrite Hfalse. eexists. split; [apply surjective_pairing|].
    assert (_parameters (search_space_at (set__parameters self (dict_set n parameter params) h).2 self)
            = dict_set n parameter params) as Hparams by apply set__parameters_lookup.
    split_and!.
    + rewrite Hparams. by apply dict_set_notin.
    + apply getitem_Return. rewrite Hparams, dict_get_set. by rewrite decide_True.
    + intros k Hk. apply getitem_dict_get. rewrite Hparams, dict_get_set.
      by rewrite decide_False.
    + apply set__parameters_same.
Qed.

(** X2. [update_parameter] replaces a parameter in place. It raises a
    [ValueError] and changes nothing when the space has no parameter of the
    name, and when the type of the new parameter is not the type of the one
    it would replace. Otherwise the keys and their order stay, the name maps
    to the new parameter, every other lookup is as before, and constraints,
    class, root and snapshot of names stay as they were. *)
Theorem update_parameter_spec self parameter h :
  let params := _parameters (search_space_at h self) in
  let n := name_of h parameter in
  let new_type := parameter_type (parameter_at h parameter) in
  (n ∉ dict_keys params →
     update_parameter self parameter h =
       (Raise (ValueError (does_not_exist_use_add n)), h)) ∧
  (∀ prev, dict_get n params = Some prev →
     new_type ≠ parameter_type (parameter_at h prev) →
     update_parameter self parameter h =
       (Raise (ValueError
                 (cannot_update_type n (parameter_type (parameter_at h prev))
                    new_type)), h)) ∧
  (∀ prev, dict_get n params = Some prev →
     new_type = parameter_type (parameter_at h prev) →
     ∃ h', update_parameter self parameter h = (Return (), h') ∧
           dict_keys (_parameters (search_space_at h' self)) = dict_keys params ∧
           __getitem__ h' self n = Return parameter ∧
           (∀ k, k ≠ n → __getitem__ h' self k = __getitem__ h self k) ∧
           same_but_parameters h h' self).
Proof.
  intros params n new_type. rewrite update_parameter_unfold. cbn zeta.
  fold params n new_type. split_and!.
  - intros Hnotin. apply dict_get_None in Hnotin. by rewrite Hnotin.
  - intros prev -> Hne. by rewrite decide_False.
  - intros prev Hget Heq. rewrite Hget, decide_True by done.
    eexists. split; [apply surjective_pairing|].
    assert (_parameters (search_space_at (set__parameters self (dict_set n parameter params) h).2 self)
            = dict_set n parameter params) as Hparams by apply set__parameters_lookup.
    split_and!.
    + rewrite Hparams. apply dict_keys_set_in. apply dict_get_is_Some. by eexists.
    + apply getitem_Return. rewrite Hparams, dict_get_set. by rewrite decide_True.
    + intros k Hk. apply getitem_dict_get. rewrite Hparams, dict_get_set.
      by rewrite decide_False.
    + apply set__parameters_same.
Qed.
End Parameters.

(** ** The dictionary of parameters as an invariant *)

Section Invariant.
Context {P : Type} `{!ParameterClass P, !ConstraintClass P, !Interpreter}.
Implicit Types (h : heap P) (self : loc).

Lemma well_formed_frame h h' self :
  _parameters (search_space_at h' self) = _parameters (search_space_at h self) →
  parameter_at h' = parameter_at h →
  well_formed h self → well_formed h' self.
Proof.
  intros Hparams Hp [Hnodup Hkeyed]. unfold well_formed. rewrite Hparams.
  split; [done|]. intros k l Hkl. unfold name_of. rewrite Hp. by apply Hkeyed.
Qed.

Lemma well_formed_set h self parameter :
  well_formed h self →
  well_formed
    (set__parameters self
       (dict_set (name_of h parameter) parameter
          (_parameters (search_space_at h self))) h).2 self.
Proof.
  intros [Hnodup Hkeyed]. unfold well_formed. rewrite set__parameters_lookup.
  split; [by apply dict_set_NoDup|].
  intros k l. rewrite dict_get_set. case_decide as Hk.
  - intros [= <-]. by subst k.
  - apply Hkeyed.
Qed.

(** What [set_parameter_constraints] leaves as it was, whatever its
    outcome. *)
Lemma set_parameter_constraints_frame self cs h o h' :
  set_parameter_constraints self cs h = (o, h') →
  _parameters (search_space_at h' self) = _parameters (search_space_at h self) ∧
  parameter_at h' = parameter_at h ∧ next_loc h' = next_loc h.
Proof.
  unfold set_parameter_constraints, mbind, M_bind, eval.
  destruct (_validate_parameter_constraints h self cs) as [[]|e'].
  - destruct (forM_ cs (rebind self) h) as [[[]|e''] h1] eqn:Hloop.
    + intros [= _ <-]. apply rebind_loop_frame in Hloop as (-> & -> & ->).
      simpl. by rewrite fn_lookup_insert.
    + intros [= _ <-]. apply rebind_loop_frame in Hloop as (-> & -> & ->). done.
  - intros [= _ <-]. done.
Qed.

Lemma add_parameter_constraints_frame self cs h o h' :
  add_parameter_constraints self cs h = (o, h') →
  _parameters (search_space_at h' self) = _parameters (search_space_at h self) ∧
  parameter_at h' = parameter_at h ∧ constraint_at h' = constraint_at h ∧
  next_loc h' = next_loc h.
Proof.
  rewrite add_parameter_constraints_run.
  destruct (_validate_parameter_constraints h self cs) as [[]|e'].
  - intros [= _ <-]. simpl. by rewrite fn_lookup_insert.
  - intros [= _ <-]. done.
Qed.

(** What construction of a hierarchical search space has established when
    it returns. *)
Lemma new_HierarchicalSearchSpace_Return parameters pcs h self h' :
  new_HierarchicalSearchSpace parameters pcs h = (Return self, h') →
  let names : gset string := list_to_set (name_of h <$> parameters) in
  self = next_loc h ∧ NoDup (name_of h <$> parameters) ∧
  parameter_at h' = parameter_at h ∧
  ∃ root,
    search_space_at h' self =
      mkSearchSpace HierarchicalSearchSpaceClass (parameters_dict h parameters)
        (default [] pcs) (Some names) (Some root) ∧
    dict_get (name_of h root) (parameters_dict h parameters) = Some root ∧
    _check_subtree recursion_limit h' self root = Return names.
Proof.
  intros Hrun names.
  destruct (new_HierarchicalSearchSpace_cases parameters pcs h)
    as [(e & h'' & Hraise & _)|(Hnames & Hvalid & h2 & Hp & Hself & Heq)];
    [congruence|].
  rewrite Heq in Hrun. clear Heq. fold names in Hself.
  destruct (_find_root h2 (next_loc h)) as [root|e] eqn:Hfind; [|done].
  cbn zeta in Hrun. set (h3 := (set__root (next_loc h) root h2).2) in *.
  assert (search_space_at h3 (next_loc h) =
          mkSearchSpace HierarchicalSearchSpaceClass (parameters_dict h parameters)
            (default [] pcs) (Some names) (Some root)) as Hself3.
  { simpl. by rewrite fn_lookup_insert, Hself. }
  destruct (_validate_hierarchical_structure h3 (next_loc h)) as [[]|e] eqn:Hval;
    [|done].
  injection Hrun as <- <-. split; [done|]. split; [done|]. split; [exact Hp|].
  exists root. split; [exact Hself3|].
  apply find_root_Return in Hfind as [r Hr]; [|by rewrite Hself].
  rewrite Hself in Hr. cbn [_parameters] in Hr.
  apply parameters_dict_keyed in Hr as Hname. split; [by rewrite Hname|].
  unfold _validate_hierarchical_structure in Hval. rewrite Hself3 in Hval.
  cbn [_root _all_parameter_names] in Hval.
  destruct (_check_subtree recursion_limit h3 (next_loc h) root)
    as [visited|e] eqn:Hcheck; [|done].
  rewrite bind_Return in Hval. case_bool_decide as Hsize; [done|].
  f_equal. apply set_eq. intros x. split.
  - intros Hx. apply elem_of_list_to_set. rewrite <-(parameters_dict_keys h).
    replace (parameters_dict h parameters)
      with (_parameters (search_space_at h3 (next_loc h))) by (by rewrite Hself3).
    apply (check_subtree_names recursion_limit h3 (next_loc h) root visited);
      [| |done..].
    + rewrite Hself3. cbn [_parameters]. intros k l Hkl.
      apply parameters_dict_keyed in Hkl. unfold name_of in *. simpl. by rewrite Hp.
    + rewrite Hself3. cbn [_parameters]. apply dict_get_is_Some.
      exists root. unfold name_of in *. simpl. rewrite Hp. by rewrite Hname.
  - intros Hx. destruct (decide (x ∈ visited)) as [|Hnot]; [done|].
    assert (names ∖ visited = ∅) as Hempty.
    { apply leibniz_equiv, size_empty_iff. lia. }
    assert (x ∈ names ∖ visited) as Hx' by (by apply elem_of_difference).
    rewrite Hempty in Hx'. by apply not_elem_of_empty in Hx'.
Qed.

Lemma new_SearchSpace_Return parameters pcs h self h' :
  new_SearchSpace parameters pcs h = (Return self, h') →
  self = next_loc h ∧ NoDup (name_of h <$> parameters) ∧
  parameter_at h' = parameter_at h ∧
  _parameters (search_space_at h' self) = parameters_dict h parameters ∧
  constraints_valid h (parameters_dict h parameters) (default [] pcs).
Proof.
  rewrite new_SearchSpace_unfold.
  destruct (SearchSpace__init__ _ _ _ _) as [[[]|e] h1] eqn:Hinit; [|done].
  intros [= <- <-]. rewrite SearchSpace__init___unfold in Hinit.
  case_decide as Hnames; [|done].
  apply set_parameter_constraints_frame in Hinit as Hframe.
  destruct Hframe as (Hparams & Hp & _).
  rewrite set__parameters_lookup in Hparams.
  apply set_parameter_constraints_Return in Hinit as [Hval _].
  apply validate_parameter_constraints_Return in Hval.
  rewrite set__parameters_lookup in Hval. done.
Qed.

(** X3. A search space that construction returns, of the base class or
    hierarchical, holds the parameter objects it was given, in the order of
    the list, each under its own name, and no name twice. *)
Theorem construction_well_formed parameters pcs h self h' :
  new_SearchSpace parameters pcs h = (Return self, h') ∨
  new_HierarchicalSearchSpace parameters pcs h = (Return self, h') →
  well_formed h' self ∧
  dict_values (_parameters (search_space_at h' self)) = parameters ∧
  dict_keys (_parameters (search_space_at h' self)) = name_of h' <$> parameters.
Proof.
  intros Hrun.
  assert (NoDup (name_of h <$> parameters) ∧ parameter_at h' = parameter_at h ∧
          _parameters (search_space_at h' self) = parameters_dict h parameters)
    as (Hnames & Hp & Hparams).
  { destruct Hrun as [Hrun|Hrun].
    - by apply new_SearchSpace_Return in Hrun as (_ & ? & ? & ? & _).
    - apply new_HierarchicalSearchSpace_Return in Hrun
        as (_ & ? & ? & root & Hself & _).
      by rewrite Hself. }
  assert (name_of h' = name_of h) as Hname.
  { unfold name_of. by rewrite Hp. }
  unfold well_formed. rewrite Hparams, parameters_dict_keys, parameters_dict_values, Hname.
  split_and!; [done| |done..].
  intros k l Hkl. rewrite Hname. by apply parameters_dict_keyed in Hkl.
Qed.

(** X4. The methods that change a search space keep its dictionary of
    parameters well formed, whether they return or raise: no name twice,
    every parameter under its own name. *)
Theorem well_formed_preserved self h :
  well_formed h self →
  (∀ parameter, well_formed (add_parameter self parameter h).2 self) ∧
  (∀ parameter, well_formed (update_parameter self parameter h).2 self) ∧
  (∀ cs, well_formed (set_parameter_constraints self cs h).2 self) ∧
  (∀ cs, well_formed (add_parameter_constraints self cs h).2 self).
Proof.
  intros Hwf. split_and!.
  - intros parameter. rewrite add_parameter_unfold. cbn zeta.
    destruct (dict_contains _ _); [done|]. by apply well_formed_set.
  - intros parameter. rewrite update_parameter_unfold. cbn zeta.
    destruct (dict_get _ _); [|done]. case_decide; [|done]. by apply well_formed_set.
  - intros cs.
    destruct (set_parameter_constraints self cs h) as [o h'] eqn:Hrun.
    apply set_parameter_constraints_frame in Hrun as (? & ? & _).
    by apply (well_formed_frame h).
  - intros cs.
    destruct (add_parameter_constraints self cs h) as [o h'] eqn:Hrun.
    apply add_parameter_constraints_frame in Hrun as (? & ? & _).
    by apply (well_formed_frame h).
Qed.
End Invariant.

(** ** [raise_error] *)

Section RaiseError.
Context {P : Type} `{!ParameterClass P, !ConstraintClass P, !Interpreter}.
Implicit Types (h : heap P) (self : loc).

Lemma dict_contains_subscript {V} (d : dict V) k :
  dict_contains k d = true → ∃ v, dict_get k d = Some v ∧ subscript d k = Return v.
Proof.
  unfold dict_contains, subscript. intros [v Hv]%bool_decide_eq_true.
  exists v. by rewrite Hv.
Qed.

(** The loop over the items with and without [raise_error]. *)
Lemma check_membership_items_both h params items :
  (check_membership_items h params false items = Return None ∧
   check_membership_items h params true items = Return None) ∨
  (check_membership_items h params false items = Return (Some false) ∧
   ∃ n v, (n, v) ∈ items ∧
     (check_membership_items h params true items =
        Raise (ValueError (not_defined_in_search_space n)) ∧
      n ∉ dict_keys params ∨
      check_membership_items h params true items =
        Raise (ValueError (not_a_valid_value v n)) ∧
      ∃ l, dict_get n params = Some l ∧ validate (parameter_at h l) v = false)).
Proof.
  induction items as [|[n v] items IH]; [by left|].
  cbn [check_membership_items].
  destruct (dict_contains n params) eqn:Hin; cbn [negb].
  - destruct (dict_contains_subscript _ _ Hin) as (l & Hget & ->).
    rewrite !bind_Return.
    destruct (validate (parameter_at h l) v) eqn:Hvalid; cbn [negb].
    + destruct IH as [IH|(Hfalse & n' & v' & Hin' & IH)]; [by left|].
      right. split; [done|]. exists n', v'. split; [by right|done].
    + right. split; [done|]. exists n, v. split; [by left|]. right. eauto.
  - right. split; [done|]. exists n, v. split; [by left|]. left. split; [done|].
    by apply dict_contains_false.
Qed.

(** The loop over the constraints with and without [raise_error]. *)
Lemma check_membership_constraints_both h numerical cs :
  (check_membership_constraints h false numerical cs = Return true ∧
   check_membership_constraints h true numerical cs = Return true) ∨
  (check_membership_constraints h false numerical cs = Return false ∧
   ∃ c, c ∈ cs ∧
        check (parameter_at h) (constraint_at h c) numerical = false ∧
        check_membership_constraints h true numerical cs =
          Raise (ValueError (constraint_is_violated c))).
Proof.
  induction cs as [|c cs IH]; [by left|].
  cbn [check_membership_constraints].
  destruct (check (parameter_at h) (constraint_at h c) numerical) eqn:Hc; cbn [negb].
  - destruct IH as [IH|(Hfalse & c' & Hin & IH)]; [by left|].
    right. split; [done|]. exists c'. split; [by right|done].
  - right. split; [done|]. exists c. split; [by left|done].
Qed.

(** X5. [raise_error] changes nothing but the way [check_membership] says
    no. With [raise_error=True] the method never returns [False]; it
    returns [True] exactly when it does without the flag; where it returns
    [False] without the flag it raises a [ValueError] with it, which names
    the two lengths, a key that is not a parameter, an item whose value the
    parameter does not validate, or a constraint whose check fails; and an
    exception raised without the flag is raised with it. *)
Theorem check_membership_raise_error h self p :
  let params := _parameters (search_space_at h self) in
  check_membership h self p true ≠ Return false ∧
  (check_membership h self p true = Return true ↔
   check_membership h self p false = Return true) ∧
  (check_membership h self p false = Return false →
   ∃ msg, check_membership h self p true = Raise (ValueError msg) ∧
     (msg = wrong_number_of_parameters (length p) (length params) ∧
        length p ≠ length params ∨
      (∃ n, msg = not_defined_in_search_space n ∧
            n ∈ dict_keys p ∧ n ∉ dict_keys params) ∨
      (∃ n v l, msg = not_a_valid_value v n ∧ (n, v) ∈ p ∧
                dict_get n params = Some l ∧
                validate (parameter_at h l) v = false) ∨
      (∃ c, msg = constraint_is_violated c ∧
            c ∈ _parameter_constraints (search_space_at h self)))) ∧
  (∀ e, check_membership h self p false = Raise e →
        check_membership h self p true = Raise e).
Proof.
  intros params. unfold check_membership. fold params.
  case_bool_decide as Hlen.
  { split_and!; [done|done| |done]. intros _. eexists. split; [done|]. by left. }
  destruct (check_membership_items_both h params p)
    as [[-> ->]|(-> & n & v & Hnv & Htrue)].
  - rewrite !bind_Return.
    destruct (numerical_param_dict h params p []) as [numerical|e]; [|done].
    rewrite !bind_Return.
    destruct (check_membership_constraints_both h numerical
                (_parameter_constraints (search_space_at h self)))
      as [[-> ->]|(-> & c & Hc & _ & ->)].
    + done.
    + split_and!; [done|done| |done]. intros _. eexists. split; [done|].
      do 3 right. by exists c.
  - rewrite bind_Return.
    destruct Htrue as [[-> Hn]|[-> (l & Hl & Hvalid)]]; rewrite bind_Raise.
    + split_and!; [done|done| |done]. intros _. eexists. split; [done|].
      right. left. exists n. split_and!; [done| |done].
      apply list_elem_of_fmap. by exists (n, v).
    + split_and!; [done|done| |done]. intros _. eexists. split; [done|].
      do 2 right. left. by exists n, v, l.
Qed.

(** ** [check_types] *)

(** The loop of [check_types] without [raise_error] returns [False] from
    inside or falls through; it never raises. *)
Lemma check_types_items_both h params allow_none items :
  (Forall (valid_type_item h params allow_none) items ∧
   check_types_items h params allow_none false items = Return None ∧
   check_types_items h params allow_none true items = Return None) ∨
  (¬ Forall (valid_type_item h params allow_none) items ∧
   check_types_items h params allow_none false items = Return (Some false) ∧
   ∃ n v, (n, v) ∈ items ∧
     (check_types_items h params allow_none true items =
        Raise (ValueError (not_defined_in_search_space n)) ∧
      n ∉ dict_keys params ∨
      check_types_items h params allow_none true items =
        Raise (ValueError (not_a_valid_value v n)) ∧
      ∃ l, dict_get n params = Some l ∧
           is_valid_type (parameter_at h l) v = false)).
Proof.
  induction items as [|[n v] items IH]; [left; by split|].
  cbn [check_types_items].
  destruct (dict_contains n params) eqn:Hin; cbn [negb].
  - destruct (dict_contains_subscript _ _ Hin) as (l & Hget & ->).
    rewrite !bind_Return.
    assert (valid_type_item h params allow_none (n, v) →
            (Forall (valid_type_item h params allow_none) items ∧
             check_types_items h params allow_none false items = Return None ∧
             check_types_items h params allow_none true items = Return None) ∨
            (¬ Forall (valid_type_item h params allow_none) ((n, v) :: items) ∧
             check_types_items h params allow_none false items = Return (Some false) ∧
             ∃ n' v', (n', v') ∈ (n, v) :: items ∧
               (check_types_items h params allow_none true items =
                  Raise (ValueError (not_defined_in_search_space n')) ∧
                n' ∉ dict_keys params ∨
                check_types_items h params allow_none true items =
                  Raise (ValueError (not_a_valid_value v' n')) ∧
                ∃ l, dict_get n' params = Some l ∧
                     is_valid_type (parameter_at h l) v' = false))) as Hrest.
    { intros Hitem.
      destruct IH as [IH|(Hnot & Hfalse & n' & v' & Hin' & IH)]; [by left|].
      right. split; [by intros [_ ?]%Forall_cons|]. split; [done|].
      exists n', v'. split; [by right|done]. }
    destruct (is_None v && allow_none) eqn:Hnone.
    + destruct Hrest as [(? & ? & ?)|?]; [exists l; split; [done|by left]| |by right].
      left. split; [|done]. constructor; [|done]. exists l. split; [done|by left].
    + destruct (is_valid_type (parameter_at h l) v) eqn:Hvalid; cbn [negb].
      * destruct Hrest as [(? & ? & ?)|?]; [exists l; split; [done|by right]| |by right].
        left. split; [|done]. constructor; [|done]. exists l. split; [done|by right].
      * right. split.
        { intros [(l' & Hl' & Hor) _]%Forall_cons. simpl in Hl', Hor.
          assert (l' = l) as -> by congruence. destruct Hor; congruence. }
        split; [done|]. exists n, v. split; [by left|]. right. eauto.
  - right. split.
    { intros [(l' & Hl' & _) _]%Forall_cons. simpl in Hl'.
      apply dict_contains_false, dict_get_None in Hin. congruence. }
    split; [done|]. exists n, v. split; [by left|]. left. split; [done|].
    by apply dict_contains_false.
Qed.

Lemma check_types_true_items h self p allow_none :
  check_types h self p allow_none false = Return true ↔
  length p = length (_parameters (search_space_at h self)) ∧
  Forall (valid_type_item h (_parameters (search_space_at h self)) allow_none) p.
Proof.
  unfold check_types. case_bool_decide as Hlen.
  { split; [done|]. by intros [? _]. }
  destruct (check_types_items_both h (_parameters (search_space_at h self))
              allow_none p)
    as [(Hall & -> & _)|(Hnot & -> & _)]; rewrite bind_Return; cbn [default].
  - split; [|done]. intros _. split; [lia|done].
  - split; [done|]. by intros [_ Hall].
Qed.

(** X6. Without [raise_error], [check_types] always returns, and it returns
    [True] exactly when the parameterization has as many entries as the
    space has parameters and every entry is under the name of a parameter
    whose [is_valid_type] accepts the value, or is [None] with [allow_none]
    set. *)
Theorem check_types_spec h self p allow_none :
  let params := _parameters (search_space_at h self) in
  (check_types h self p allow_none false = Return true ↔
   length p = length params ∧
   ∀ kv, kv ∈ p → valid_type_item h params allow_none kv) ∧
  (check_types h self p allow_none false = Return true ∨
   check_types h self p allow_none false = Return false).
Proof.
  intros params. split.
  - rewrite check_types_true_items. fold params. by rewrite Forall_forall.
  - unfold check_types. fold params. case_bool_decide as Hlen; [by right|].
    destruct (check_types_items_both h params allow_none p)
      as [(_ & -> & _)|(_ & -> & _)]; rewrite bind_Return; cbn [default];
      [by left|by right].
Qed.

(** X7. With [raise_error=True], [check_types] never returns [False]: it
    returns [True] exactly when it does without the flag, and raises a
    [ValueError] where it returns [False] without it. *)
Theorem check_types_raise_error h self p allow_none :
  let params := _parameters (search_space_at h self) in
  check_types h self p allow_none true ≠ Return false ∧
  (check_types h self p allow_none true = Return true ↔
   check_types h self p allow_none false = Return true) ∧
  (check_types h self p allow_none false = Return false →
   ∃ msg, check_types h self p allow_none true = Raise (ValueError msg) ∧
     (msg = wrong_number_of_parameters (length p) (length params) ∧
        length p ≠ length params ∨
      (∃ n, msg = not_defined_in_search_space n ∧
            n ∈ dict_keys p ∧ n ∉ dict_keys params) ∨
      (∃ n v l, msg = not_a_valid_value v n ∧ (n, v) ∈ p ∧
                dict_get n params = Some l ∧
                is_valid_type (parameter_at h l) v = false))).
Proof.
  intros params. unfold check_types. fold params. case_bool_decide as Hlen.
  { split_and!; [done|done|]. intros _. eexists. split; [done|]. by left. }
  destruct (check_types_items_both h params allow_none p)
    as [(_ & -> & ->)|(_ & -> & n & v & Hnv & Htrue)].
  - rewrite !bind_Return. done.
  - rewrite bind_Return.
    destruct Htrue as [[-> Hn]|[-> (l & Hl & Hvalid)]]; rewrite bind_Raise.
    + split_and!; [done|done|]. intros _. eexists. split; [done|].
      right. left. exists n. split_and!; [done| |done].
      apply list_elem_of_fmap. by exists (n, v).
    + split_and!; [done|done|]. intros _. eexists. split; [done|].
      do 2 right. by exists n, v, l.
Qed.

(** X8. Allowing [None] only makes [check_types] accept more: a
    parameterization accepted with [allow_none=False] is accepted with
    [allow_none=True], and for a parameterization without a [None] value
    the flag makes no difference. *)
Theorem check_types_allow_none h self p raise_error :
  (check_types h self p false raise_error = Return true →
   check_types h self p true raise_error = Return true) ∧
  ((∀ k v, (k, v) ∈ p → v ≠ VNone) →
   check_types h self p true raise_error = check_types h self p false raise_error).
Proof.
  set (params := _parameters (search_space_at h self)).
  assert (∀ items, check_types_items h params false raise_error items = Return None →
                   check_types_items h params true raise_error items = Return None)
    as Hmono.
  { induction items as [|[n v] items IH]; [done|]. cbn [check_types_items].
    destruct (dict_contains n params) eqn:Hin; cbn [negb];
      [|by destruct raise_error].
    rewrite andb_false_r.
    destruct (dict_contains_subscript _ _ Hin) as (l & Hget & ->).
    rewrite !bind_Return.
    destruct (is_valid_type (parameter_at h l) v); cbn [negb];
      [|by destruct raise_error].
    intros Hrest. rewrite (IH Hrest). by destruct (is_None v && true). }
  assert (∀ items, (∀ k v, (k, v) ∈ items → v ≠ VNone) →
                   check_types_items h params true raise_error items =
                   check_types_items h params false raise_error items) as Hsame.
  { induction items as [|[n v] items IH]; [done|]. intros Hnone.
    cbn [check_types_items].
    assert (is_None v = false) as ->.
    { destruct v; [|done..]. by destruct (Hnone n VNone); [left|]. }
    cbn [andb]. rewrite IH; [done|]. intros k v' Hin. apply (Hnone k). by right. }
  assert (∀ items, check_types_items h params false raise_error items ≠
                   Return (Some true)) as Hnever.
  { induction items as [|[n v] items IH]; [done|]. cbn [check_types_items].
    destruct (dict_contains n params) eqn:Hin; cbn [negb];
      [|by destruct raise_error].
    rewrite andb_false_r.
    destruct (dict_contains_subscript _ _ Hin) as (l & Hget & ->).
    rewrite !bind_Return.
    destruct (is_valid_type (parameter_at h l) v); cbn [negb];
      [done|by destruct raise_error]. }
  unfold check_types. fold params. case_bool_decide as Hlen; [done|]. split.
  - destruct (check_types_items h params false raise_error p) as [[[]|]|e] eqn:Hitems;
      rewrite ?bind_Return, ?bind_Raise; cbn [default]; try done.
    + by apply Hnever in Hitems.
    + intros _. by rewrite (Hmono p Hitems).
  - intros Hnone. by rewrite Hsame.
Qed.
End RaiseError.

(** ** Arms and parameterizations *)

Section dict_update.
Context {V : Type}.
Implicit Types (d : dict V) (k : string) (v : V).

Lemma dict_update_get d d' k :
  NoDup (dict_keys d') →
  dict_get k (dict_update d d') =
    match dict_get k d' with Some v => Some v | None => dict_get k d end.
Proof.
  unfold dict_update. revert d. induction d' as [|[k' v'] d' IH]; intros d Hnodup; [done|].
  apply NoDup_cons in Hnodup as [Hk' Hnodup]. cbn [foldl dict_get fst snd].
  rewrite IH by done. rewrite dict_get_set.
  destruct (decide (k = k')) as [->|Hne].
  - rewrite decide_True by done. apply dict_get_None in Hk'. simpl in Hk'.
    by rewrite Hk'.
  - rewrite decide_False by done. done.
Qed.

Lemma dict_get_fmap_const (ks : list string) v k :
  dict_get k ((λ k', (k', v)) <$> ks) = if decide (k ∈ ks) then Some v else None.
Proof.
  induction ks as [|k' ks IH]; [done|]. cbn [fmap list_fmap dict_get].
  destruct (decide (k = k')) as [->|Hne].
  - rewrite decide_True by left. done.
  - rewrite IH. destruct (decide (k ∈ ks)).
    + rewrite decide_True by (by right). done.
    + rewrite decide_False; [done|]. by intros [?|?]%elem_of_cons.
Qed.
End dict_update.

Section Arms.
Context {P : Type} `{!ParameterClass P, !ConstraintClass P, !Interpreter}.
Implicit Types (h : heap P) (self : loc).

(** A parameterization of distinct keys, as many as the space has
    parameters, all of them names of parameters, has exactly the names of
    the parameters as its keys. *)
Lemma keys_complete {V W} (p : dict V) (params : dict W) :
  NoDup (dict_keys p) →
  length p = length params →
  (∀ k, k ∈ dict_keys p → k ∈ dict_keys params) →
  dict_keys p ≡ₚ dict_keys params.
Proof.
  intros Hnodup Hlen Hsub. apply submseteq_length_Permutation.
  - by apply NoDup_submseteq.
  - unfold dict_keys. rewrite !length_fmap. lia.
Qed.

Lemma check_membership_true_items h self p :
  check_membership h self p false = Return true →
  length p = length (_parameters (search_space_at h self)) ∧
  Forall (valid_item h (_parameters (search_space_at h self))) p.
Proof.
  unfold check_membership. case_bool_decide as Hlen; [done|].
  destruct (check_membership_items_false h (_parameters (search_space_at h self)) p)
    as [[Hall ->]|[_ ->]]; [|done].
  intros _. split; [|done].
  by destruct (decide (length p = length (_parameters (search_space_at h self)))).
Qed.

Lemma valid_item_key h (params : dict loc) (p : dict TParamValue) :
  Forall (valid_item h params) p → ∀ k, k ∈ dict_keys p → k ∈ dict_keys params.
Proof.
  intros Hall k ([k' v] & -> & Hkv)%list_elem_of_fmap.
  rewrite Forall_forall in Hall. destruct (Hall _ Hkv) as (l & Hl & _).
  apply dict_get_is_Some. by exists l.
Qed.

(** X9. A parameterization that [check_membership] or [check_types]
    accepts gives a value to every parameter of the space: its keys, no
    two of them the same as in any dictionary, are exactly the names of the
    parameters. *)
Theorem accepted_parameterization_complete h self p :
  NoDup (dict_keys p) →
  check_membership h self p false = Return true ∨
  (∃ allow_none, check_types h self p allow_none false = Return true) →
  dict_keys p ≡ₚ dict_keys (_parameters (search_space_at h self)) ∧
  ∀ k, k ∈ dict_keys (_parameters (search_space_at h self)) →
       is_Some (dict_get k p).
Proof.
  intros Hnodup Haccepted.
  assert (dict_keys p ≡ₚ dict_keys (_parameters (search_space_at h self))) as Hperm.
  { destruct Haccepted as [Hmember|[allow_none Htypes]].
    - apply check_membership_true_items in Hmember as [Hlen Hall].
      apply keys_complete; [done..|]. by apply (valid_item_key h).
    - apply check_types_true_items in Htypes as [Hlen Hall].
      apply keys_complete; [done..|].
      intros k ([k' v] & -> & Hkv)%list_elem_of_fmap.
      rewrite Forall_forall in Hall.
      destruct (Hall _ Hkv) as (l & Hl & _). apply dict_get_is_Some. by exists l. }
  split; [done|]. intros k Hk. apply dict_get_is_Some. by rewrite Hperm.
Qed.
End Arms.

Section ConstructArm.
Context {P : Type} `{!ParameterClass P, !ConstraintClass P, !Interpreter}.
Implicit Types (h : heap P) (self : loc).

(** The dictionary [{k: None for k in self.parameters.keys()}]. *)
Lemma final_parameters_NoDup (keys : list string) :
  NoDup keys →
  dict_comprehension id (λ _, VNone) keys = (λ k, (k, VNone)) <$> keys.
Proof.
  intros Hnodup. rewrite dict_comprehension_NoDup by (by rewrite list_fmap_id). done.
Qed.

Lemma final_parameters_get (keys : list string) k :
  dict_get k (dict_comprehension id (λ _, VNone) keys) =
    if decide (k ∈ keys) then Some VNone else None.
Proof.
  destruct (decide (k ∈ keys)) as [Hin|Hnotin].
  - apply dict_comprehension_const. by rewrite list_fmap_id.
  - apply dict_get_None. rewrite dict_comprehension_keys. by rewrite list_fmap_id.
Qed.

Lemma check_types_items_None h params raise_error (keys : list string) :
  (∀ k, k ∈ keys → k ∈ dict_keys params) →
  check_types_items h params true raise_error ((λ k, (k, VNone)) <$> keys) =
    Return None.
Proof.
  induction keys as [|k keys IH]; intros Hkeys; [done|].
  cbn [fmap list_fmap check_types_items].
  rewrite (proj2 (dict_contains_true params k)) by (apply Hkeys; by left).
  cbn [negb is_None andb]. apply IH. intros k' Hk'. apply Hkeys. by right.
Qed.

(** X10. The arm that [out_of_design_arm] returns has the names of the
    parameters as its keys, in the order of the space, and [check_types]
    accepts its parameterization when [None] is allowed. *)
Theorem out_of_design_arm_check_types h self raise_error :
  let params := _parameters (search_space_at h self) in
  NoDup (dict_keys params) →
  ∃ arm, out_of_design_arm h self = Return arm ∧
         dict_keys (Arm_parameters arm) = dict_keys params ∧
         check_types h self (Arm_parameters arm) true raise_error = Return true.
Proof.
  intros params Hnodup. eexists. split; [reflexivity|].
  cbn [Arm_parameters]. fold params. rewrite final_parameters_NoDup by done.
  split.
  - unfold dict_keys. rewrite <-list_fmap_compose. apply list_fmap_id.
  - unfold check_types. fold params.
    rewrite bool_decide_eq_false_2.
    + by rewrite check_types_items_None.
    + unfold dict_keys. rewrite !length_fmap. lia.
Qed.

(** The loop of [construct_arm] returns exactly when every override is
    under the name of a parameter and is [None] or a value that the
    parameter validates. *)
Lemma construct_arm_validate_spec h params ps :
  construct_arm_validate h params ps = Return () ↔
  ∀ k v, (k, v) ∈ ps →
    ∃ l, dict_get k params = Some l ∧
         (v = VNone ∨ validate (parameter_at h l) v = true).
Proof.
  unfold construct_arm_validate. rewrite for__Return. split.
  - intros Hps k v Hkv. specialize (Hps _ Hkv). simpl in Hps.
    destruct (dict_contains k params) eqn:Hk; [|done]. cbn [negb] in Hps.
    destruct (dict_contains_subscript _ _ Hk) as (l & Hl & Hsub).
    rewrite Hsub, bind_Return in Hps. exists l. split; [done|].
    destruct (is_None v) eqn:Hnone; [left; by destruct v|right].
    cbn [negb andb] in Hps. by destruct (validate (parameter_at h l) v).
  - intros Hps [k v] Hkv. destruct (Hps k v Hkv) as (l & Hl & Hv).
    unfold dict_contains, subscript. rewrite Hl.
    rewrite bool_decide_eq_true_2 by done. cbn [negb]. rewrite bind_Return.
    destruct Hv as [-> | Hv]; [done|]. rewrite Hv. by rewrite andb_false_r.
Qed.

Lemma construct_arm_validate_error h params ps e :
  construct_arm_validate h params ps = Raise e →
  ∃ k v, (k, v) ∈ ps ∧
    (e = ValueError (does_not_exist k) ∧ k ∉ dict_keys params ∨
     e = ValueError (not_a_valid_value v k) ∧ v ≠ VNone ∧
     ∃ l, dict_get k params = Some l ∧ validate (parameter_at h l) v = false).
Proof.
  unfold construct_arm_validate. intros ([k v] & Hkv & Hbody)%for__Raise.
  exists k, v. split; [done|].
  destruct (dict_contains k params) eqn:Hk; cbn [negb] in Hbody.
  - destruct (dict_contains_subscript _ _ Hk) as (l & Hl & Hsub).
    rewrite Hsub, bind_Return in Hbody. right.
    destruct (is_None v) eqn:Hnone; [done|]. cbn [negb andb] in Hbody.
    destruct (validate (parameter_at h l) v) eqn:Hv; [done|].
    cbn [negb] in Hbody. injection Hbody as <-.
    split; [done|]. split; [by intros ->|]. eauto.
  - injection Hbody as <-. left. split; [done|]. by apply dict_contains_false.
Qed.

(** X11. The arm that [construct_arm] returns for overrides has, under
    every name of a parameter, the override of that name if there is one
    and [None] otherwise; an override that is not [None] has passed the
    parameter's [validate]; the name of the arm is the one given; and the
    keys are in the order of the space. *)
Theorem construct_arm_values h self ps name arm :
  let params := _parameters (search_space_at h self) in
  NoDup (dict_keys ps) →
  construct_arm h self (Some ps) name = Return arm →
  (∀ k, k ∈ dict_keys params →
        dict_get k (Arm_parameters arm) = Some (default VNone (dict_get k ps))) ∧
  (∀ k v, dict_get k ps = Some v →
        dict_get k (Arm_parameters arm) = Some v ∧
        ∃ l, dict_get k params = Some l ∧
             (v = VNone ∨ validate (parameter_at h l) v = true)) ∧
  Arm_name arm = name ∧
  (NoDup (dict_keys params) → dict_keys (Arm_parameters arm) = dict_keys params).
Proof.
  intros params Hnodup. unfold construct_arm. fold params.
  destruct (construct_arm_validate h params ps) as [[]|e] eqn:Hval; [|done].
  rewrite bind_Return. intros [= <-]. cbn [Arm_parameters Arm_name].
  pose proof (proj1 (construct_arm_validate_spec h params ps) Hval) as Hvalid.
  split_and!; [| |done|].
  - intros k Hk. rewrite dict_update_get by done. rewrite final_parameters_get.
    rewrite decide_True by done. by destruct (dict_get k ps).
  - intros k v Hkv. rewrite dict_update_get by done. rewrite Hkv. split; [done|].
    apply (Hvalid k v). by apply dict_get_Some_elem.
  - intros Hparams. rewrite dict_update_keys.
    + rewrite final_parameters_NoDup by done. unfold dict_keys.
      rewrite <-list_fmap_compose. apply list_fmap_id.
    + intros k Hk. rewrite dict_comprehension_keys, list_fmap_id.
      by apply (construct_arm_validate_Return h params ps).
Qed.

(** X12. [construct_arm] returns exactly when every override is under the
    name of a parameter and is [None] or a value that the parameter
    validates; otherwise it raises a [ValueError] that names a key which is
    not a parameter, or a value other than [None] that the parameter of its
    key does not validate. *)
Theorem construct_arm_errors h self ps name :
  let params := _parameters (search_space_at h self) in
  ((∃ arm, construct_arm h self (Some ps) name = Return arm) ↔
   ∀ k v, (k, v) ∈ ps →
     ∃ l, dict_get k params = Some l ∧
          (v = VNone ∨ validate (parameter_at h l) v = true)) ∧
  (∀ e, construct_arm h self (Some ps) name = Raise e →
     ∃ k v, (k, v) ∈ ps ∧
       (e = ValueError (does_not_exist k) ∧ k ∉ dict_keys params ∨
        e = ValueError (not_a_valid_value v k) ∧ v ≠ VNone ∧
        ∃ l, dict_get k params = Some l ∧
             validate (parameter_at h l) v = false)).
Proof.
  intros params. unfold construct_arm. fold params.
  destruct (construct_arm_validate h params ps) as [[]|e] eqn:Hval.
  - rewrite bind_Return. split; [|done]. split; [|by eauto].
    intros _. by apply construct_arm_validate_spec.
  - rewrite bind_Raise. split.
    + split; [by intros [? ?]|]. intros Hall.
      apply construct_arm_validate_spec in Hall. congruence.
    + intros e' [= <-]. by apply construct_arm_validate_error.
Qed.

(** X13. A parameterization that [check_membership] accepts can be made
    into an arm: [construct_arm] returns for it, and the arm has the values
    of the parameterization, under the keys in the order of the space. *)
Theorem member_construct_arm h self p name :
  let params := _parameters (search_space_at h self) in
  NoDup (dict_keys p) →
  check_membership h self p false = Return true →
  ∃ arm, construct_arm h self (Some p) name = Return arm ∧
         Arm_name arm = name ∧
         dict_keys (Arm_parameters arm) = dict_keys params ∧
         ∀ k, dict_get k (Arm_parameters arm) = dict_get k p.
Proof.
  intros params Hnodup Hmember.
  apply check_membership_true_items in Hmember as [Hlen Hall]. fold params in Hlen, Hall.
  assert (dict_keys p ≡ₚ dict_keys params) as Hperm.
  { apply keys_complete; [done..|]. by apply (valid_item_key h). }
  assert (NoDup (dict_keys params)) as Hparams by (by rewrite <-Hperm).
  unfold construct_arm. fold params.
  rewrite (proj2 (construct_arm_validate_spec h params p)).
  2:{ intros k v Hkv. rewrite Forall_forall in Hall.
      destruct (Hall _ Hkv) as (l & Hl & Hv). exists l. split; [done|by right]. }
  rewrite bind_Return. eexists. split; [done|]. cbn [Arm_parameters Arm_name].
  split; [done|]. split.
  - rewrite dict_update_keys.
    + rewrite final_parameters_NoDup by done. unfold dict_keys.
      rewrite <-list_fmap_compose. apply list_fmap_id.
    + intros k Hk. rewrite dict_comprehension_keys, list_fmap_id. by rewrite <-Hperm.
  - intros k. rewrite dict_update_get by done. rewrite final_parameters_get.
    destruct (dict_get k p) as [v|] eqn:Hk; [done|].
    rewrite decide_False; [done|]. rewrite <-Hperm. by apply dict_get_None.
Qed.
End ConstructArm.

Section CastArm.
Context {P : Type} `{!ParameterClass P, !ConstraintClass P, !Interpreter}.
Implicit Types (h : heap P) (self : loc).

(** The loop of [cast_arm] over items of distinct keys, none of them in
    the dictionary built so far: it appends the cast items, or raises what
    the first failing [cast] raises. *)
Lemma cast_arm_items_run h params items acc :
  NoDup (dict_keys acc ++ dict_keys items) →
  (∃ items', cast_arm_items h params items acc = Return (acc ++ items') ∧
             Forall2 (cast_item h params) items items') ∨
  (∃ e k v p, cast_arm_items h params items acc = Raise e ∧ (k, v) ∈ items ∧
              dict_get k params = Some p ∧ cast (parameter_at h p) v = Raise e).
Proof.
  revert acc. induction items as [|[k v] items IH]; intros acc Hnodup.
  { left. exists []. by rewrite app_nil_r. }
  cbn [cast_arm_items].
  assert (k ∉ dict_keys acc) as Hk.
  { apply NoDup_app in Hnodup as (_ & Hdisj & _). intros Hin.
    apply (Hdisj _ Hin). by left. }
  assert (∀ v', NoDup (dict_keys (dict_set k v' acc) ++ dict_keys items)) as Hnodup'.
  { intros v'. rewrite dict_set_notin by done. unfold dict_keys in *.
    rewrite fmap_app. cbn [fmap list_fmap fst]. rewrite <-app_assoc. exact Hnodup. }
  assert (∀ v', cast_item h params (k, v) (k, v') →
            (∃ items', cast_arm_items h params items (dict_set k v' acc) =
                         Return (acc ++ items') ∧
                       Forall2 (cast_item h params) ((k, v) :: items) items') ∨
            (∃ e k0 v0 p, cast_arm_items h params items (dict_set k v' acc) = Raise e ∧
                          (k0, v0) ∈ (k, v) :: items ∧
                          dict_get k0 params = Some p ∧
                          cast (parameter_at h p) v0 = Raise e)) as Hrest.
  { intros v' Hitem.
    destruct (IH (dict_set k v' acc) (Hnodup' v'))
      as [(items' & -> & Hall)|(e & k0 & v0 & p & -> & Hin & Hp & He)].
    - left. exists ((k, v') :: items'). rewrite dict_set_notin by done.
      rewrite <-app_assoc. split; [done|]. by constructor.
    - right. exists e, k0, v0, p. split_and!; [done|by right|done..]. }
  destruct (dict_get k params) as [p|] eqn:Hp.
  - destruct (cast (parameter_at h p) v) as [v'|e] eqn:Hcast.
    + rewrite bind_Return. apply Hrest. split; [done|]. simpl. by rewrite Hp.
    + rewrite bind_Raise. right. exists e, k, v, p. split_and!; [done|by left|done..].
  - apply Hrest. split; [done|]. simpl. by rewrite Hp.
Qed.

(** X14. [cast_arm] of the base class keeps the name of the arm, the keys
    and their order. A value under the name of a parameter is replaced by
    what the parameter's [cast] returns for it; a value under any other
    name is kept as it is. The method raises only what a [cast] of one of
    these values raises, and returns if none does: names that the space
    does not have never make it fail. *)
Theorem cast_arm_entries h self arm :
  let params := _parameters (search_space_at h self) in
  NoDup (dict_keys (Arm_parameters arm)) →
  (∀ arm', SearchSpace_cast_arm h self arm = Return arm' →
     Arm_name arm' = Arm_name arm ∧
     dict_keys (Arm_parameters arm') = dict_keys (Arm_parameters arm) ∧
     Forall2 (cast_item h params) (Arm_parameters arm) (Arm_parameters arm')) ∧
  (∀ e, SearchSpace_cast_arm h self arm = Raise e →
     ∃ k v p, (k, v) ∈ Arm_parameters arm ∧ dict_get k params = Some p ∧
              cast (parameter_at h p) v = Raise e) ∧
  ((∀ k v p, (k, v) ∈ Arm_parameters arm → dict_get k params = Some p →
             ∃ v', cast (parameter_at h p) v = Return v') →
   ∃ arm', SearchSpace_cast_arm h self arm = Return arm').
Proof.
  intros params Hnodup. unfold SearchSpace_cast_arm. fold params.
  destruct (cast_arm_items_run h params (Arm_parameters arm) [])
    as [(items' & -> & Hall)|(e & k & v & p & -> & Hin & Hp & He)]; [done|..].
  - rewrite bind_Return. split_and!; [|done|by eauto].
    intros arm' [= <-]. cbn [Arm_parameters Arm_name app]. split_and!.
    + unfold has_name. by case_bool_decide as Hname; [|destruct (Arm_name arm); [destruct Hname|]].
    + unfold dict_keys. clear -Hall.
      induction Hall as [|kv kv' ? ? [Hk _] _ IH]; [done|]. cbn [fmap list_fmap].
      by rewrite Hk, IH.
    + done.
  - rewrite bind_Raise. split_and!; [done| |].
    + intros e' [= <-]. by exists k, v, p.
    + intros Hcasts. destruct (Hcasts k v p Hin Hp) as [v' Hv']. congruence.
Qed.
End CastArm.

(** ** Constraints *)

Section Constraints.
Context {P : Type} `{!ParameterClass P, !ConstraintClass P, !Interpreter}.
Implicit Types (h : heap P) (self : loc).

(** The error of [_validate_parameter_constraints] and where it comes
    from. *)
Lemma validate_parameter_constraints_error h self cs e :
  let params := _parameters (search_space_at h self) in
  _validate_parameter_constraints h self cs = Raise e →
  ∃ c, c ∈ cs ∧
    ((∃ d b k, constraint_at h c = LinearConstraint d b ∧ k ∈ dict_keys d ∧
               (k ∉ dict_keys params) ∧ e = ValueError (does_not_exist k)) ∨
     (∃ p, p ∈ constraint_parameters (constraint_at h c) ∧
           ((name_of h p ∉ dict_keys params) ∧
            e = ValueError (does_not_exist (name_of h p)) ∨
            ∃ o, dict_get (name_of h p) params = Some o ∧
                 parameter_at h p ≠ parameter_at h o ∧
                 e = ValueError (definition_does_not_match (name_of h p))))).
Proof.
  intros params. unfold _validate_parameter_constraints. fold params.
  intros (c & Hc & Hbody)%for__Raise. exists c. split; [done|].
  assert (∀ ps, for_ ps (λ parameter,
      if negb (dict_contains (name_of h parameter) params)
      then Raise (ValueError (does_not_exist (name_of h parameter)))
      else
        own ← subscript params (name_of h parameter);
        if bool_decide (parameter_at h parameter ≠ parameter_at h own)
        then Raise (ValueError (definition_does_not_match (name_of h parameter)))
        else Return ()) = Raise e →
    ∃ p, p ∈ ps ∧
      ((name_of h p ∉ dict_keys params) ∧
       e = ValueError (does_not_exist (name_of h p)) ∨
       ∃ o, dict_get (name_of h p) params = Some o ∧
            parameter_at h p ≠ parameter_at h o ∧
            e = ValueError (definition_does_not_match (name_of h p)))) as Hstructural.
  { intros ps (p & Hp & Hx)%for__Raise. exists p. split; [done|].
    destruct (dict_contains (name_of h p) params) eqn:Hin; cbn [negb] in Hx.
    - destruct (dict_contains_subscript _ _ Hin) as (o & Ho & Hsub).
      rewrite Hsub, bind_Return in Hx. case_bool_decide as Hne; [|done].
      injection Hx as <-. right. by exists o.
    - injection Hx as <-. left. split; [|done]. by apply dict_contains_false. }
  destruct (constraint_at h c) as [l u|ps ub b|d b].
  - right. by apply Hstructural.
  - right. by apply Hstructural.
  - left. apply for__Raise in Hbody as (k & Hk & Hx).
    destruct (dict_contains k params) eqn:Hin; cbn [negb] in Hx; [done|].
    injection Hx as <-. exists d, b, k. split_and!; [done..| |done].
    by apply dict_contains_false.
Qed.

(** X15. [_validate_parameter_constraints] returns exactly when every name
    in the dictionary of a linear constraint is a parameter of the space,
    and every parameter that an order or sum constraint refers to has the
    name of a parameter of the space and equals that parameter; the
    definitions behind a linear constraint's names are not compared. Its
    error is a [ValueError] for a constraint of the list: for a name that
    the space does not have, or for a referenced parameter that differs
    from the space's parameter of its name. *)
Theorem validate_parameter_constraints_spec h self cs :
  let params := _parameters (search_space_at h self) in
  (_validate_parameter_constraints h self cs = Return () ↔
   constraints_valid h params cs) ∧
  (∀ e, _validate_parameter_constraints h self cs = Raise e →
     ∃ c, c ∈ cs ∧
       ((∃ d b k, constraint_at h c = LinearConstraint d b ∧ k ∈ dict_keys d ∧
                  (k ∉ dict_keys params) ∧ e = ValueError (does_not_exist k)) ∨
        (∃ p, p ∈ constraint_parameters (constraint_at h c) ∧
              ((name_of h p ∉ dict_keys params) ∧
               e = ValueError (does_not_exist (name_of h p)) ∨
               ∃ o, dict_get (name_of h p) params = Some o ∧
                    parameter_at h p ≠ parameter_at h o ∧
                    e = ValueError (definition_does_not_match (name_of h p)))))).
Proof.
  intros params. split.
  - apply validate_parameter_constraints_Return.
  - intros e. apply validate_parameter_constraints_error.
Qed.

(** The references of a rebound constraint, one by one. *)
Lemma rebound_parameters h self c :
  (∀ p, p ∈ constraint_parameters c →
        ∃ o, own h self p = Some o ∧ parameter_at h p = parameter_at h o) →
  Forall2 (λ p p', own h self p = Some p' ∧ parameter_at h p' = parameter_at h p)
    (constraint_parameters c) (constraint_parameters (rebound h self c)).
Proof.
  intros Hvalid.
  assert (∀ ps, (∀ p, p ∈ ps →
                   ∃ o, own h self p = Some o ∧ parameter_at h p = parameter_at h o) →
            Forall2 (λ p p', own h self p = Some p' ∧
                             parameter_at h p' = parameter_at h p)
              ps ((λ p, default p (own h self p)) <$> ps)) as Hlist.
  { induction ps as [|p ps IH]; intros Hps; [constructor|].
    cbn [fmap list_fmap]. constructor.
    - destruct (Hps p) as (o & Ho & Heq); [by left|]. rewrite Ho. simpl. done.
    - apply IH. intros q Hq. apply Hps. by right. }
  destruct c as [l u|ps ub b|d b]; cbn [rebound constraint_parameters].
  - apply (Hlist [l; u]). exact Hvalid.
  - apply Hlist. exact Hvalid.
  - constructor.
Qed.

Lemma constraints_valid_own h self cs c :
  constraints_valid h (_parameters (search_space_at h self)) cs → c ∈ cs →
  ∀ p, p ∈ constraint_parameters (constraint_at h c) →
       ∃ o, own h self p = Some o ∧ parameter_at h p = parameter_at h o.
Proof.
  intros Hvalid Hc p Hp. specialize (Hvalid c Hc).
  destruct (constraint_at h c); [by apply Hvalid..|]. by apply elem_of_nil in Hp.
Qed.

(** X16. After [set_parameter_constraints] has returned, every constraint
    of the list refers to parameter objects of the space itself: each
    reference has been replaced by the space's parameter of the same name,
    which equals the parameter referred to before. The parameters of the
    space and the constraints outside the list are as they were. *)
Theorem set_parameter_constraints_rebinds self cs h h' :
  keyed_by_name h (_parameters (search_space_at h self)) →
  set_parameter_constraints self cs h = (Return (), h') →
  _parameter_constraints (search_space_at h' self) = cs ∧
  _parameters (search_space_at h' self) = _parameters (search_space_at h self) ∧
  parameter_at h' = parameter_at h ∧
  (∀ c, c ∈ cs →
        refers_to_own h' self (constraint_at h' c) ∧
        constraint_at h' c = rebound h self (constraint_at h c) ∧
        Forall2 (λ p p', own h self p = Some p' ∧
                         parameter_at h p' = parameter_at h p)
          (constraint_parameters (constraint_at h c))
          (constraint_parameters (constraint_at h' c))) ∧
  (∀ c, c ∉ cs → constraint_at h' c = constraint_at h c).
Proof.
  intros Hkeyed Hrun.
  apply set_parameter_constraints_Return in Hrun as Hret. destruct Hret as [Hval Hcs].
  apply validate_parameter_constraints_Return in Hval.
  destruct (set_parameter_constraints_run self cs h Hkeyed Hval)
    as (h'' & Hrun' & Hp & _ & Hself & _ & Hin & Hout).
  assert (h'' = h') as -> by congruence.
  split_and!; [done|by rewrite Hself|done| |done].
  intros c Hc. destruct (Hin c Hc) as [Hrebound Hown].
  split_and!; [done..|]. rewrite Hrebound. apply rebound_parameters.
  by apply (constraints_valid_own h self cs).
Qed.

(** X17. Setting the same constraints a second time changes nothing: the
    second call returns, and every object is as the first call left it. *)
Theorem set_parameter_constraints_twice self cs h h' :
  keyed_by_name h (_parameters (search_space_at h self)) →
  set_parameter_constraints self cs h = (Return (), h') →
  ∃ h'', set_parameter_constraints self cs h' = (Return (), h'') ∧
         (∀ c, constraint_at h'' c = constraint_at h' c) ∧
         (∀ s, search_space_at h'' s = search_space_at h' s) ∧
         parameter_at h'' = parameter_at h' ∧ next_loc h'' = next_loc h'.
Proof.
  intros Hkeyed Hrun.
  apply set_parameter_constraints_Return in Hrun as Hret. destruct Hret as [Hval Hcs].
  apply validate_parameter_constraints_Return in Hval.
  destruct (set_parameter_constraints_run self cs h Hkeyed Hval)
    as (h1 & Hrun' & Hp & _ & Hself & _ & Hin & _).
  assert (h1 = h') as -> by congruence.
  assert (_parameters (search_space_at h' self) = _parameters (search_space_at h self))
    as Hparams by (by rewrite Hself).
  assert (keyed_by_name h' (_parameters (search_space_at h' self))) as Hkeyed'.
  { rewrite Hparams. intros k l Hkl. unfold name_of. rewrite Hp. by apply Hkeyed. }
  assert (constraints_valid h' (_parameters (search_space_at h' self)) cs) as Hval'.
  { intros c Hc. destruct (Hin c Hc) as [Hrebound Hown].
    destruct (constraint_at h' c) as [l u|ps ub b|d b] eqn:Hc'.
    - intros p Hp'. exists p. split; [|done]. by apply Hown.
    - intros p Hp'. exists p. split; [|done]. by apply Hown.
    - specialize (Hval c Hc). rewrite Hparams.
      destruct (constraint_at h c); simpl in Hrebound; [done..|].
      by injection Hrebound as <- <-. }
  destruct (set_parameter_constraints_run self cs h' Hkeyed' Hval')
    as (h'' & Hrun'' & Hp'' & Hn'' & Hself'' & Hother & Hin'' & Hout'').
  exists h''. split_and!; [done| | |done..].
  - intros c. destruct (decide (c ∈ cs)) as [Hc|Hc]; [|by apply Hout''].
    destruct (Hin'' c Hc) as [-> _]. apply rebound_id. by apply Hin.
  - intros s. destruct (decide (s = self)) as [->|Hne]; [|by apply Hother].
    rewrite Hself''. cbn zeta. rewrite <-Hcs. by destruct (search_space_at h' self).
Qed.

(** X18. [add_parameter_constraints] validates and then appends. When
    validation fails it raises that error and nothing has changed. When
    validation passes the list of the space is the former list followed by
    the new constraints, and no constraint object and no parameter has been
    touched: the new constraints keep the references they came with. *)
Theorem add_parameter_constraints_spec self cs h :
  (∀ e, _validate_parameter_constraints h self cs = Raise e →
        add_parameter_constraints self cs h = (Raise e, h)) ∧
  (_validate_parameter_constraints h self cs = Return () →
   ∃ h', add_parameter_constraints self cs h = (Return (), h') ∧
         _parameter_constraints (search_space_at h' self) =
           _parameter_constraints (search_space_at h self) ++ cs ∧
         _parameters (search_space_at h' self) =
           _parameters (search_space_at h self) ∧
         constraint_at h' = constraint_at h ∧
         parameter_at h' = parameter_at h) ∧
  (∀ e h', add_parameter_constraints self cs h = (Raise e, h') →
           h' = h ∧ _validate_parameter_constraints h self cs = Raise e).
Proof.
  rewrite add_parameter_constraints_run.
  destruct (_validate_parameter_constraints h self cs) as [[]|e] eqn:Hval.
  - split_and!; [done| |done]. intros _. eexists. split; [reflexivity|].
    simpl. by rewrite fn_lookup_insert.
  - split_and!; [by intros ? [= <-]|done|]. by intros e' h' [= <- <-].
Qed.
End Constraints.

(** ** Validation of the hierarchy: depth, cycles and degenerate nodes *)

Section Depth.
Context {P : Type} `{!ParameterClass P, !ConstraintClass P, !Interpreter}.
Implicit Types (h : heap P) (self : loc).

Lemma deeper_bind {A B} (o o' : outcome A) (f : A → outcome B) :
  deeper o o' → deeper (o ≫= f) (o' ≫= f).
Proof. intros [-> | ->]; [by left|by right]. Qed.

Lemma deeper_in_generator {A} (o o' : outcome A) :
  deeper o o' → deeper (in_generator o) (in_generator o').
Proof. intros [-> | ->]; [by left|by right]. Qed.

Lemma deeper_reduce {A B} (f : A → B → outcome A) gen gen' a :
  Forall2 deeper gen gen' → deeper (reduce f gen a) (reduce f gen' a).
Proof.
  intros Hgen. revert a. induction Hgen as [|o o' gen gen' Ho _ IH]; intros a.
  { by right. }
  cbn [reduce]. destruct Ho as [-> | ->]; [by left|].
  destruct o as [b|e]; [|by right]. rewrite !bind_Return.
  destruct (f a b) as [a'|e]; [|by right]. rewrite !bind_Return. apply IH.
Qed.

Lemma check_subtree_deeper depth depth' h self root :
  (depth ≤ depth')%nat →
  deeper (_check_subtree depth h self root) (_check_subtree depth' h self root).
Proof.
  revert depth' root. induction depth as [|depth IH]; intros depth' root Hle.
  { by left. }
  destruct depth' as [|depth']; [lia|]. rewrite !check_subtree_unfold.
  destruct (is_hierarchical (parameter_at h root)); cbn [negb]; [|by right].
  assert (Forall2 deeper
            ((λ param_name,
                in_generator (__getitem__ h self param_name
                                ≫= _check_subtree depth h self))
               <$> dependent_names (parameter_at h root))
            ((λ param_name,
                in_generator (__getitem__ h self param_name
                                ≫= _check_subtree depth' h self))
               <$> dependent_names (parameter_at h root))) as Hgen.
  { apply Forall2_fmap, Forall_Forall2_diag, Forall_forall. intros n _.
    apply deeper_in_generator.
    destruct (__getitem__ h self n) as [child|e]; [|by right].
    rewrite !bind_Return. apply IH. lia. }
  destruct Hgen as [|o o' gen gen' Ho Hgen]; [by right|].
  destruct Ho as [-> | ->]; [by left|].
  destruct o as [initial|e]; [|by right]. rewrite !bind_Return.
  by apply deeper_bind, deeper_reduce.
Qed.

(** X19. The depth that the interpreter allows matters to the validation
    of a subtree only through [RecursionError]: with more nested calls
    allowed, a validation that did not run out of depth has the same
    outcome, be it a set of names or an exception. *)
Theorem check_subtree_depth depth depth' h self root :
  (depth ≤ depth')%nat →
  _check_subtree depth h self root = Raise RecursionError ∨
  _check_subtree depth' h self root = _check_subtree depth h self root.
Proof. apply check_subtree_deeper. Qed.

Lemma check_subtree_more depth depth' h self root s :
  _check_subtree depth h self root = Return s → (depth ≤ depth')%nat →
  _check_subtree depth' h self root = Return s.
Proof.
  intros Hs Hle.
  destruct (check_subtree_deeper depth depth' h self root Hle) as [Hrec|Heq];
    congruence.
Qed.

Lemma subtree_of_more depth depth' h self n s :
  subtree_of depth h self n s → (depth ≤ depth')%nat → subtree_of depth' h self n s.
Proof.
  intros (child & Hchild & Hs) Hle. exists child. split; [done|].
  by apply (check_subtree_more depth).
Qed.

Lemma subtree_of_agree depth depth' h self n s s' :
  subtree_of depth h self n s → subtree_of depth' h self n s' → s = s'.
Proof.
  intros (child & Hchild & Hs) (child' & Hchild' & Hs').
  assert (child' = child) as -> by congruence.
  apply (check_subtree_more _ (depth `max` depth')) in Hs; [|lia].
  apply (check_subtree_more _ (depth `max` depth')) in Hs'; [|lia].
  congruence.
Qed.

(** X20. Validation does not end on a cycle. In a set of hierarchical
    parameters each of which lists as its first dependent the name of a
    parameter of the set, the validation of every member raises
    [RecursionError], whatever depth is allowed, and so does
    [_validate_hierarchical_structure] when the root is a member. *)
Theorem check_subtree_cycle (cycle : loc → Prop) h self :
  (∀ q, cycle q →
        is_hierarchical (parameter_at h q) = true ∧
        ∃ n rest child,
          dependent_names (parameter_at h q) = n :: rest ∧
          __getitem__ h self n = Return child ∧ cycle child) →
  (∀ depth q, cycle q → _check_subtree depth h self q = Raise RecursionError) ∧
  (∀ root all_parameter_names,
     _root (search_space_at h self) = Some root →
     _all_parameter_names (search_space_at h self) = Some all_parameter_names →
     cycle root →
     _validate_hierarchical_structure h self = Raise RecursionError).
Proof.
  intros Hcycle.
  assert (∀ depth q, cycle q → _check_subtree depth h self q = Raise RecursionError)
    as Hcheck.
  { induction depth as [|depth IH]; intros q Hq; [done|].
    destruct (Hcycle q Hq) as (Hhier & n & rest & child & Hnames & Hchild & Hin).
    rewrite check_subtree_unfold, Hhier, Hnames. cbn [negb]. rewrite fmap_cons.
    rewrite Hchild, bind_Return, (IH child Hin). done. }
  split; [exact Hcheck|]. intros root names Hroot Hnames Hin.
  unfold _validate_hierarchical_structure. rewrite Hroot, Hnames.
  by rewrite (Hcheck _ root Hin).
Qed.

(** X21. Degenerate nodes. A hierarchical parameter without dependents
    makes its own validation raise [StopIteration], the [next] of an empty
    generator, and makes the validation of a parameter that lists it raise
    [RuntimeError], which is what that [StopIteration] becomes when it
    leaves the generator of the parent. A dependent whose name is not a
    parameter of the space makes the validation raise the [ValueError] of
    [__getitem__]. In both cases the dependents listed before validate, to
    pairwise disjoint sets. *)
Theorem check_subtree_degenerate depth h self root :
  is_hierarchical (parameter_at h root) = true →
  (dependent_names (parameter_at h root) = [] →
   _check_subtree (S depth) h self root = Raise StopIteration) ∧
  (∀ names1 n names2 subtrees1,
     dependent_names (parameter_at h root) = names1 ++ n :: names2 →
     Forall2 (subtree_of depth h self) names1 subtrees1 →
     pairwise_disjoint subtrees1 →
     (n ∉ dict_keys (_parameters (search_space_at h self)) →
      _check_subtree (S depth) h self root =
        Raise (ValueError (not_part_of_the_search_space n))) ∧
     (∀ child depth',
        depth = S depth' →
        __getitem__ h self n = Return child →
        is_hierarchical (parameter_at h child) = true →
        dependent_names (parameter_at h child) = [] →
        _check_subtree (S depth) h self root = Raise RuntimeError)).
Proof.
  intros Hhier. split.
  { intros Hnames. by rewrite check_subtree_unfold, Hhier, Hnames. }
  intros names1 n names2 subtrees1 Hnames Hsubtrees Hdisjoint. split.
  - intros Hn.
    rewrite (check_subtree_Raise_child depth h self root names1 n names2 subtrees1
               (ValueError (not_part_of_the_search_space n))); [done..|].
    unfold __getitem__. apply dict_contains_false in Hn. by rewrite Hn.
  - intros child depth' -> Hchild Hhier' Hnames'.
    rewrite (check_subtree_Raise_child (S depth') h self root names1 n names2
               subtrees1 StopIteration); [done..|].
    rewrite Hchild, bind_Return. by rewrite check_subtree_unfold, Hhier', Hnames'.
Qed.
End Depth.

(** ** What a validated hierarchy is *)

Section Tree.
Context {P : Type} `{!ParameterClass P, !ConstraintClass P, !Interpreter}.
Implicit Types (h : heap P) (self : loc).

Lemma own_eq h self q r :
  own h self q = Some q → own h self r = Some r →
  name_of h q = name_of h r → q = r.
Proof. unfold own. intros Hq Hr Hname. rewrite Hname in Hq. congruence. Qed.

Lemma check_subtree_cases depth h self root s :
  _check_subtree depth h self root = Return s →
  ∃ depth', depth = S depth' ∧
    (is_hierarchical (parameter_at h root) = false ∧ s = {[ name_of h root ]} ∨
     is_hierarchical (parameter_at h root) = true ∧
     ∃ subtrees,
       Forall2 (subtree_of depth' h self) (dependent_names (parameter_at h root))
         subtrees ∧
       pairwise_disjoint subtrees ∧ s = {[ name_of h root ]} ∪ ⋃ subtrees).
Proof.
  destruct depth as [|depth']; [done|]. intros Hs. exists depth'. split; [done|].
  destruct (is_hierarchical (parameter_at h root)) eqn:Hhier.
  - right. split; [done|]. by apply check_subtree_Return_inv.
  - left. split; [done|]. rewrite check_subtree_unfold, Hhier in Hs.
    by injection Hs as <-.
Qed.

Lemma check_subtree_root_name depth h self root s :
  _check_subtree depth h self root = Return s → name_of h root ∈ s.
Proof.
  intros (depth' & _ & [[_ ->]|(_ & subtrees & _ & _ & ->)])%check_subtree_cases;
    set_solver.
Qed.

Lemma subtree_of_own depth h self n s :
  keyed_by_name h (_parameters (search_space_at h self)) →
  subtree_of depth h self n s →
  ∃ child, own h self child = Some child ∧ name_of h child = n ∧
           _check_subtree depth h self child = Return s ∧ n ∈ s.
Proof.
  intros Hkeyed (child & Hchild%getitem_Return & Hs). exists child.
  pose proof (Hkeyed _ _ Hchild) as Hname. unfold own. rewrite Hname.
  split_and!; [done..|]. rewrite <-Hname. by eapply check_subtree_root_name.
Qed.

Lemma elem_of_visited (x r : string) (subtrees : list (gset string)) :
  x ∈ ({[ r ]} ∪ ⋃ subtrees : gset string) ↔
  x = r ∨ ∃ k sk, subtrees !! k = Some sk ∧ x ∈ sk.
Proof.
  rewrite elem_of_union, elem_of_singleton, elem_of_union_list.
  split; (intros [?|Hx]; [by left|right]).
  - destruct Hx as (sk & [k Hk]%list_elem_of_lookup & Hx). by exists k, sk.
  - destruct Hx as (k & sk & Hk & Hx). exists sk. split; [|done].
    by eapply list_elem_of_lookup_2.
Qed.

Lemma pairwise_disjoint_same (sets : list (gset string)) k l sk sl x :
  pairwise_disjoint sets → sets !! k = Some sk → sets !! l = Some sl →
  x ∈ sk → x ∈ sl → k = l.
Proof.
  intros Hdisjoint Hk Hl Hxk Hxl.
  destruct (Nat.lt_trichotomy k l) as [Hlt|[Heq|Hlt]]; [|done|].
  - specialize (Hdisjoint k l sk sl Hlt Hk Hl). set_solver.
  - specialize (Hdisjoint l k sl sk Hlt Hl Hk). set_solver.
Qed.

(** Every name that a validation visits is the name of a parameter of the
    space whose own validation returns, with names among those visited. *)
Lemma visited_validated h self :
  keyed_by_name h (_parameters (search_space_at h self)) →
  ∀ depth root s,
    own h self root = Some root →
    _check_subtree depth h self root = Return s →
    ∀ x, x ∈ s →
      ∃ q sq, own h self q = Some q ∧ name_of h q = x ∧
              _check_subtree depth h self q = Return sq ∧ sq ⊆ s.
Proof.
  intros Hkeyed. induction depth as [|depth IH]; intros root s Hown Hs x Hx; [done|].
  apply check_subtree_cases in Hs as Hcases.
  destruct Hcases as (depth' & [= <-] & [[_ ->]|(Hhier & subtrees & Hsub & _ & ->)]).
  { apply elem_of_singleton in Hx as ->. by exists root, {[ name_of h root ]}. }
  apply elem_of_visited in Hx as [->|(k & sk & Hk & Hx)].
  { by exists root, ({[ name_of h root ]} ∪ ⋃ subtrees). }
  destruct (Forall2_lookup_r _ _ _ _ _ Hsub Hk) as (n & _ & Hn).
  destruct (subtree_of_own _ _ _ _ _ Hkeyed Hn) as (child & Hchild & _ & Hsk & _).
  destruct (IH child sk Hchild Hsk x Hx) as (q & sq & Hq & Hname & Hsq & Hsubset).
  exists q, sq. split_and!; [done..| |].
  - apply (check_subtree_more depth); [done|lia].
  - intros y Hy. apply elem_of_visited. right. exists k, sk. split; [done|].
    by apply Hsubset.
Qed.

(** A parameter whose validation returns is not visited in the subtree of
    any of its dependents. *)
Lemma not_in_own_subtree h self :
  keyed_by_name h (_parameters (search_space_at h self)) →
  ∀ depth root s,
    own h self root = Some root →
    _check_subtree depth h self root = Return s →
    ∀ i n depth' sn,
      lists_dependent h root i n → subtree_of depth' h self n sn →
      name_of h root ∉ sn.
Proof.
  intros Hkeyed.
  induction depth as [|depth IH]; intros root s Hown Hs i n depth' sn Hdep Hsn Hin;
    [done|].
  destruct Hdep as [Hhier Hi].
  apply check_subtree_Return_inv in Hs as (subtrees & Hsub & _ & _); [|done].
  destruct (Forall2_lookup_l _ _ _ _ _ Hsub Hi) as (sn' & _ & Hsn').
  assert (sn' = sn) as -> by (by eapply subtree_of_agree).
  destruct (subtree_of_own _ _ _ _ _ Hkeyed Hsn') as (child & Hchild & _ & Hcheck & _).
  destruct (visited_validated h self Hkeyed depth child sn Hchild Hcheck _ Hin)
    as (q & sq & Hq & Hname & Hsq & _).
  assert (q = root) as -> by (by apply (own_eq h self)).
  by apply (IH root sq Hown Hsq i n depth' sn).
Qed.

(** The names that a validation has visited form a tree under the
    parameter validated. *)
Lemma check_subtree_tree h self :
  keyed_by_name h (_parameters (search_space_at h self)) →
  ∀ depth root s,
    own h self root = Some root →
    _check_subtree depth h self root = Return s →
    (∀ q i n, own h self q = Some q → name_of h q ∈ s →
              lists_dependent h q i n → n ∈ s) ∧
    (∀ q1 q2 i j n,
        own h self q1 = Some q1 → own h self q2 = Some q2 →
        name_of h q1 ∈ s → name_of h q2 ∈ s →
        lists_dependent h q1 i n → lists_dependent h q2 j n →
        q1 = q2 ∧ i = j) ∧
    (∀ q i, own h self q = Some q → name_of h q ∈ s →
            ¬ lists_dependent h q i (name_of h root)) ∧
    (∀ x, x ∈ s →
          x = name_of h root ∨
          ∃ q i, own h self q = Some q ∧ name_of h q ∈ s ∧ lists_dependent h q i x).
Proof.
  intros Hkeyed. induction depth as [|depth IH]; intros root s Hown Hs; [done|].
  apply check_subtree_cases in Hs as Hcases.
  destruct Hcases
    as (depth' & [= <-] & [[Hleaf ->]|(Hhier & subtrees & Hsub & Hdisjoint & ->)]).
  { assert (∀ q, own h self q = Some q →
                 name_of h q ∈ ({[ name_of h root ]} : gset string) → q = root)
      as Hroot.
    { intros q Hq Hname%elem_of_singleton. by apply (own_eq h self). }
    split_and!.
    - intros q i n Hq Hname [Hhier _]. rewrite (Hroot q Hq Hname) in Hhier. congruence.
    - intros q1 q2 i j n Hq1 _ Hname _ [Hhier _] _.
      rewrite (Hroot q1 Hq1 Hname) in Hhier. congruence.
    - intros q i Hq Hname [Hhier _]. rewrite (Hroot q Hq Hname) in Hhier. congruence.
    - intros x Hx%elem_of_singleton. by left. }
  set (names := dependent_names (parameter_at h root)) in *.
  assert (∀ k nk, names !! k = Some nk →
            ∃ ck sk, subtrees !! k = Some sk ∧ own h self ck = Some ck ∧
                     name_of h ck = nk ∧
                     _check_subtree depth h self ck = Return sk ∧ nk ∈ sk)
    as Hchildren.
  { intros k nk Hk. destruct (Forall2_lookup_l _ _ _ _ _ Hsub Hk) as (sk & Hsk & Hnk).
    destruct (subtree_of_own _ _ _ _ _ Hkeyed Hnk) as (ck & ? & ? & ? & ?).
    by exists ck, sk. }
  assert (∀ k sk, subtrees !! k = Some sk →
            ∃ ck nk, names !! k = Some nk ∧ own h self ck = Some ck ∧
                     name_of h ck = nk ∧
                     _check_subtree depth h self ck = Return sk ∧ nk ∈ sk)
    as Hsets.
  { intros k sk Hk. destruct (Forall2_lookup_r _ _ _ _ _ Hsub Hk) as (nk & Hnk & _).
    destruct (Hchildren k nk Hnk) as (ck & sk' & Hsk' & ? & ? & ? & ?).
    assert (sk' = sk) as -> by congruence. by exists ck, nk. }
  assert (∀ k sk, subtrees !! k = Some sk → name_of h root ∉ sk) as Hnotin.
  { intros k sk Hk. destruct (Forall2_lookup_r _ _ _ _ _ Hsub Hk) as (nk & Hnk & Hsn).
    apply (not_in_own_subtree h self Hkeyed (S depth) root _ Hown Hs k nk depth sk);
      [by split|done]. }
  assert (∀ q, own h self q = Some q →
            name_of h q ∈ ({[ name_of h root ]} ∪ ⋃ subtrees : gset string) →
            q = root ∨ ∃ k sk, subtrees !! k = Some sk ∧ name_of h q ∈ sk)
    as Hwhere.
  { intros q Hq [Hname|?]%elem_of_visited; [left|by right].
    by apply (own_eq h self). }
  assert (∀ k sk y, subtrees !! k = Some sk → y ∈ sk →
            y ∈ ({[ name_of h root ]} ∪ ⋃ subtrees : gset string)) as Hsubset.
  { intros k sk y Hk Hy. apply elem_of_visited. right. by exists k, sk. }
  (* the dependents of a parameter visited in a subtree are in that subtree *)
  assert (∀ k sk q i n, subtrees !! k = Some sk → own h self q = Some q →
            name_of h q ∈ sk → lists_dependent h q i n → n ∈ sk) as Hclosed.
  { intros k sk q i n Hk Hq Hname Hdep.
    destruct (Hsets k sk Hk) as (ck & nk & _ & Hck & _ & Hcheck & _).
    destruct (IH ck sk Hck Hcheck) as (Hin & _). by apply (Hin q i n). }
  split_and!.
  - intros q i n Hq Hname Hdep.
    destruct (Hwhere q Hq Hname) as [->|(k & sk & Hk & Hqk)].
    + destruct Hdep as [_ Hi]. destruct (Hchildren i n Hi) as (_ & si & Hsi & _ & _ & _ & Hn).
      by apply (Hsubset i si).
    + apply (Hsubset k sk); [done|]. by apply (Hclosed k sk q i n).
  - intros q1 q2 i j n Hq1 Hq2 Hname1 Hname2 Hdep1 Hdep2.
    destruct (Hwhere q1 Hq1 Hname1) as [->|(k & sk & Hk & Hqk)];
      destruct (Hwhere q2 Hq2 Hname2) as [->|(l & sl & Hl & Hql)].
    + split; [done|]. destruct Hdep1 as [_ Hi]. destruct Hdep2 as [_ Hj].
      destruct (Hchildren i n Hi) as (_ & si & Hsi & _ & _ & _ & Hni).
      destruct (Hchildren j n Hj) as (_ & sj & Hsj & _ & _ & _ & Hnj).
      by apply (pairwise_disjoint_same subtrees i j si sj n).
    + exfalso. destruct Hdep1 as [_ Hi].
      destruct (Hchildren i n Hi) as (ci & si & Hsi & Hci & Hnamei & Hchecki & Hni).
      pose proof (Hclosed l sl q2 j n Hl Hq2 Hql Hdep2) as Hnl.
      assert (i = l) as -> by (by apply (pairwise_disjoint_same subtrees i l si sl n)).
      assert (sl = si) as -> by congruence.
      destruct (IH ci si Hci Hchecki) as (_ & _ & Hroot & _).
      apply (Hroot q2 j Hq2 Hql). by rewrite Hnamei.
    + exfalso. destruct Hdep2 as [_ Hj].
      destruct (Hchildren j n Hj) as (cj & sj & Hsj & Hcj & Hnamej & Hcheckj & Hnj).
      pose proof (Hclosed k sk q1 i n Hk Hq1 Hqk Hdep1) as Hnk.
      assert (j = k) as -> by (by apply (pairwise_disjoint_same subtrees j k sj sk n)).
      assert (sk = sj) as -> by congruence.
      destruct (IH cj sj Hcj Hcheckj) as (_ & _ & Hroot & _).
      apply (Hroot q1 i Hq1 Hqk). by rewrite Hnamej.
    + pose proof (Hclosed k sk q1 i n Hk Hq1 Hqk Hdep1) as Hnk.
      pose proof (Hclosed l sl q2 j n Hl Hq2 Hql Hdep2) as Hnl.
      assert (k = l) as -> by (by apply (pairwise_disjoint_same subtrees k l sk sl n)).
      assert (sl = sk) as -> by congruence.
      destruct (Hsets l sk Hk) as (cl & nl & _ & Hcl & _ & Hcheck & _).
      destruct (IH cl sk Hcl Hcheck) as (_ & Hunique & _).
      by apply (Hunique q1 q2 i j n).
  - intros q i Hq Hname Hdep.
    destruct (Hwhere q Hq Hname) as [->|(k & sk & Hk & Hqk)].
    + destruct Hdep as [_ Hi].
      destruct (Hchildren i _ Hi) as (_ & si & Hsi & _ & _ & _ & Hn).
      by apply (Hnotin i si).
    + apply (Hnotin k sk Hk). by apply (Hclosed k sk q i).
  - intros x [->|(k & sk & Hk & Hx)]%elem_of_visited; [by left|]. right.
    destruct (Hsets k sk Hk) as (ck & nk & Hnk & Hck & Hnamek & Hcheck & _).
    destruct (IH ck sk Hck Hcheck) as (_ & _ & _ & Hparent).
    destruct (Hparent x Hx) as [->|(q & i & Hq & Hqk & Hdep)].
    + exists root, k. split_and!; [done| |].
      * apply elem_of_visited. by left.
      * split; [done|]. by rewrite Hnamek.
    + exists q, i. split_and!; [done| |done]. by apply (Hsubset k sk).
Qed.
End Tree.

Section ValidatedHierarchy.
Context {P : Type} `{!ParameterClass P, !ConstraintClass P, !Interpreter}.
Implicit Types (h : heap P) (self : loc).

(** The facts about a hierarchical search space that construction has
    returned, in the form the statements below use them. *)
Lemma new_HierarchicalSearchSpace_validated parameters pcs h self h' :
  new_HierarchicalSearchSpace parameters pcs h = (Return self, h') →
  let names : gset string := list_to_set (name_of h <$> parameters) in
  keyed_by_name h' (_parameters (search_space_at h' self)) ∧
  name_of h' = name_of h ∧
  (∀ i n q, lists_dependent h' q i n ↔ lists_dependent h q i n) ∧
  (∀ q, q ∈ parameters ↔ own h' self q = Some q) ∧
  ∃ root, _root (search_space_at h' self) = Some root ∧ root ∈ parameters ∧
          _check_subtree recursion_limit h' self root = Return names.
Proof.
  intros Hrun names.
  apply new_HierarchicalSearchSpace_Return in Hrun
    as (_ & Hnodup & Hp & root & Hself & Hroot & Hcheck).
  fold names in Hself, Hcheck.
  assert (name_of h' = name_of h) as Hname by (unfold name_of; by rewrite Hp).
  assert (∀ q, q ∈ parameters ↔ own h' self q = Some q) as Hown.
  { intros q. unfold own. rewrite Hself, Hname. cbn [_parameters]. split.
    - intros Hq. apply dict_get_NoDup; [by rewrite parameters_dict_keys|].
      apply list_elem_of_fmap. by exists q.
    - intros Hq. apply dict_get_Some_elem, list_elem_of_fmap in Hq.
      by destruct Hq as (p & [= _ ->] & Hp'). }
  split_and!; [| done | | done |].
  - rewrite Hself. cbn [_parameters]. intros k l Hkl. rewrite Hname.
    by apply parameters_dict_keyed in Hkl.
  - intros i n q. unfold lists_dependent. by rewrite Hp.
  - exists root. rewrite Hself. split_and!; [done| |done].
    apply Hown. unfold own. by rewrite Hself, Hname.
Qed.

(** X22. A hierarchical search space that construction returns is a tree.
    Every name that a hierarchical parameter lists as a dependent is the
    name of a parameter of the space; no name is listed twice, neither by
    two parameters nor by one; the root is listed by none; and every other
    parameter is listed by some parameter. *)
Theorem HierarchicalSearchSpace_tree parameters pcs h self h' :
  new_HierarchicalSearchSpace parameters pcs h = (Return self, h') →
  ∃ root,
    _root (search_space_at h' self) = Some root ∧ root ∈ parameters ∧
    (∀ q i n, q ∈ parameters → lists_dependent h q i n →
              ∃ c, c ∈ parameters ∧ name_of h c = n) ∧
    (∀ q1 q2 i j n,
        q1 ∈ parameters → q2 ∈ parameters →
        lists_dependent h q1 i n → lists_dependent h q2 j n →
        q1 = q2 ∧ i = j) ∧
    (∀ q i, q ∈ parameters → ¬ lists_dependent h q i (name_of h root)) ∧
    (∀ c, c ∈ parameters → c ≠ root →
          ∃ q i, q ∈ parameters ∧ lists_dependent h q i (name_of h c)).
Proof.
  intros Hrun.
  apply new_HierarchicalSearchSpace_validated in Hrun
    as (Hkeyed & Hname & Hdep & Hown & root & Hroot & Hin & Hcheck).
  destruct (check_subtree_tree h' self Hkeyed recursion_limit root _
              (proj1 (Hown root) Hin) Hcheck)
    as (Hclosed & Hunique & Hnone & Hparent).
  assert (∀ q, q ∈ parameters →
            name_of h' q ∈ (list_to_set (name_of h <$> parameters) : gset string))
    as Hvisited.
  { intros q Hq. rewrite Hname. apply elem_of_list_to_set, list_elem_of_fmap.
    by exists q. }
  exists root. split_and!; [done..| | | |].
  - intros q i n Hq Hqn.
    assert (n ∈ (list_to_set (name_of h <$> parameters) : gset string)) as Hn.
    { apply (Hclosed q i n); [by apply Hown|by apply Hvisited|by apply Hdep]. }
    apply elem_of_list_to_set, list_elem_of_fmap in Hn as (c & -> & Hc). by exists c.
  - intros q1 q2 i j n Hq1 Hq2 Hdep1 Hdep2.
    apply (Hunique q1 q2 i j n);
      [by apply Hown|by apply Hown|by apply Hvisited|by apply Hvisited
      |by apply Hdep|by apply Hdep].
  - intros q i Hq Hqr. apply (Hnone q i); [by apply Hown|by apply Hvisited|].
    apply Hdep. by rewrite Hname.
  - intros c Hc Hne. destruct (Hparent (name_of h' c) (Hvisited c Hc))
      as [Heq|(q & i & Hq & _ & Hqc)].
    + destruct Hne. apply (own_eq h' self); [by apply Hown|by apply Hown|done].
    + exists q, i. split; [by apply Hown|]. apply Hdep. by rewrite <-Hname.
Qed.

Lemma depends_on_validated depth h self parent child s :
  _check_subtree depth h self parent = Return s →
  depends_on h self parent child →
  ∃ depth' s', depth = S depth' ∧ _check_subtree depth' h self child = Return s'.
Proof.
  intros Hs (i & n & [Hhier Hn] & Hchild).
  destruct depth as [|depth']; [done|].
  apply check_subtree_Return_inv in Hs as (subtrees & Hsub & _); [|done].
  destruct (Forall2_lookup_l _ _ _ _ _ Hsub Hn) as (sn & _ & child' & Hchild' & Hsn).
  assert (child' = child) as -> by congruence. by exists depth', sn.
Qed.

Lemma tc_depends_on_validated h self parent child :
  tc (depends_on h self) parent child →
  ∀ depth s, _check_subtree depth h self parent = Return s →
  ∃ depth' s', depth = S depth' ∧ _check_subtree depth' h self child = Return s'.
Proof.
  induction 1 as [parent child Hdep|parent child descendant Hdep _ IH];
    intros depth s Hs.
  - by apply (depends_on_validated depth h self parent child s).
  - destruct (depends_on_validated depth h self parent child s Hs Hdep)
      as (depth' & s' & -> & Hs').
    destruct (IH depth' s' Hs') as (depth'' & s'' & -> & Hs'').
    exists (S depth''), s''. split; [done|].
    apply (check_subtree_more depth''); [done|lia].
Qed.

Lemma validated_acyclic h self depth q s :
  _check_subtree depth h self q = Return s → ¬ tc (depends_on h self) q q.
Proof.
  revert q s. induction depth as [|depth IH]; intros q s Hs Hcycle; [done|].
  destruct (tc_depends_on_validated h self q q Hcycle (S depth) s Hs)
    as (depth' & s' & [= <-] & Hs').
  by apply (IH q s').
Qed.

(** X23. In a hierarchical search space that construction returns, the
    validation of every parameter returns, not of the root only, within the
    depth the interpreter allows; and no parameter depends on itself,
    through any chain of dependents. *)
Theorem HierarchicalSearchSpace_acyclic parameters pcs h self h' :
  new_HierarchicalSearchSpace parameters pcs h = (Return self, h') →
  ∀ q, q ∈ parameters →
       (∃ s, _check_subtree recursion_limit h' self q = Return s) ∧
       ¬ tc (depends_on h' self) q q.
Proof.
  intros Hrun q Hq.
  apply new_HierarchicalSearchSpace_validated in Hrun
    as (Hkeyed & Hname & _ & Hown & root & _ & Hin & Hcheck).
  destruct (visited_validated h' self Hkeyed recursion_limit root _
              (proj1 (Hown root) Hin) Hcheck (name_of h' q))
    as (q' & s & Hq' & Hnames & Hs & _).
  { rewrite Hname. apply elem_of_list_to_set, list_elem_of_fmap. by exists q. }
  assert (q' = q) as ->.
  { apply (own_eq h' self); [done|by apply Hown|done]. }
  split; [by exists s|]. by apply (validated_acyclic h' self recursion_limit q s).
Qed.
End ValidatedHierarchy.

Section Flat.
Context {P : Type} `{!ParameterClass P, !ConstraintClass P, !Interpreter}.
Implicit Types (h : heap P) (self : loc).

Lemma dependent_parameter_names_flat h parameters :
  (∀ p, p ∈ parameters → is_hierarchical (parameter_at h p) = false) →
  dependent_parameter_names h parameters = ∅.
Proof.
  intros Hflat. apply set_eq. intros x. rewrite dependent_parameter_names_elem.
  split; [|by intros ?%not_elem_of_empty].
  intros (p & Hp & Hhier & _). rewrite (Hflat p Hp) in Hhier. done.
Qed.

(** X24. Without a hierarchical parameter there is no hierarchy to build
    but that of a single parameter. For parameters of distinct names none
    of which is hierarchical, and constraints that pass validation,
    construction of a [HierarchicalSearchSpace] returns when the list has
    exactly one parameter, which is then the root, and raises the
    [NotImplementedError] of [_find_root] otherwise: for the empty list, for
    which there is no candidate, and for two parameters or more, which are
    all candidates. *)
Theorem HierarchicalSearchSpace_flat parameters pcs h :
  let names : gset string := list_to_set (name_of h <$> parameters) in
  recursion_limit ≠ 0 →
  (∀ p, p ∈ parameters → is_hierarchical (parameter_at h p) = false) →
  NoDup (name_of h <$> parameters) →
  constraints_valid h (parameters_dict h parameters) (default [] pcs) →
  (∀ p, parameters = [p] →
     ∃ h', new_HierarchicalSearchSpace parameters pcs h = (Return (next_loc h), h') ∧
           _root (search_space_at h' (next_loc h)) = Some p) ∧
  (length parameters ≠ 1 →
     (new_HierarchicalSearchSpace parameters pcs h).1 =
       Raise (NotImplementedError
                (could_not_find_root ∅ (length parameters) names))).
Proof.
  intros names Hlimit Hflat Hnodup Hvalid.
  destruct (new_HierarchicalSearchSpace_cases parameters pcs h)
    as [(e & h' & _ & _ & Hnot)|(_ & _ & h2 & Hp & Hself & ->)].
  { by destruct Hnot. }
  fold names in Hself. set (self := next_loc h) in *.
  destruct (find_root_spec h2 self names) as (Hnone & Hone & _).
  { by rewrite Hself. }
  rewrite Hself in Hnone, Hone. cbn [_parameters] in Hnone, Hone.
  rewrite parameters_dict_values in Hnone, Hone.
  rewrite (dependent_parameter_names_ext h h2) in Hnone, Hone by done.
  rewrite dependent_parameter_names_flat in Hnone, Hone by done.
  rewrite difference_empty_L in Hnone, Hone.
  assert (size names = length parameters) as Hsize.
  { unfold names. rewrite size_list_to_set by done. by rewrite length_fmap. }
  split.
  - intros p ->. rewrite (Hone (name_of h p)).
    2:{ unfold names. cbn [fmap list_fmap list_to_set]. by rewrite union_empty_r_L. }
    cbn [parameters_dict fmap list_fmap]. unfold subscript. cbn [dict_get].
    rewrite decide_True by done. cbn zeta.
    set (h3 := (set__root self p h2).2).
    assert (search_space_at h3 self =
            mkSearchSpace HierarchicalSearchSpaceClass (parameters_dict h [p])
              (default [] pcs) (Some names) (Some p)) as Hself3.
    { simpl. by rewrite fn_lookup_insert, Hself. }
    assert (_validate_hierarchical_structure h3 self = Return ()) as ->.
    { unfold _validate_hierarchical_structure. rewrite Hself3.
      cbn [_root _all_parameter_names].
      destruct recursion_limit as [|depth]; [done|].
      rewrite check_subtree_unfold.
      assert (parameter_at h3 = parameter_at h) as Hp3 by (simpl; exact Hp).
      unfold name_of. rewrite Hp3, (Hflat p) by (by left). cbn [negb].
      rewrite bind_Return. rewrite bool_decide_eq_false_2; [done|].
      intros Hne. apply Hne. apply size_empty_iff.
      unfold names. cbn [fmap list_fmap list_to_set]. unfold name_of. set_solver. }
    exists h3. split; [done|]. by rewrite Hself3.
  - intros Hlen. rewrite Hnone by lia. cbn [fst]. do 3 f_equal.
    unfold parameters_dict. by rewrite length_fmap.
Qed.
End Flat.

(** ** Construction and [clone]: whose objects a search space holds *)

Section Objects.
Context {P : Type} `{!ParameterClass P, !ConstraintClass P, !Interpreter}.
Implicit Types (h : heap P) (self : loc).

(** What [SearchSpace.__init__] has done when it returns. *)
Lemma SearchSpace__init___Return self parameters pcs h h' :
  SearchSpace__init__ self parameters pcs h = (Return (), h') →
  NoDup (name_of h <$> parameters) ∧
  parameter_at h' = parameter_at h ∧ next_loc h' = next_loc h ∧
  search_space_at h' self =
    (let s := search_space_at h self in
     mkSearchSpace (__class__ s) (parameters_dict h parameters)
       (default [] pcs) (_all_parameter_names s) (_root s)) ∧
  (∀ s, s ≠ self → search_space_at h' s = search_space_at h s) ∧
  (∀ c, c ∈ default [] pcs → refers_to_own h' self (constraint_at h' c)) ∧
  (∀ c, c ∉ default [] pcs → constraint_at h' c = constraint_at h c).
Proof.
  intros Hrun.
  assert (NoDup (name_of h <$> parameters) ∧
          constraints_valid h (parameters_dict h parameters) (default [] pcs))
    as [Hnames Hvalid].
  { rewrite SearchSpace__init___unfold in Hrun. case_decide; [|done].
    split; [done|].
    apply set_parameter_constraints_Return in Hrun as [Hval _].
    apply validate_parameter_constraints_Return in Hval.
    by rewrite set__parameters_lookup in Hval. }
  destruct (SearchSpace__init___run self parameters pcs h Hnames Hvalid)
    as (h'' & Hrun' & Hfacts).
  assert (h'' = h') as -> by congruence. by split.
Qed.

Lemma refers_to_own_elem h self parameters c p :
  _parameters (search_space_at h self) = parameters_dict h parameters →
  refers_to_own h self c → p ∈ constraint_parameters c → p ∈ parameters.
Proof.
  intros Hparams Hown Hp. specialize (Hown p Hp). unfold own in Hown.
  rewrite Hparams in Hown.
  apply dict_get_Some_elem, list_elem_of_fmap in Hown.
  by destruct Hown as (q & [= _ ->] & Hq).
Qed.

(** X25. In a search space that construction returns, of the base class or
    hierarchical, the list of constraints is the list given, and every
    parameter that one of these constraints refers to is one of the
    parameter objects given: the constructor has replaced the references of
    the constraint objects it was handed. The parameter objects and all
    other constraint objects are as they were. *)
Theorem construction_rebinds parameters pcs h self h' :
  new_SearchSpace parameters pcs h = (Return self, h') ∨
  new_HierarchicalSearchSpace parameters pcs h = (Return self, h') →
  _parameter_constraints (search_space_at h' self) = default [] pcs ∧
  (∀ c p, c ∈ default [] pcs → p ∈ constraint_parameters (constraint_at h' c) →
          p ∈ parameters ∧
          dict_get (name_of h' p) (_parameters (search_space_at h' self)) = Some p) ∧
  (∀ c, c ∉ default [] pcs → constraint_at h' c = constraint_at h c) ∧
  parameter_at h' = parameter_at h.
Proof.
  intros Hrun.
  assert (∃ cls all root,
            search_space_at h' self =
              mkSearchSpace cls (parameters_dict h parameters) (default [] pcs)
                all root ∧
            parameter_at h' = parameter_at h ∧
            (∀ c, c ∈ default [] pcs → refers_to_own h' self (constraint_at h' c)) ∧
            (∀ c, c ∉ default [] pcs → constraint_at h' c = constraint_at h c))
    as (cls & all & root & Hself & Hp & Hin & Hout).
  { destruct Hrun as [Hrun|Hrun].
    - rewrite new_SearchSpace_unfold in Hrun.
      destruct (SearchSpace__init__ _ _ _ _) as [[[]|e] h1] eqn:Hinit; [|done].
      injection Hrun as <- <-.
      apply SearchSpace__init___Return in Hinit
        as (_ & Hp & _ & Hself & _ & Hin & Hout).
      eexists _, _, _. split_and!; [exact Hself|done..].
    - rewrite new_HierarchicalSearchSpace_unfold in Hrun. cbn zeta in Hrun.
      destruct (SearchSpace__init__ _ _ _ _) as [[[]|e] h1] eqn:Hinit; [|done].
      destruct (_find_root _ _) as [root|e]; [|done].
      destruct (_validate_hierarchical_structure _ _) as [[]|e]; [|done].
      injection Hrun as <- <-.
      apply SearchSpace__init___Return in Hinit
        as (_ & Hp & _ & Hself & _ & Hin & Hout).
      eexists _, _, _. split_and!.
      + simpl. rewrite !fn_lookup_insert. cbn. rewrite Hself. reflexivity.
      + exact Hp.
      + intros c Hc p Hp'. specialize (Hin c Hc p Hp'). unfold own, name_of in *.
        simpl. rewrite !fn_lookup_insert. cbn. exact Hin.
      + exact Hout. }
  rewrite Hself. cbn [_parameter_constraints _parameters].
  split_and!; [done| |done..].
  intros c p Hc Hp'. split.
  - apply (refers_to_own_elem h' self parameters (constraint_at h' c));
      [|by apply Hin|done].
    rewrite Hself. cbn [_parameters]. unfold parameters_dict, name_of.
    by rewrite Hp.
  - specialize (Hin c Hc p Hp'). unfold own in Hin. by rewrite Hself in Hin.
Qed.

(** [ParameterConstraint.clone] allocates the copy. *)
Lemma clone_constraint_fresh pc h c' h' :
  clone_constraint pc h = (Return c', h') →
  (next_loc h ≤ c')%nat ∧ (next_loc h ≤ next_loc h')%nat.
Proof.
  unfold clone_constraint. rewrite M_bind_run. unfold get_heap. cbn beta iota.
  destruct (constraint_at h pc) as [l u|ps ub b|d b].
  - intros [= <- <-]. simpl. lia.
  - destruct (new_parameters_run (λ p, clone (parameter_at h p)) ps h)
      as (h1 & Hrun & _ & Hnext & _).
    rewrite M_bind_run, Hrun. cbn [new_constraint]. intros [= <- <-]. simpl. lia.
  - intros [= <- <-]. simpl. lia.
Qed.

Lemma clone_constraint_below pc h c' h' :
  clone_constraint pc h = (Return c', h') → below h h'.
Proof.
  intros Hrun. destruct (clone_constraint_run pc h) as (c'' & h'' & Hrun' & Hbelow & _).
  congruence.
Qed.

Lemma clone_constraints_fresh cs h cs' h' :
  mapM clone_constraint cs h = (Return cs', h') →
  below h h' ∧ length cs' = length cs ∧ ∀ c', c' ∈ cs' → (next_loc h ≤ c')%nat.
Proof.
  revert h cs'. induction cs as [|pc cs IH]; intros h cs'.
  { intros [= <- <-]. split_and!; [done..|]. by intros c' ?%elem_of_nil. }
  cbn [mapM]. rewrite M_bind_run.
  destruct (clone_constraint pc h) as [[c1|e] h1] eqn:Hrun1; [|done].
  rewrite M_bind_run. fold (mapM (M:=M P) clone_constraint cs).
  destruct (mapM (M:=M P) clone_constraint cs h1) as [[cs1|e] h2] eqn:Hrun; [|done].
  intros [= <- <-]. apply clone_constraint_below in Hrun1 as Hbelow1.
  apply clone_constraint_fresh in Hrun1 as [Hc1 Hnext].
  destruct (IH h1 cs1 Hrun) as (Hbelow & Hlen & Hfresh).
  split_and!; [by eapply below_trans|simpl; by rewrite Hlen|].
  intros c' [->|Hc']%elem_of_cons; [done|]. specialize (Hfresh c' Hc'). lia.
Qed.

(** X26. [clone] gives the copy objects of its own. When it returns, every
    object allocated before the call is as it was, the original space among
    them. The new space holds, in the order of the original, a new
    parameter object for each parameter, whose state is the [clone] of the
    original's; it has as many constraints as the original, all of them
    new objects; and the parameters that these refer to are parameters of
    the new space itself. *)
Theorem clone_objects self h s' h' :
  SearchSpace_clone self h = (Return s', h') →
  let s := search_space_at h self in
  let n := next_loc h in
  (n ≤ s')%nat ∧
  (∀ l, l < n →
        parameter_at h' l = parameter_at h l ∧
        constraint_at h' l = constraint_at h l ∧
        search_space_at h' l = search_space_at h l) ∧
  well_formed h' s' ∧
  Forall2 (λ p p', (n ≤ p')%nat ∧ parameter_at h' p' = clone (parameter_at h p))
    (dict_values (_parameters s))
    (dict_values (_parameters (search_space_at h' s'))) ∧
  length (_parameter_constraints (search_space_at h' s')) =
    length (_parameter_constraints s) ∧
  (∀ c', c' ∈ _parameter_constraints (search_space_at h' s') →
         (n ≤ c')%nat ∧
         ∀ p', p' ∈ constraint_parameters (constraint_at h' c') →
               (n ≤ p')%nat ∧
               dict_get (name_of h' p') (_parameters (search_space_at h' s')) =
                 Some p').
Proof.
  intros Hrun s n. unfold SearchSpace_clone in Hrun. rewrite M_bind_run in Hrun.
  unfold get_heap in Hrun. cbn beta iota zeta in Hrun. fold s in Hrun.
  destruct (new_parameters_run (λ p, clone (parameter_at h p))
              (dict_values (_parameters s)) h)
    as (h1 & Hrun1 & Hbelow1 & Hnext1 & Hcs1 & Hps1).
  rewrite M_bind_run, Hrun1, M_bind_run in Hrun.
  destruct (mapM (M:=M P) clone_constraint (_parameter_constraints s) h1)
    as [[cs'|e] h2] eqn:Hrun2; [|done].
  fold n in Hrun1, Hnext1, Hps1, Hrun.
  set (ls := seq n (length (dict_values (_parameters s)))) in *.
  apply clone_constraints_fresh in Hrun2 as (Hbelow2 & Hlen & Hfresh).
  pose proof (below_trans _ _ _ Hbelow1 Hbelow2) as (Hn2 & Hs2 & Hl2).
  fold n in Hn2, Hl2.
  rewrite new_SearchSpace_unfold in Hrun.
  set (h0 := (new_search_space (P:=P) SearchSpaceClass h2).2) in *.
  destruct (SearchSpace__init__ (next_loc h2) ls (Some cs') h0)
    as [[[]|e] h3] eqn:Hinit; [|done].
  injection Hrun as <- <-.
  apply SearchSpace__init___Return in Hinit
    as (Hnodup & Hp & _ & Hself & Hother & Hin & Hout).
  cbn [default] in Hin, Hout.
  assert (parameter_at h3 = parameter_at h2) as Hp2 by exact Hp.
  assert (name_of h3 = name_of h0) as Hname by (unfold name_of; by rewrite Hp).
  assert (_parameters (search_space_at h3 (next_loc h2)) = parameters_dict h0 ls)
    as Hparams by (by rewrite Hself).
  assert (∀ c', c' ∈ cs' → (n ≤ c')%nat) as Hfresh'.
  { intros c' Hc'. specialize (Hfresh c' Hc'). destruct Hbelow1 as (? & _). lia. }
  split_and!.
  - done.
  - intros l Hl. destruct (Hl2 l Hl) as [Hpl Hcl]. split_and!.
    + by rewrite Hp2.
    + rewrite Hout; [exact Hcl|]. intros Hc'%Hfresh'. lia.
    + rewrite Hother by lia. simpl. rewrite fn_lookup_insert_ne by lia.
      by rewrite Hs2.
  - unfold well_formed. rewrite Hparams, parameters_dict_keys. split; [done|].
    intros k l Hkl. rewrite Hname. by apply parameters_dict_keyed in Hkl.
  - rewrite Hparams, parameters_dict_values.
    apply Forall2_same_length_lookup. split; [unfold ls; by rewrite length_seq|].
    intros i p p' Hi Hi'. apply lookup_seq in Hi' as [-> Hlt]. split; [lia|].
    rewrite Hp2. destruct Hbelow2 as (_ & _ & Hl). destruct (Hl (n + i)) as [-> _].
    + lia.
    + by apply Hps1.
  - rewrite Hself. cbn [_parameter_constraints default]. exact Hlen.
  - rewrite Hself. cbn [_parameter_constraints default]. intros c' Hc'.
    split; [by apply Hfresh'|]. intros p' Hp'.
    pose proof (Hin c' Hc') as Hown. split.
    + assert (p' ∈ ls) as Hls.
      { apply (refers_to_own_elem h3 (next_loc h2) ls (constraint_at h3 c'));
          [|done..].
        rewrite Hparams. unfold parameters_dict. by rewrite Hname. }
      apply elem_of_seq in Hls. lia.
    + specialize (Hown p' Hp'). unfold own in Hown. by rewrite Hself in Hown.
Qed.
End Objects.

Section FirstConflict.
Context {P : Type} `{!ParameterClass P, !ConstraintClass P, !Interpreter}.
Implicit Types (h : heap P) (self : loc).

(** X27. The error about shared names is raised at the first dependent
    whose subtree shares a name with the subtrees before it, and names
    exactly the names it shares with them. The dependents listed after it
    are not looked at: whatever they are, the outcome is this error. *)
Theorem check_subtree_first_conflict depth h self root names1 n names2
    subtrees1 sn :
  is_hierarchical (parameter_at h root) = true →
  dependent_names (parameter_at h root) = names1 ++ n :: names2 →
  Forall2 (subtree_of depth h self) names1 subtrees1 →
  pairwise_disjoint subtrees1 →
  subtree_of depth h self n sn →
  ¬ ⋃ subtrees1 ## sn →
  _check_subtree (S depth) h self root =
    Raise (UserInputError
             (subtrees_contain_the_same_parameters (⋃ subtrees1 ∩ sn))).
Proof.
  intros Hhier Hnames Hsubtrees Hdisjoint Hsn Hshared.
  rewrite check_subtree_unfold, Hhier. cbn [negb]. rewrite Hnames.
  rewrite fmap_app, fmap_cons.
  apply generator_Return in Hsubtrees. rewrite Hsubtrees.
  apply subtree_of_generator in Hsn. rewrite Hsn.
  destruct subtrees1 as [|s0 sets].
  { destruct Hshared. set_solver. }
  rewrite fmap_cons. cbn [app]. rewrite bind_Return, reduce_app_Return.
  destruct (reduce_disjoint_union_first s0 sets)
    as [[_ ->]|(shared & _ & Hne & Hby)].
  - rewrite bind_Return, reduce_cons_Return. unfold _disjoint_union.
    rewrite bool_decide_eq_false_2 by done. done.
  - apply set_choose_L in Hne as [x Hx].
    by apply Hby, shared_by_not_disjoint in Hx.
Qed.
End FirstConflict.

(** ** [range_parameters] and [tunable_parameters] *)

Section Views.
Context {P : Type} `{!ParameterClass P, !ParameterKinds P}.
Implicit Types (h : heap P) (self : loc).

Lemma dict_comprehension_items {V} (d : dict V) :
  NoDup (dict_keys d) → dict_comprehension fst snd d = d.
Proof.
  intros Hnodup. rewrite dict_comprehension_NoDup by done.
  rewrite <-(list_fmap_id d) at 2. apply list_fmap_ext. by intros _ [k v] _.
Qed.

Lemma dict_keys_filter_NoDup {V} (f : string * V → Prop) `{!∀ x, Decision (f x)}
    (d : dict V) :
  NoDup (dict_keys d) → NoDup (dict_keys (filter f d)).
Proof.
  intros Hnodup. eapply sublist_NoDup; [exact Hnodup|].
  unfold dict_keys. apply fmap_sublist, sublist_filter.
Qed.

Lemma dict_get_filter {V} (f : string * V → Prop) `{!∀ x, Decision (f x)}
    (d : dict V) k v :
  NoDup (dict_keys d) →
  dict_get k (filter f d) = Some v ↔ dict_get k d = Some v ∧ f (k, v).
Proof.
  intros Hnodup. split.
  - intros Hget%dict_get_Some_elem. apply list_elem_of_filter in Hget as [Hf Hin].
    split; [|done]. by apply dict_get_NoDup.
  - intros [Hget%dict_get_Some_elem Hf].
    apply dict_get_NoDup; [by apply dict_keys_filter_NoDup|].
    by apply list_elem_of_filter.
Qed.

(** X28. [range_parameters] and [tunable_parameters] are the entries of the
    dictionary of parameters whose parameter is a [RangeParameter], and is
    not a [FixedParameter], in the order they have there and with the same
    parameter objects. If no [RangeParameter] is a [FixedParameter], the
    range parameters are among the tunable ones. *)
Theorem views_of_parameters h self :
  let params := _parameters (search_space_at h self) in
  NoDup (dict_keys params) →
  (∀ k p, dict_get k (range_parameters h self) = Some p ↔
          dict_get k params = Some p ∧
          isinstance_RangeParameter (parameter_at h p) = true) ∧
  (∀ k p, dict_get k (tunable_parameters h self) = Some p ↔
          dict_get k params = Some p ∧
          isinstance_FixedParameter (parameter_at h p) = false) ∧
  range_parameters h self `sublist_of` params ∧
  tunable_parameters h self `sublist_of` params ∧
  ((∀ p, isinstance_RangeParameter p = true → isinstance_FixedParameter p = false) →
   range_parameters h self `sublist_of` tunable_parameters h self).
Proof.
  intros params Hnodup. unfold range_parameters, tunable_parameters. fold params.
  rewrite !dict_comprehension_items by (by apply dict_keys_filter_NoDup).
  split_and!.
  - intros k p.
    exact (dict_get_filter
             (λ item, isinstance_RangeParameter (parameter_at h item.2) = true)
             params k p Hnodup).
  - intros k p.
    exact (dict_get_filter
             (λ item, isinstance_FixedParameter (parameter_at h item.2) = false)
             params k p Hnodup).
  - apply sublist_filter.
  - apply sublist_filter.
  - intros Hkinds. clear Hnodup. induction params as [|[k p] params IH]; [done|].
    rewrite !filter_cons. cbn [snd].
    destruct (decide (isinstance_RangeParameter (parameter_at h p) = true)) as [Hr|Hr].
    + rewrite decide_True by (by apply Hkinds). by apply sublist_skip.
    + destruct (decide (isinstance_FixedParameter (parameter_at h p) = false));
        [by apply sublist_cons|done].
Qed.
End Views.

(** ** Order of the keys, and arms made of arms *)

Section RoundTrip.
Context {P : Type} `{!ParameterClass P, !ConstraintClass P, !Interpreter}.
Implicit Types (h : heap P) (self : loc).

(** Two dictionaries of the same distinct keys, in the same order, that
    agree on every lookup are the same. *)
Lemma dict_eq {V} (d d' : dict V) :
  dict_keys d = dict_keys d' → NoDup (dict_keys d) →
  (∀ k, k ∈ dict_keys d → dict_get k d = dict_get k d') → d = d'.
Proof.
  revert d'. induction d as [|[k v] d IH]; intros [|[k' v'] d']; try done.
  cbn [dict_keys fmap list_fmap fst]. intros [= <- Hkeys] [Hk Hnodup]%NoDup_cons Hget.
  pose proof (Hget k) as Hkv. cbn [dict_get] in Hkv.
  rewrite !decide_True in Hkv by done. injection Hkv as <-; [|by left].
  f_equal. apply IH; [done..|]. intros k' Hk'. specialize (Hget k').
  cbn [dict_get] in Hget. rewrite !decide_False in Hget by (by intros ->).
  apply Hget. by right.
Qed.

(** X29. Without [raise_error], what [check_types] returns does not depend
    on the order in which the parameterization lists its items. *)
Theorem check_types_order h self p p' allow_none :
  p ≡ₚ p' →
  check_types h self p allow_none false = check_types h self p' allow_none false.
Proof.
  intros Hperm.
  assert (∀ q, check_types h self q allow_none false = Return true ∨
               check_types h self q allow_none false = Return false) as Hbool.
  { intros q. unfold check_types. case_bool_decide; [by right|].
    destruct (check_types_items_both h (_parameters (search_space_at h self))
                allow_none q)
      as [(_ & -> & _)|(_ & -> & _)]; rewrite bind_Return; cbn [default];
      [by left|by right]. }
  assert (check_types h self p allow_none false = Return true ↔
          check_types h self p' allow_none false = Return true) as Hiff.
  { rewrite !check_types_true_items. by rewrite Hperm. }
  destruct (Hbool p) as [Hp|Hp], (Hbool p') as [Hp'|Hp']; try congruence.
  - apply Hiff in Hp. congruence.
  - apply Hiff in Hp'. congruence.
Qed.

(** X30. An arm made of an arm is the arm: the parameterization that
    [construct_arm] returns is accepted by [construct_arm] as overrides,
    and the arm it then returns has the same parameterization. *)
Theorem construct_arm_again h self ps name arm :
  let params := _parameters (search_space_at h self) in
  NoDup (dict_keys params) → NoDup (dict_keys ps) →
  construct_arm h self (Some ps) name = Return arm →
  construct_arm h self (Some (Arm_parameters arm)) name = Return arm.
Proof.
  intros params Hparams Hnodup Hrun. pose proof Hrun as Hrun'.
  unfold construct_arm in Hrun'. fold params in Hrun'.
  destruct (construct_arm_validate h params ps) as [[]|e] eqn:Hval; [|done].
  rewrite bind_Return in Hrun'. injection Hrun' as <-. cbn [Arm_parameters].
  pose proof (proj1 (construct_arm_validate_spec h params ps) Hval) as Hvalid.
  set (final := dict_comprehension id (λ _ : string, VNone) (dict_keys params)) in *.
  set (a := dict_update final ps).
  assert (dict_keys final = dict_keys params) as Hfinal.
  { unfold final. rewrite final_parameters_NoDup by done. unfold dict_keys.
    rewrite <-list_fmap_compose. apply list_fmap_id. }
  assert (dict_keys a = dict_keys params) as Hkeys.
  { unfold a. rewrite dict_update_keys; [done|]. intros k Hk. rewrite Hfinal.
    by apply (construct_arm_validate_Return h params ps). }
  assert (∀ k, dict_get k a =
               match dict_get k ps with Some v => Some v | None => dict_get k final end)
    as Hget.
  { intros k. unfold a. by rewrite dict_update_get. }
  unfold construct_arm. fold params final.
  rewrite (proj2 (construct_arm_validate_spec h params a)).
  2:{ intros k v Hkv. apply (dict_get_NoDup a) in Hkv; [|by rewrite Hkeys].
      rewrite Hget in Hkv. destruct (dict_get k ps) as [v'|] eqn:Hps.
      - injection Hkv as <-. apply (Hvalid k v'). by apply dict_get_Some_elem.
      - unfold final in Hkv. rewrite final_parameters_get in Hkv.
        case_decide as Hk; [|done]. injection Hkv as <-.
        apply dict_get_is_Some in Hk as [l Hl]. exists l. split; [done|by left]. }
  rewrite bind_Return. do 2 f_equal. apply dict_eq.
  - rewrite dict_update_keys; [by rewrite Hfinal, Hkeys|].
    intros k Hk. by rewrite Hfinal, <-Hkeys.
  - rewrite dict_update_keys; [by rewrite Hfinal|].
    intros k Hk. by rewrite Hfinal, <-Hkeys.
  - intros k Hk. rewrite dict_update_get by (by rewrite Hkeys).
    destruct (dict_get k a) as [v|] eqn:Ha; [done|].
    apply dict_get_None in Ha. rewrite Hkeys, <-Hfinal in Ha.
    by apply dict_get_None in Ha.
Qed.
End RoundTrip.

(** ** Membership, casting and cloning, in full *)

Section Membership.
Context {P : Type} `{!ParameterClass P, !ConstraintClass P, !Interpreter}.
Implicit Types (h : heap P) (self : loc).

Lemma filter_numeric_cons h (params : dict loc) k v l items :
  dict_get k params = Some l →
  filter (λ kv : string * TParamValue, is_numeric_name h params kv.1 = true)
    ((k, v) :: items) =
  if is_numeric (parameter_at h l)
  then (k, v) :: filter (λ kv, is_numeric_name h params kv.1 = true) items
  else filter (λ kv, is_numeric_name h params kv.1 = true) items.
Proof.
  intros Hl.
  assert (is_numeric_name h params k = is_numeric (parameter_at h l)) as Hnumeric.
  { unfold is_numeric_name. by rewrite Hl. }
  rewrite filter_cons. cbn [fst]. rewrite <-Hnumeric.
  destruct (decide (is_numeric_name h params k = true)) as [->|Hfalse]; [done|].
  by destruct (is_numeric_name h params k).
Qed.

(** The dictionary comprehension of [check_membership] raises what [float]
    raises on the first numeric value that it cannot convert. *)
Lemma numerical_param_dict_first h params items d before kv after e :
  Forall (valid_item h params) items →
  filter (λ kv, is_numeric_name h params kv.1 = true) items = before ++ kv :: after →
  (∀ x, x ∈ before → ∃ f, float x.2 = Return f) →
  float kv.2 = Raise e →
  numerical_param_dict h params items d = Raise e.
Proof.
  intros Hitems. revert d before.
  induction Hitems as [|[k v] items (l & Hl & _) _ IH]; intros d before Hfilter Hbefore He.
  { by destruct before. }
  cbn [fst snd] in Hl. rewrite (filter_numeric_cons h params k v l) in Hfilter by done.
  cbn [numerical_param_dict]. unfold subscript. rewrite Hl, bind_Return.
  destruct (is_numeric (parameter_at h l)); [|by apply (IH d before)].
  destruct before as [|x before]; injection Hfilter as <- Hfilter.
  - cbn [snd] in He. by rewrite He.
  - destruct (Hbefore (k, v)) as [f Hf]; [by left|]. cbn [snd] in Hf.
    rewrite Hf, bind_Return. apply (IH _ before); [done| |done].
    intros y Hy. apply Hbefore. by right.
Qed.

(** C4, as amended. With [raise_error=False], [check_membership] returns
    [True] exactly when the four conditions hold. When they do not hold it
    returns [False], provided the coercion to floating point succeeds on
    the value of every numeric parameter; it returns [False] as well, and
    coerces nothing, when the number of entries, a name or a value is not
    right. It raises only what such a coercion raises, the first three
    conditions then being met; and when these are met and a coercion fails,
    it does raise: the exception of [float] on the first numeric value, in
    the order of the parameterization, that [float] cannot convert. *)
Theorem check_membership_spec h self p :
  let params := _parameters (search_space_at h self) in
  let numeric := filter (λ kv, is_numeric_name h params kv.1 = true) p in
  (check_membership h self p false = Return true ↔ member h self p) ∧
  ((∀ kv, kv ∈ numeric → ∃ f, float kv.2 = Return f) →
   ¬ member h self p → check_membership h self p false = Return false) ∧
  (∀ e, check_membership h self p false = Raise e →
        length p = length params ∧
        (∀ kv, kv ∈ p → valid_item h params kv) ∧
        ∃ kv, kv ∈ numeric ∧ float kv.2 = Raise e) ∧
  (∀ before kv after e,
     length p = length params →
     (∀ kv, kv ∈ p → valid_item h params kv) →
     numeric = before ++ kv :: after →
     (∀ x, x ∈ before → ∃ f, float x.2 = Return f) →
     float kv.2 = Raise e →
     check_membership h self p false = Raise e) ∧
  (∀ kv e,
     length p = length params →
     (∀ kv, kv ∈ p → valid_item h params kv) →
     kv ∈ numeric → float kv.2 = Raise e →
     ∃ e', check_membership h self p false = Raise e') ∧
  (¬ (length p = length params ∧ ∀ kv, kv ∈ p → valid_item h params kv) →
   check_membership h self p false = Return false).
Proof.
  intros params numeric.
  assert ((check_membership h self p false = Return true ↔ member h self p) ∧
          ((∀ kv, kv ∈ numeric → ∃ f, float kv.2 = Return f) →
           ¬ member h self p → check_membership h self p false = Return false) ∧
          (∀ e, check_membership h self p false = Raise e →
                length p = length params ∧
                (∀ kv, kv ∈ p → valid_item h params kv) ∧
                ∃ kv, kv ∈ numeric ∧ float kv.2 = Raise e)) as (Htrue & Hfalse & Hraise).
  { unfold check_membership, member. fold params. fold numeric.
    case_bool_decide as Hlen.
    { split_and!; [split; [done|tauto]|done|done]. }
    destruct (check_membership_items_false h params p) as [[Hitems ->]|[Hitems ->]]; simpl.
    2:{ split_and!; [|done|done]. split; [done|].
        intros (_ & _ & Hall & _). destruct Hitems. by apply Forall_forall. }
    destruct (numerical_param_dict_run h params p [] Hitems)
      as [(fs & Hfs & ->)|(e & kv & Hkv & He & ->)]; simpl.
    2:{ split_and!.
        - split; [done|]. intros (_ & _ & _ & fs & Hfs & _).
          apply list_elem_of_lookup in Hkv as [i Hi].
          destruct (Forall2_lookup_l _ _ _ _ _ Hfs Hi) as (kf & _ & _ & Hf). congruence.
        - intros Hfloat. destruct (Hfloat kv Hkv). congruence.
        - intros e' [= <-]. rewrite Forall_forall in Hitems. eauto. }
    assert ((∀ k, k ∈ dict_keys p → k ∈ dict_keys params)) as Hnames.
    { intros k ([k' v] & -> & Hkv)%list_elem_of_fmap.
      rewrite Forall_forall in Hitems. destruct (Hitems _ Hkv) as (l & Hl & _).
      apply dict_get_is_Some. eauto. }
    destruct (check_membership_constraints_false h (dict_update [] fs)
                (_parameter_constraints (search_space_at h self)))
      as [[Hcs ->]|[Hcs ->]].
    - rewrite Forall_forall in Hitems.
      split_and!; [split; [intros _|done]; eauto 10| |done].
      intros _ []. eauto 10.
    - split_and!; [|done|done]. split; [done|].
      intros (_ & _ & _ & fs' & Hfs' & Hcs'). destruct Hcs.
      by rewrite (coerced_functional _ _ _ Hfs Hfs'). }
  assert (∀ before kv after e,
            length p = length params →
            (∀ kv, kv ∈ p → valid_item h params kv) →
            numeric = before ++ kv :: after →
            (∀ x, x ∈ before → ∃ f, float x.2 = Return f) →
            float kv.2 = Raise e →
            check_membership h self p false = Raise e) as Hfirst.
  { intros before kv after e Hlen Hitems%Forall_forall Hnumeric Hbefore He.
    unfold check_membership. fold params.
    rewrite bool_decide_eq_false_2 by (by intros []).
    destruct (check_membership_items_false h params p) as [[_ ->]|[Hnot _]]; [|done].
    rewrite bind_Return.
    by rewrite (numerical_param_dict_first h params p [] before kv after e). }
  split_and!; [done..| |].
  - intros kv e Hlen Hitems Hkv He.
    destruct (check_membership h self p false) as [[]|e'] eqn:Hrun; [| |by eauto].
    + destruct (proj1 Htrue eq_refl) as (_ & _ & _ & fs & Hfs & _).
      apply list_elem_of_lookup in Hkv as [i Hi].
      destruct (Forall2_lookup_l _ _ _ _ _ Hfs Hi) as (kf & _ & _ & Hf). congruence.
    + exfalso. revert Hrun. unfold check_membership. fold params.
      rewrite bool_decide_eq_false_2 by (by intros []).
      destruct (check_membership_items_false h params p) as [[Hall ->]|[Hnot _]];
        [|intros _; by apply Hnot, Forall_forall].
      rewrite bind_Return.
      destruct (numerical_param_dict_run h params p [] Hall)
        as [(fs & Hfs & _)|(e'' & kv' & _ & _ & ->)]; [|done].
      apply list_elem_of_lookup in Hkv as [i Hi].
      destruct (Forall2_lookup_l _ _ _ _ _ Hfs Hi) as (kf & _ & _ & Hf). congruence.
  - intros Hnot. unfold check_membership. fold params.
    case_bool_decide as Hlen; [done|].
    destruct (check_membership_items_false h params p) as [[Hall _]|[_ ->]]; [|done].
    destruct Hnot. split; [|by apply Forall_forall].
    by destruct (decide (length p = length params)).
Qed.
End Membership.

Section CastAgain.
Context {P : Type} `{!ParameterClass P, !ConstraintClass P, !Interpreter}.
Implicit Types (h : heap P) (self : loc).




End CastAgain.

Section CloneInFull.
Context {P : Type} `{!ParameterClass P, !ConstraintClass P, !Interpreter}.
Implicit Types (h : heap P) (self : loc).

(** Validity, constraint by constraint, without the case distinction. *)
Lemma constraints_valid_alt h params cs :
  constraints_valid h params cs ↔
  ∀ c, c ∈ cs →
    (∀ d b, constraint_at h c = LinearConstraint d b →
            ∀ k, k ∈ dict_keys d → k ∈ dict_keys params) ∧
    (∀ q, q ∈ constraint_parameters (constraint_at h c) →
          ∃ o, dict_get (name_of h q) params = Some o ∧
               parameter_at h q = parameter_at h o).
Proof.
  unfold constraints_valid. apply forall_proper; intros c.
  apply forall_proper; intros _.
  destruct (constraint_at h c) as [l u|ps ub b|d b]; cbn [constraint_parameters].
  - split; [by intros ?|by intros [_ ?]].
  - split; [by intros ?|by intros [_ ?]].
  - split.
    + intros Hd. split; [by intros d' b' [= <- <-]|by intros q ?%elem_of_nil].
    + intros [Hd _]. by apply (Hd d b).
Qed.

Lemma clones_valid_alt h params cs :
  clones_valid h params cs ↔
  ∀ c, c ∈ cs →
    (∀ d b, constraint_at h c = LinearConstraint d b →
            ∀ k, k ∈ dict_keys d → k ∈ dict_keys params) ∧
    (∀ q, q ∈ constraint_parameters (constraint_at h c) →
          ∃ o, dict_get (name_of h q) params = Some o ∧
               clone (parameter_at h q) = clone (parameter_at h o)).
Proof.
  unfold clones_valid. apply forall_proper; intros c.
  apply forall_proper; intros _.
  destruct (constraint_at h c) as [l u|ps ub b|d b]; cbn [constraint_parameters].
  - split; [by intros ?|by intros [_ ?]].
  - split; [by intros ?|by intros [_ ?]].
  - split.
    + intros Hd. split; [by intros d' b' [= <- <-]|by intros q ?%elem_of_nil].
    + intros [Hd _]. by apply (Hd d b).
Qed.

Lemma constraints_valid_clones_valid h params cs :
  constraints_valid h params cs → clones_valid h params cs.
Proof.
  rewrite constraints_valid_alt, clones_valid_alt. intros Hvalid c Hc.
  destruct (Hvalid c Hc) as [Hd Hq]. split; [done|].
  intros q Hin. destruct (Hq q Hin) as (o & Ho & Heq). exists o. by rewrite Heq.
Qed.

Lemma clones_valid_constraints_valid h params cs :
  (∀ p q : P, clone p = clone q → p = q) →
  clones_valid h params cs → constraints_valid h params cs.
Proof.
  rewrite constraints_valid_alt, clones_valid_alt. intros Hinj Hvalid c Hc.
  destruct (Hvalid c Hc) as [Hd Hq]. split; [done|].
  intros q Hin. destruct (Hq q Hin) as (o & Ho & Heq). exists o. split; [done|].
  by apply Hinj.
Qed.

(** [ParameterConstraint.clone] copies reference for reference. *)
Lemma clone_constraint_copied pc h :
  ∃ c' h', clone_constraint pc h = (Return c', h') ∧ below h h' ∧
           copied h pc h' c'.
Proof.
  destruct (clone_constraint_run pc h) as (c' & h' & Hrun & Hbelow & Hcopy).
  exists c', h'. split; [done|]. split; [done|]. split; [done|].
  revert Hrun. unfold clone_constraint. rewrite M_bind_run. unfold get_heap.
  cbn beta iota.
  destruct (constraint_at h pc) as [l u|ps ub b|d b] eqn:Hpc.
  - intros [= <- <-]. simpl. rewrite fn_lookup_insert. simpl. split; [|done].
    repeat constructor.
    + rewrite fn_lookup_insert_ne by lia. by rewrite fn_lookup_insert.
    + by rewrite fn_lookup_insert.
  - destruct (new_parameters_run (λ p, clone (parameter_at h p)) ps h)
      as (h1 & Hrun1 & _ & _ & _ & Hps).
    rewrite M_bind_run, Hrun1. cbn [new_constraint]. intros [= <- <-]. simpl.
    rewrite fn_lookup_insert. simpl. split; [|done].
    apply Forall2_same_length_lookup. split; [by rewrite length_seq|].
    intros i q q' Hq [-> _]%lookup_seq. by apply Hps.
  - intros [= <- <-]. simpl. rewrite fn_lookup_insert. simpl. split; [constructor|].
    by intros d' b' [= <- <-].
Qed.

Lemma copied_below_r h pc h1 h2 c' :
  below h1 h2 → copied h pc h1 c' → copied h pc h2 c'.
Proof.
  intros Hbelow (Hcopy & Hrefs & Hlinear).
  split; [by eapply deep_copy_below_r|].
  destruct Hcopy as (Hc' & Hbounds & _). destruct Hbelow as (_ & _ & Hl).
  destruct (Hl c' Hc') as [_ ->]. split; [|done].
  apply Forall2_same_length_lookup.
  apply Forall2_same_length_lookup in Hrefs as [Hlen Hlookup]. split; [done|].
  intros i q q' Hq Hq'. rewrite <-(Hlookup i q q' Hq Hq').
  destruct (Hbounds q') as [Hlt _]; [by eapply list_elem_of_lookup_2|].
  by destruct (Hl q' Hlt) as [-> _].
Qed.

Lemma copied_below_l h0 h1 pc h2 c' :
  below h0 h1 → allocated h0 [pc] → copied h1 pc h2 c' → copied h0 pc h2 c'.
Proof.
  intros Hbelow Halloc (Hcopy & Hrefs & Hlinear).
  split; [by eapply deep_copy_below_l|].
  destruct (Halloc pc) as [Hpc Hqs]; [by left|]. destruct Hbelow as (_ & _ & Hl).
  destruct (Hl pc Hpc) as [_ Hc]. rewrite Hc in Hrefs, Hlinear. split; [|done].
  apply Forall2_same_length_lookup.
  apply Forall2_same_length_lookup in Hrefs as [Hlen Hlookup]. split; [done|].
  intros i q q' Hq Hq'. rewrite (Hlookup i q q' Hq Hq').
  destruct (Hl q) as [-> _]; [|done]. apply Hqs. by eapply list_elem_of_lookup_2.
Qed.

Lemma clone_constraints_copied cs h :
  allocated h cs →
  ∃ cs' h', mapM clone_constraint cs h = (Return cs', h') ∧ below h h' ∧
            Forall2 (λ pc c', copied h pc h' c') cs cs'.
Proof.
  revert h. induction cs as [|pc cs IH]; intros h Halloc.
  - exists [], h. split_and!; [done|done|constructor].
  - destruct (clone_constraint_copied pc h) as (c' & h1 & Hrun1 & Hbelow1 & Hcopy1).
    destruct (IH h1) as (cs' & h' & Hrun & Hbelow & Hcopies).
    { intros pc2 Hpc2. destruct (Halloc pc2) as [Hlt Hqs]; [by right|].
      destruct Hbelow1 as (Hn & _ & Hl). destruct (Hl pc2 Hlt) as [_ ->].
      split; [lia|]. intros q Hq. specialize (Hqs q Hq). lia. }
    exists (c' :: cs'), h'. cbn [mapM]. rewrite M_bind_run, Hrun1, M_bind_run.
    fold (mapM (M:=M P) clone_constraint cs). rewrite Hrun.
    split_and!; [done|by eapply below_trans|]. constructor.
    + by eapply copied_below_r.
    + apply Forall2_same_length_lookup.
      apply Forall2_same_length_lookup in Hcopies as [Hlen Hlookup].
      split; [done|]. intros i pc2 c2 Hi Hj.
      eapply copied_below_l; [exact Hbelow1| |by eapply Hlookup].
      intros ? ->%list_elem_of_singleton. apply Halloc. right.
      by eapply list_elem_of_lookup_2.
Qed.

(** An error of the constructor for parameters of distinct names is an
    error of the validation of the constraints. *)
Lemma new_SearchSpace_Raise parameters pcs h e h' :
  NoDup (name_of h <$> parameters) →
  new_SearchSpace parameters pcs h = (Raise e, h') →
  ¬ constraints_valid h (parameters_dict h parameters) (default [] pcs) ∧
  ∃ n, e = ValueError (does_not_exist n) ∨
       e = ValueError (definition_does_not_match n).
Proof.
  intros Hnames Hrun. split.
  - intros Hvalid.
    destruct (new_SearchSpace_run parameters pcs h Hnames Hvalid) as (h'' & Hrun' & _).
    congruence.
  - rewrite new_SearchSpace_unfold in Hrun.
    destruct (SearchSpace__init__ _ _ _ _) as [[[]|e'] h1] eqn:Hinit; [done|].
    injection Hrun as -> ->. rewrite SearchSpace__init___unfold in Hinit.
    case_decide as Hnodup; [|by destruct Hnodup].
    set (h0 := (set__parameters (next_loc h) (parameters_dict
                  (new_search_space (P:=P) SearchSpaceClass h).2 parameters)
                  (new_search_space SearchSpaceClass h).2).2) in *.
    destruct (_validate_parameter_constraints h0 (next_loc h) (default [] pcs))
      as [[]|e'] eqn:Hval.
    + exfalso. apply validate_parameter_constraints_Return in Hval.
      destruct (set_parameter_constraints_run (next_loc h) (default [] pcs) h0)
        as (h'' & Hrun' & _); [|done|congruence].
      unfold h0. rewrite set__parameters_lookup. intros k l Hkl.
      apply parameters_dict_keyed in Hkl. exact Hkl.
    + rewrite (set_parameter_constraints_invalid _ _ _ _ Hval) in Hinit.
      injection Hinit as <- <-. by eapply validate_parameter_constraints_Raise.
Qed.

(** [clone] is the constructor applied to the copies: for a space whose
    keys are the names of its parameters, when cloning a parameter keeps
    its name, the copies of the constraints are valid against the copies
    of the parameters exactly when [clones_valid] holds of the
    originals. *)
Lemma SearchSpace_clone_constructor self h :
  let s := search_space_at h self in
  (∀ p : P, name (clone p) = name p) →
  NoDup (dict_keys (_parameters s)) →
  keyed_by_name h (_parameters s) →
  allocated h (_parameter_constraints s) →
  ∃ h2 ls cs',
    SearchSpace_clone self h = new_SearchSpace ls (Some cs') h2 ∧
    name_of h2 <$> ls = dict_keys (_parameters s) ∧
    length cs' = length (_parameter_constraints s) ∧
    (constraints_valid h2 (parameters_dict h2 ls) cs' ↔
     clones_valid h (_parameters s) (_parameter_constraints s)).
Proof.
  intros s Hclone Hnodup Hkeys Halloc.
  set (params := _parameters s) in *. set (cs := _parameter_constraints s) in *.
  destruct (new_parameters_run (λ p, clone (parameter_at h p)) (dict_values params) h)
    as (h1 & Hrun1 & Hbelow1 & Hnext1 & Hcs1 & Hps1).
  destruct (clone_constraints_copied cs h1) as (cs' & h2 & Hrun2 & Hbelow2 & Hcopies).
  { intros pc Hpc. destruct (Halloc pc Hpc) as [Hlt Hqs].
    destruct Hbelow1 as (Hn & _ & _). rewrite Hcs1. split; [lia|].
    intros q Hq. specialize (Hqs q Hq). lia. }
  set (n := next_loc h) in *.
  set (ls := seq n (length (dict_values params))) in *.
  assert (∀ i kk v, params !! i = Some (kk, v) →
            ls !! i = Some (n + i) ∧
            parameter_at h2 (n + i) = clone (parameter_at h v) ∧
            name_of h2 (n + i) = kk) as Hclones.
  { intros i kk v Hi.
    assert (dict_values params !! i = Some v) as Hv.
    { unfold dict_values. by rewrite list_lookup_fmap, Hi. }
    assert (parameter_at h2 (n + i) = clone (parameter_at h v)) as Hstate.
    { destruct Hbelow2 as (_ & _ & Hl). destruct (Hl (n + i)) as [-> _].
      - apply lookup_lt_Some in Hv. lia.
      - by apply Hps1. }
    split_and!; [|done|].
    - apply lookup_seq. apply lookup_lt_Some in Hv. done.
    - unfold name_of. rewrite Hstate, Hclone. apply (Hkeys kk v).
      apply dict_get_NoDup; [done|]. by eapply list_elem_of_lookup_2. }
  assert (name_of h2 <$> ls = dict_keys params) as Hnames.
  { apply list_eq_same_length with (length params).
    - unfold dict_keys. by rewrite length_fmap.
    - unfold ls, dict_values. by rewrite length_fmap, length_seq, length_fmap.
    - intros i x y Hi. rewrite list_lookup_fmap. unfold dict_keys.
      rewrite list_lookup_fmap.
      destruct (lookup_lt_is_Some_2 params i Hi) as [[kk v] Hkv].
      destruct (Hclones i kk v Hkv) as (-> & _ & Hname). rewrite Hkv. simpl.
      congruence. }
  set (pd := parameters_dict h2 ls).
  assert (NoDup (dict_keys pd)) as Hnodup'.
  { unfold pd. by rewrite parameters_dict_keys, Hnames. }
  assert (dict_keys pd = dict_keys params) as Hpd.
  { unfold pd. by rewrite parameters_dict_keys. }
  (* the copy of the space's parameter of a name is the copy's parameter of
     that name, and the other way round *)
  assert (∀ kk v, dict_get kk params = Some v →
            ∃ o', dict_get kk pd = Some o' ∧
                  parameter_at h2 o' = clone (parameter_at h v)) as Hto.
  { intros kk v Hv. apply dict_get_Some_elem, list_elem_of_lookup in Hv as [i Hi].
    destruct (Hclones _ _ _ Hi) as (Hls & Hstate & Hname).
    exists (n + i). split; [|done]. apply dict_get_NoDup; [done|].
    apply list_elem_of_fmap. exists (n + i).
    split; [by rewrite Hname|by eapply list_elem_of_lookup_2]. }
  assert (∀ kk o', dict_get kk pd = Some o' →
            ∃ v, dict_get kk params = Some v ∧
                 parameter_at h2 o' = clone (parameter_at h v)) as Hfrom.
  { intros kk o' Ho'.
    assert (kk ∈ dict_keys params) as Hkk.
    { rewrite <-Hpd. apply dict_get_is_Some. by exists o'. }
    apply dict_get_is_Some in Hkk as [v Hv]. exists v. split; [done|].
    destruct (Hto kk v Hv) as (o'' & Ho'' & Hstate). congruence. }
  (* each constraint and its copy *)
  assert (∀ j pc c', cs !! j = Some pc → cs' !! j = Some c' →
            Forall2 (λ q q', parameter_at h2 q' = clone (parameter_at h q) ∧
                             name_of h2 q' = name_of h q)
              (constraint_parameters (constraint_at h pc))
              (constraint_parameters (constraint_at h2 c')) ∧
            (∀ d b, constraint_at h pc = LinearConstraint d b ↔
                    constraint_at h2 c' = LinearConstraint d b)) as Hpairs.
  { intros j pc c' Hj Hj'.
    apply Forall2_same_length_lookup in Hcopies as [_ Hcopies].
    destruct (Hcopies j pc c' Hj Hj') as ((_ & _ & Hback) & Hrefs & Hforth).
    rewrite Hcs1 in Hrefs, Hforth, Hback.
    destruct (Halloc pc) as [_ Hqs]; [by eapply list_elem_of_lookup_2|].
    split; [|split; [apply Hforth|apply Hback]].
    apply Forall2_same_length_lookup.
    apply Forall2_same_length_lookup in Hrefs as [Hlen Hlookup]. split; [done|].
    intros i q q' Hq Hq'. specialize (Hlookup i q q' Hq Hq').
    destruct Hbelow1 as (_ & _ & Hl1).
    destruct (Hl1 q) as [Hq1 _]; [apply Hqs; by eapply list_elem_of_lookup_2|].
    rewrite Hq1 in Hlookup. split; [done|].
    unfold name_of. by rewrite Hlookup, Hclone. }
  exists h2, ls, cs'. split_and!.
  - unfold SearchSpace_clone. rewrite M_bind_run. unfold get_heap. cbn beta iota zeta.
    fold s. fold params. fold cs. rewrite M_bind_run, Hrun1, M_bind_run, Hrun2. done.
  - exact Hnames.
  - symmetry. by eapply Forall2_length.
  - fold pd. rewrite constraints_valid_alt, clones_valid_alt. split.
    + intros Hvalid pc Hpc. apply list_elem_of_lookup in Hpc as [j Hj].
      destruct (Forall2_lookup_l _ _ _ _ _ Hcopies Hj) as (c' & Hj' & _).
      destruct (Hpairs j pc c' Hj Hj') as [Hrefs Hlinear].
      destruct (Hvalid c') as [Hd Hq]; [by eapply list_elem_of_lookup_2|]. split.
      * intros d b Hpc k Hk. rewrite <-Hpd. apply (Hd d b); [by apply Hlinear|done].
      * intros q [i Hi]%list_elem_of_lookup.
        destruct (Forall2_lookup_l _ _ _ _ _ Hrefs Hi) as (q' & Hi' & Hstate & Hname).
        destruct (Hq q') as (o' & Ho' & Heq); [by eapply list_elem_of_lookup_2|].
        rewrite Hname in Ho'. destruct (Hfrom _ _ Ho') as (v & Hv & Hstate').
        exists v. split; [done|]. congruence.
    + intros Hvalid c' Hc'. apply list_elem_of_lookup in Hc' as [j Hj'].
      destruct (Forall2_lookup_r _ _ _ _ _ Hcopies Hj') as (pc & Hj & _).
      destruct (Hpairs j pc c' Hj Hj') as [Hrefs Hlinear].
      destruct (Hvalid pc) as [Hd Hq]; [by eapply list_elem_of_lookup_2|]. split.
      * intros d b Hc' k Hk. rewrite Hpd. apply (Hd d b); [by apply Hlinear|done].
      * intros q' [i Hi']%list_elem_of_lookup.
        destruct (Forall2_lookup_r _ _ _ _ _ Hrefs Hi') as (q & Hi & Hstate & Hname).
        destruct (Hq q) as (o & Ho & Heq); [by eapply list_elem_of_lookup_2|].
        destruct (Hto _ _ Ho) as (o' & Ho' & Hstate').
        exists o'. rewrite Hname. split; [done|]. congruence.
Qed.

(** The copy has as many parameters and as many constraints as the
    original. *)
Lemma SearchSpace_clone_lengths self h s' h' :
  SearchSpace_clone self h = (Return s', h') →
  length (_parameters (search_space_at h' s')) =
    length (_parameters (search_space_at h self)) ∧
  length (_parameter_constraints (search_space_at h' s')) =
    length (_parameter_constraints (search_space_at h self)).
Proof.
  intros Hrun. unfold SearchSpace_clone in Hrun. rewrite M_bind_run in Hrun.
  unfold get_heap in Hrun. cbn beta iota zeta in Hrun.
  destruct (new_parameters_run (λ p, clone (parameter_at h p))
              (dict_values (_parameters (search_space_at h self))) h)
    as (h1 & Hrun1 & _).
  rewrite M_bind_run, Hrun1, M_bind_run in Hrun.
  destruct (mapM (M:=M P) clone_constraint _ h1) as [[cs'|e] h2] eqn:Hrun2; [|done].
  apply clone_constraints_fresh in Hrun2 as (_ & Hlen & _).
  rewrite new_SearchSpace_unfold in Hrun.
  destruct (SearchSpace__init__ _ _ _ _) as [[[]|e] h3] eqn:Hinit; [|done].
  injection Hrun as <- <-.
  apply SearchSpace__init___Return in Hinit as (_ & _ & _ & -> & _).
  cbn [_parameters _parameter_constraints default]. split; [|done].
  unfold parameters_dict, dict_values. by rewrite !length_fmap, length_seq.
Qed.

(** C10, as amended. Whenever [clone] returns, of a hierarchical search
    space as of any other, the object it returns is of the base class, has
    neither a root nor a snapshot of names, answers [cast_arm] the way the
    base class does, has no [flatten], and has as many parameters and as
    many constraints as the original. It returns when the constraints of
    the space are valid against its parameters, provided that a clone of a
    parameter keeps the parameter's name and that the objects referred to
    were allocated. Under these provisos it returns exactly when the
    copies of the constraints are valid against the copies of the
    parameters, which is, for a [clone] that tells parameters apart,
    exactly when the constraints are valid against the parameters;
    otherwise it raises the [ValueError] of the validation, as it does
    when a constraint refers to a parameter of the name of a parameter of
    the space whose clone is not its own. *)
Theorem clone_is_base self h :
  let s := search_space_at h self in
  let params := _parameters s in
  let cs := _parameter_constraints s in
  (∀ s' h',
     SearchSpace_clone self h = (Return s', h') →
     __class__ (search_space_at h' s') = SearchSpaceClass ∧
     _root (search_space_at h' s') = None ∧
     _all_parameter_names (search_space_at h' s') = None ∧
     (∀ arm, cast_arm h' s' arm = SearchSpace_cast_arm h' s' arm) ∧
     flatten h' s' = Raise (AttributeError "flatten") ∧
     length (_parameters (search_space_at h' s')) = length params ∧
     length (_parameter_constraints (search_space_at h' s')) = length cs) ∧
  ((∀ p : P, name (clone p) = name p) →
   NoDup (dict_keys params) →
   keyed_by_name h params →
   constraints_valid h params cs →
   allocated h cs →
   ∃ s' h', SearchSpace_clone self h = (Return s', h') ∧
            dict_keys (_parameters (search_space_at h' s')) = dict_keys params) ∧
  ((∀ p : P, name (clone p) = name p) →
   NoDup (dict_keys params) →
   keyed_by_name h params →
   allocated h cs →
   ((∃ s' h', SearchSpace_clone self h = (Return s', h')) ↔
    clones_valid h params cs) ∧
   (∀ e h', SearchSpace_clone self h = (Raise e, h') →
      ¬ clones_valid h params cs ∧
      ∃ n, e = ValueError (does_not_exist n) ∨
           e = ValueError (definition_does_not_match n)) ∧
   (¬ clones_valid h params cs →
      ∃ e h' n, SearchSpace_clone self h = (Raise e, h') ∧
                (e = ValueError (does_not_exist n) ∨
                 e = ValueError (definition_does_not_match n))) ∧
   (∀ c q o,
      c ∈ cs → q ∈ constraint_parameters (constraint_at h c) →
      dict_get (name_of h q) params = Some o →
      clone (parameter_at h q) ≠ clone (parameter_at h o) →
      ∃ e h' n, SearchSpace_clone self h = (Raise e, h') ∧
                (e = ValueError (does_not_exist n) ∨
                 e = ValueError (definition_does_not_match n))) ∧
   ((∀ p q : P, clone p = clone q → p = q) →
    (clones_valid h params cs ↔ constraints_valid h params cs))).
Proof.
  intros s params cs. split_and!.
  - intros s' h' Hrun. apply SearchSpace_clone_lengths in Hrun as Hlengths.
    apply SearchSpace_clone_Return in Hrun as Hs'.
    unfold cast_arm, flatten. rewrite Hs'. cbn [__class__ _root _all_parameter_names].
    destruct Hlengths as [Hparams Hcs]. by rewrite <-Hs'.
  - apply SearchSpace_clone_run.
  - intros Hclone Hnodup Hkeyed Halloc.
    destruct (SearchSpace_clone_constructor self h Hclone Hnodup Hkeyed Halloc)
      as (h2 & ls & cs' & Hrun & Hnames & _ & Hvalid).
    fold s params cs in Hnames, Hvalid.
    assert (NoDup (name_of h2 <$> ls)) as Hnodup' by (by rewrite Hnames).
    assert (∀ e h', SearchSpace_clone self h = (Raise e, h') →
              ¬ clones_valid h params cs ∧
              ∃ n, e = ValueError (does_not_exist n) ∨
                   e = ValueError (definition_does_not_match n)) as Hraise.
    { intros e h'. rewrite Hrun. intros Hrun'.
      apply new_SearchSpace_Raise in Hrun' as [Hnot Herror]; [|done].
      split; [|done]. intros Hclones. by apply Hnot, Hvalid. }
    assert ((∃ s' h', SearchSpace_clone self h = (Return s', h')) ↔
            clones_valid h params cs) as Hreturn.
    { rewrite Hrun. split.
      - intros (s' & h' & Hrun'). apply Hvalid.
        by apply new_SearchSpace_Return in Hrun' as (_ & _ & _ & _ & ?).
      - intros Hclones%Hvalid.
        destruct (new_SearchSpace_run ls (Some cs') h2 Hnodup' Hclones)
          as (h' & Hrun' & _).
        by eauto. }
    assert (¬ clones_valid h params cs →
            ∃ e h' n, SearchSpace_clone self h = (Raise e, h') ∧
                      (e = ValueError (does_not_exist n) ∨
                       e = ValueError (definition_does_not_match n))) as Hnot.
    { intros Hnot.
      destruct (SearchSpace_clone self h) as [[s'|e] h'] eqn:Hrun'.
      - destruct Hnot. apply Hreturn. by eauto.
      - destruct (Hraise e h' eq_refl) as [_ [n Hn]]. by exists e, h', n. }
    split_and!; [done..| |].
    + intros c q o Hc Hq Ho Hne. apply Hnot. rewrite clones_valid_alt.
      intros Hclones. destruct (Hclones c Hc) as [_ Hrefs].
      destruct (Hrefs q Hq) as (o' & Ho' & Heq). congruence.
    + intros Hinj. split.
      * by apply clones_valid_constraints_valid.
      * apply constraints_valid_clones_valid.
Qed.
End CloneInFull.

(** * Examples

    The statements above at the objects of the examples. *)

(** ** Construction of a [SearchSpace] *)

(** C8: the theorem at the parameters [B] and [C]. *)
Lemma SearchSpace_construction_witness :
  ∃ h', new_SearchSpace [1; 2] None example_heap = (Return 100, h') ∧
        length (_parameters (search_space_at h' 100)) = 2.
Proof.
  destruct (SearchSpace_construction [1; 2] None example_heap) as (_ & _ & H & _).
  apply H; [|reflexivity].
  apply (bool_decide_unpack _). vm_compute. exact I.
Defined.

(** C8, as stated, fails: two parameters named [B] raise a [ValueError],
    the only exception class the constructor raises itself; and two
    parameters of distinct names with a constraint on a name [Z] that the
    space does not have raise as well. *)
Lemma SearchSpace_construction_counterexample :
  (new_SearchSpace [1; 6] None example_heap).1 =
    Raise (ValueError names_must_be_unique) ∧
  NoDup (name_of example_heap <$> [1; 2]) ∧
  (new_SearchSpace [1; 2] (Some [51]) example_heap).1 =
    Raise (ValueError (does_not_exist "Z")).
Proof.
  split_and!; [vm_compute; reflexivity| |vm_compute; reflexivity].
  apply (bool_decide_unpack _). vm_compute. exact I.
Qed.

(** ** Constraints *)

(** C6: the theorem at a constraint on the name [Z], which [SearchSpace([B,
    C])] does not have. *)
Lemma set_parameter_constraints_atomic_witness :
  set_parameter_constraints 100 [51] heap_B_C =
    (Raise (ValueError (does_not_exist "Z")), heap_B_C).
Proof.
  destruct (set_parameter_constraints_atomic 100 [51] heap_B_C) as (H & _).
  apply (H (ValueError (does_not_exist "Z"))).
  vm_compute. reflexivity.
Defined.

(** C5 fails on [add_parameter_constraints]. The constraint at location 50
    is an order constraint on the parameter objects at 6 and 7, which equal
    the parameters [B] and [C] of the space, kept at 1 and 2.
    [add_parameter_constraints] returns and installs the constraint, which
    still refers to 6 and 7; [set_parameter_constraints], on the same
    input, leaves it referring to 1 and 2. *)
Lemma add_parameter_constraints_keeps_references :
  let h' := (add_parameter_constraints 100 [50] heap_B_C).2 in
  parameter_at heap_B_C 6 = parameter_at heap_B_C 1 ∧
  parameter_at heap_B_C 7 = parameter_at heap_B_C 2 ∧
  (add_parameter_constraints 100 [50] heap_B_C).1 = Return () ∧
  _parameters (search_space_at h' 100) = [("B", 1); ("C", 2)] ∧
  _parameter_constraints (search_space_at h' 100) = [50] ∧
  constraint_at h' 50 = OrderConstraint 6 7 ∧
  constraint_at (set_parameter_constraints 100 [50] heap_B_C).2 50 =
    OrderConstraint 1 2.
Proof. vm_compute. by repeat split. Qed.

(** ** Membership *)

(** C4: the theorem at [B = 1], [C = 5] in the space of [B], [C] and the
    constraint [B <= C]. *)
Lemma check_membership_spec_witness :
  member heap_B_le_C 100 [("B", VInt 1); ("C", VInt 5)].
Proof.
  destruct (check_membership_spec heap_B_le_C 100 [("B", VInt 1); ("C", VInt 5)])
    as (H & _).
  apply H. vm_compute. reflexivity.
Defined.

(** C4, as stated, fails: [N] is a numeric parameter whose [validate]
    accepts the integer [2 ** 1024], which [float] cannot represent;
    [check_membership] then returns neither [True] nor [False]. *)
Lemma check_membership_counterexample :
  _parameters (search_space_at heap_N 100) = [("N", 9)] ∧
  validate (parameter_at heap_N 9) (VInt (2 ^ 1024)) = true ∧
  is_numeric (parameter_at heap_N 9) = true ∧
  check_membership heap_N 100 [("N", VInt (2 ^ 1024))] false =
    Raise OverflowError.
Proof. vm_compute. by repeat split. Qed.

(** ** Arms *)

(** C7: the theorem at [construct_arm({"C": 3}, "arm0")]. *)
Lemma construct_arm_entries_witness :
  Arm_name (mkArm [("B", VNone); ("C", VInt 3)] (Some "arm0")) = Some "arm0" ∧
  is_Some (dict_get "B"
             (Arm_parameters (mkArm [("B", VNone); ("C", VInt 3)] (Some "arm0")))).
Proof.
  destruct (construct_arm_entries heap_B_C 100) as [H _].
  destruct (H (Some [("C", VInt 3)]) (Some "arm0")
              (mkArm [("B", VNone); ("C", VInt 3)] (Some "arm0")))
    as (Hentry & _ & Hname); [vm_compute; reflexivity|].
  split; [exact Hname|]. apply Hentry. vm_compute. by left.
Defined.



(** ** The hierarchy *)

(** The first example of the spec: [A] with the dependents [B] under one
    value and [C] under another; the root is [A], the validation visits
    [A], [B] and [C], and construction returns. *)
Lemma HierarchicalSearchSpace_A_B_C :
  (new_HierarchicalSearchSpace [0; 1; 2] None example_heap).1 = Return 100 ∧
  _root (search_space_at
           (new_HierarchicalSearchSpace [0; 1; 2] None example_heap).2 100) =
    Some 0.
Proof. vm_compute. by split. Qed.

(** The second example of the spec: [A] and [D] are two candidates. *)
Lemma HierarchicalSearchSpace_A_B_C_D :
  (new_HierarchicalSearchSpace [4; 5; 2; 3] None example_heap).1 =
    Raise (NotImplementedError
             (could_not_find_root {[ "B"; "C" ]} 4 {[ "A"; "D" ]})).
Proof. vm_compute. reflexivity. Qed.

(** C1: the theorem at the parameters [A], [B] and [C]. *)
Lemma HierarchicalSearchSpace_root_witness :
  100 = next_loc example_heap ∧
  ∃ r root,
    list_to_set (name_of example_heap <$> [0; 1; 2])
      ∖ dependent_parameter_names example_heap [0; 1; 2] = ({[ r ]} : gset string) ∧
    _root (search_space_at
             (new_HierarchicalSearchSpace [0; 1; 2] None example_heap).2
             (next_loc example_heap)) = Some root ∧
    dict_get r (_parameters
                  (search_space_at
                     (new_HierarchicalSearchSpace [0; 1; 2] None example_heap).2
                     (next_loc example_heap))) = Some root ∧
    root ∈ [0; 1; 2] ∧ name_of example_heap root = r.
Proof.
  destruct (HierarchicalSearchSpace_root [0; 1; 2] None example_heap) as (_ & _ & H).
  apply H. vm_compute. reflexivity.
Defined.


(** Construction on these parameters raises that error, naming [C]. *)
Lemma HierarchicalSearchSpace_R_S_T_C :
  (new_HierarchicalSearchSpace [10; 11; 12; 2] None example_heap).1 =
    Raise (UserInputError (subtrees_contain_the_same_parameters {[ "C" ]})).
Proof. vm_compute. reflexivity. Qed.

(** C3: the theorem at [A], [B], [C] and two parameters [E] and [F] that
    depend on each other and on which nothing else depends. *)
Lemma HierarchicalSearchSpace_reaches_all_witness :
  (new_HierarchicalSearchSpace [0; 1; 2; 13; 14] None example_heap).1 =
    Raise (UserInputError
             (not_reachable_from_the_root
                (list_to_set (name_of example_heap <$> [0; 1; 2; 13; 14])
                   ∖ {[ "A"; "B"; "C" ]}))).
Proof.
  destruct (HierarchicalSearchSpace_reaches_all [0; 1; 2; 13; 14] None example_heap)
    as [_ H].
  destruct (H (new_HierarchicalSearchSpace [0; 1; 2; 13; 14] None example_heap).1
              (new_HierarchicalSearchSpace [0; 1; 2; 13; 14] None example_heap).2
              0 {[ "A"; "B"; "C" ]})
    as (_ & _ & Hraise & _).
  - apply surjective_pairing.
  - vm_compute. reflexivity.
  - vm_compute. reflexivity.
  - apply Hraise. apply (non_empty_inhabited_L "E"). vm_compute. reflexivity.
Defined.

(** The error names [E] and [F]. *)
Lemma HierarchicalSearchSpace_E_F_unreachable :
  (new_HierarchicalSearchSpace [0; 1; 2; 13; 14] None example_heap).1 =
    Raise (UserInputError (not_reachable_from_the_root {[ "E"; "F" ]})).
Proof. vm_compute. reflexivity. Qed.

(** ** [clone] *)

(** C10: the theorem at the hierarchical space of [A], [B], [C] and the
    constraint [B <= C]. *)
Lemma clone_is_base_witness :
  ∃ s' h',
    SearchSpace_clone 100 heap_hierarchical = (Return s', h') ∧
    dict_keys (_parameters (search_space_at h' s')) =
      dict_keys (_parameters (search_space_at heap_hierarchical 100)).
Proof.
  destruct (clone_is_base 100 heap_hierarchical) as (_ & H & _). apply H.
  - reflexivity.
  - apply (bool_decide_unpack _). vm_compute. exact I.
  - intros k l.
    change (_parameters (search_space_at heap_hierarchical 100))
      with [("A", 0); ("B", 1); ("C", 2)].
    cbn [dict_get].
    repeat (destruct (decide _) as [->|_]; [by intros [= <-]|]).
    discriminate.
  - intros c Hc. change (c ∈ [52]) in Hc. apply list_elem_of_singleton in Hc as ->.
    change (constraint_at heap_hierarchical 52) with (OrderConstraint 1 2).
    cbn [constraint_parameters].
    intros p [->|Hp]%elem_of_cons; [|apply list_elem_of_singleton in Hp as ->].
    + exists 1. split; vm_compute; reflexivity.
    + exists 2. split; vm_compute; reflexivity.
  - intros c Hc. change (c ∈ [52]) in Hc. apply list_elem_of_singleton in Hc as ->.
    change (constraint_at heap_hierarchical 52) with (OrderConstraint 1 2).
    cbn [constraint_parameters].
    split; [vm_compute; lia|].
    intros q [->|Hq]%elem_of_cons; [|apply list_elem_of_singleton in Hq as ->];
      vm_compute; lia.
Defined.

(** C10, as stated, fails: after [update_parameter] has replaced [B] by a
    parameter [B] of other bounds, the constraint [B <= C] still refers to
    the former [B], and [clone] raises. *)
Lemma clone_counterexample :
  (new_HierarchicalSearchSpace [0; 1; 2] (Some [52]) example_heap).1 =
    Return 100 ∧
  (update_parameter 100 8 heap_hierarchical).1 = Return () ∧
  (SearchSpace_clone 100 (update_parameter 100 8 heap_hierarchical).2).1 =
    Raise (ValueError (definition_does_not_match "B")).
Proof. vm_compute. by repeat split. Qed.

(** ** The further properties at the objects of the examples *)

(** A statement run on a heap, by its outcome and the heap it leaves. *)
Lemma outcome_and_heap {A S} (run : A * S) (a : A) : run.1 = a → run = (a, run.2).
Proof. destruct run. simpl. congruence. Qed.

Lemma heap_B_C_keyed :
  keyed_by_name heap_B_C (_parameters (search_space_at heap_B_C 100)).
Proof.
  intros k l. change (_parameters (search_space_at heap_B_C 100))
    with [("B", 1); ("C", 2)].
  cbn [dict_get].
  repeat (destruct (decide _) as [->|_]; [by intros [= <-]|]). discriminate.
Qed.

Lemma heap_B_C_well_formed : well_formed heap_B_C 100.
Proof.
  split; [|exact heap_B_C_keyed]. apply (bool_decide_unpack _). vm_compute. exact I.
Qed.

(** X3: the theorem at [SearchSpace([B, C])]. *)
Lemma construction_well_formed_witness :
  well_formed heap_B_C 100 ∧
  dict_values (_parameters (search_space_at heap_B_C 100)) = [1; 2] ∧
  dict_keys (_parameters (search_space_at heap_B_C 100)) =
    name_of heap_B_C <$> [1; 2].
Proof.
  apply (construction_well_formed [1; 2] None example_heap 100 heap_B_C).
  left. apply injective_projections; [vm_compute; reflexivity|reflexivity].
Defined.

(** X4: the theorem at the space of [B] and [C]. *)
Lemma well_formed_preserved_witness :
  (∀ parameter, well_formed (add_parameter 100 parameter heap_B_C).2 100) ∧
  (∀ parameter, well_formed (update_parameter 100 parameter heap_B_C).2 100) ∧
  (∀ cs, well_formed (set_parameter_constraints 100 cs heap_B_C).2 100) ∧
  (∀ cs, well_formed (add_parameter_constraints 100 cs heap_B_C).2 100).
Proof. apply (well_formed_preserved 100 heap_B_C). exact heap_B_C_well_formed. Defined.

(** X9: the theorem at [B = 1], [C = 5], which the space of [B], [C] and
    [B <= C] accepts. *)
Lemma accepted_parameterization_complete_witness :
  dict_keys [("B", VInt 1); ("C", VInt 5)] ≡ₚ
    dict_keys (_parameters (search_space_at heap_B_le_C 100)) ∧
  ∀ k, k ∈ dict_keys (_parameters (search_space_at heap_B_le_C 100)) →
       is_Some (dict_get k [("B", VInt 1); ("C", VInt 5)]).
Proof.
  apply (accepted_parameterization_complete heap_B_le_C 100
           [("B", VInt 1); ("C", VInt 5)]).
  - apply (bool_decide_unpack _). vm_compute. exact I.
  - left. vm_compute. reflexivity.
Defined.

(** X10: the theorem at the space of [B] and [C]. *)
Lemma out_of_design_arm_check_types_witness :
  ∃ arm, out_of_design_arm heap_B_C 100 = Return arm ∧
         dict_keys (Arm_parameters arm) =
           dict_keys (_parameters (search_space_at heap_B_C 100)) ∧
         check_types heap_B_C 100 (Arm_parameters arm) true false = Return true.
Proof.
  apply (out_of_design_arm_check_types heap_B_C 100 false).
  apply (bool_decide_unpack _). vm_compute. exact I.
Defined.

(** X11: the theorem at [construct_arm({"C": 3}, "arm0")]. *)
Lemma construct_arm_values_witness :
  dict_get "B" [("B", VNone); ("C", VInt 3)] = Some VNone ∧
  dict_get "C" [("B", VNone); ("C", VInt 3)] = Some (VInt 3).
Proof.
  destruct (construct_arm_values heap_B_C 100 [("C", VInt 3)] (Some "arm0")
              (mkArm [("B", VNone); ("C", VInt 3)] (Some "arm0")))
    as (Hvalues & _).
  - apply (bool_decide_unpack _). vm_compute. exact I.
  - vm_compute. reflexivity.
  - split.
    + apply (Hvalues "B"). vm_compute. by left.
    + apply (Hvalues "C"). vm_compute. by right; left.
Defined.

(** X13: the theorem at [C = 5], [B = 1], given in that order. *)
Lemma member_construct_arm_witness :
  ∃ arm, construct_arm heap_B_le_C 100 (Some [("C", VInt 5); ("B", VInt 1)]) None =
           Return arm ∧
         Arm_name arm = None ∧
         dict_keys (Arm_parameters arm) =
           dict_keys (_parameters (search_space_at heap_B_le_C 100)) ∧
         ∀ k, dict_get k (Arm_parameters arm) =
              dict_get k [("C", VInt 5); ("B", VInt 1)].
Proof.
  apply (member_construct_arm heap_B_le_C 100 [("C", VInt 5); ("B", VInt 1)] None).
  - apply (bool_decide_unpack _). vm_compute. exact I.
  - vm_compute. reflexivity.
Defined.

(** X14: the theorem at an arm with a value to cast and a value under a
    name that the space does not have. *)
Lemma cast_arm_entries_witness :
  ∃ arm', SearchSpace_cast_arm heap_B_C 100
            (mkArm [("B", VBool true); ("Q", VStr "raw")] None) = Return arm'.
Proof.
  destruct (cast_arm_entries heap_B_C 100
              (mkArm [("B", VBool true); ("Q", VStr "raw")] None))
    as (_ & _ & Hreturns).
  - apply (bool_decide_unpack _). vm_compute. exact I.
  - apply Hreturns. intros k v p Hkv.
    change (_parameters (search_space_at heap_B_C 100)) with [("B", 1); ("C", 2)].
    apply elem_of_cons in Hkv as [[= -> ->]|Hkv];
      [|apply list_elem_of_singleton in Hkv as [= -> ->]].
    + intros [= <-]. by exists (VInt 1).
    + discriminate.
Defined.

(** X16: the theorem at the order constraint on the copies of [B] and [C],
    set on the space of [B] and [C]. *)
Lemma set_parameter_constraints_rebinds_witness :
  let h' := (set_parameter_constraints 100 [50] heap_B_C).2 in
  _parameter_constraints (search_space_at h' 100) = [50] ∧
  _parameters (search_space_at h' 100) = _parameters (search_space_at heap_B_C 100) ∧
  parameter_at h' = parameter_at heap_B_C ∧
  (∀ c, c ∈ [50] →
        refers_to_own h' 100 (constraint_at h' c) ∧
        constraint_at h' c = rebound heap_B_C 100 (constraint_at heap_B_C c) ∧
        Forall2 (λ p p', own heap_B_C 100 p = Some p' ∧
                         parameter_at heap_B_C p' = parameter_at heap_B_C p)
          (constraint_parameters (constraint_at heap_B_C c))
          (constraint_parameters (constraint_at h' c))) ∧
  (∀ c, c ∉ [50] → constraint_at h' c = constraint_at heap_B_C c).
Proof.
  apply (set_parameter_constraints_rebinds 100 [50] heap_B_C).
  - exact heap_B_C_keyed.
  - apply injective_projections; [vm_compute; reflexivity|reflexivity].
Defined.

(** X17: the theorem at the same call, made twice. *)
Lemma set_parameter_constraints_twice_witness :
  let h' := (set_parameter_constraints 100 [50] heap_B_C).2 in
  ∃ h'', set_parameter_constraints 100 [50] h' = (Return (), h'') ∧
         (∀ c, constraint_at h'' c = constraint_at h' c) ∧
         (∀ s, search_space_at h'' s = search_space_at h' s) ∧
         parameter_at h'' = parameter_at h' ∧ next_loc h'' = next_loc h'.
Proof.
  apply (set_parameter_constraints_twice 100 [50] heap_B_C).
  - exact heap_B_C_keyed.
  - apply injective_projections; [vm_compute; reflexivity|reflexivity].
Defined.

(** X19: the theorem at the root [A] of the hierarchical space, with three
    nested calls allowed and with a hundred. *)
Lemma check_subtree_depth_witness :
  _check_subtree 3 heap_hierarchical 100 0 = Raise RecursionError ∨
  _check_subtree 100 heap_hierarchical 100 0 = _check_subtree 3 heap_hierarchical 100 0.
Proof. apply (check_subtree_depth 3 100 heap_hierarchical 100 0). lia. Defined.

(** X20: the theorem at [E] and [F], which depend on each other. *)
Lemma check_subtree_cycle_witness :
  _check_subtree recursion_limit heap_E_F 100 13 = Raise RecursionError.
Proof.
  destruct (check_subtree_cycle (λ q, q = 13 ∨ q = 14) heap_E_F 100) as [Hcycle _].
  - intros q [->| ->].
    + split; [reflexivity|]. exists "F", [], 14. split_and!; [reflexivity..|by right].
    + split; [reflexivity|]. exists "E", [], 13. split_and!; [reflexivity..|by left].
  - apply Hcycle. by left.
Defined.

(** X21: the theorem at [H], whose dependent [G] is hierarchical and has no
    dependents. *)
Lemma check_subtree_degenerate_witness :
  _check_subtree 1 heap_H_G 100 15 = Raise StopIteration ∧
  _check_subtree 2 heap_H_G 100 16 = Raise RuntimeError.
Proof.
  split.
  - destruct (check_subtree_degenerate 0 heap_H_G 100 15) as [Hempty _];
      [reflexivity|]. by apply Hempty.
  - destruct (check_subtree_degenerate 1 heap_H_G 100 16) as [_ Hchild];
      [reflexivity|].
    destruct (Hchild [] "G" [] []) as [_ Hruntime].
    + reflexivity.
    + constructor.
    + by intros i j s1 s2 _ ?.
    + by apply (Hruntime 15 0).
Defined.

(** X22: the theorem at the hierarchical space of [A], [B] and [C]. *)
Lemma HierarchicalSearchSpace_tree_witness :
  ∃ root,
    _root (search_space_at heap_hierarchical 100) = Some root ∧ root ∈ [0; 1; 2] ∧
    (∀ q i n, q ∈ [0; 1; 2] → lists_dependent example_heap q i n →
              ∃ c, c ∈ [0; 1; 2] ∧ name_of example_heap c = n) ∧
    (∀ q1 q2 i j n,
        q1 ∈ [0; 1; 2] → q2 ∈ [0; 1; 2] →
        lists_dependent example_heap q1 i n → lists_dependent example_heap q2 j n →
        q1 = q2 ∧ i = j) ∧
    (∀ q i, q ∈ [0; 1; 2] → ¬ lists_dependent example_heap q i (name_of example_heap root)) ∧
    (∀ c, c ∈ [0; 1; 2] → c ≠ root →
          ∃ q i, q ∈ [0; 1; 2] ∧ lists_dependent example_heap q i (name_of example_heap c)).
Proof.
  apply (HierarchicalSearchSpace_tree [0; 1; 2] (Some [52]) example_heap 100
           heap_hierarchical).
  apply injective_projections; [vm_compute; reflexivity|reflexivity].
Defined.

(** X23: the theorem at the same space. *)
Lemma HierarchicalSearchSpace_acyclic_witness :
  (∃ s, _check_subtree recursion_limit heap_hierarchical 100 1 = Return s) ∧
  ¬ tc (depends_on heap_hierarchical 100) 1 1.
Proof.
  apply (HierarchicalSearchSpace_acyclic [0; 1; 2] (Some [52]) example_heap 100
           heap_hierarchical).
  - apply injective_projections; [vm_compute; reflexivity|reflexivity].
  - by right; left.
Defined.

(** X24: the theorem at the single parameter [B]. *)
Lemma HierarchicalSearchSpace_flat_witness :
  ∃ h', new_HierarchicalSearchSpace [1] None example_heap = (Return 100, h') ∧
        _root (search_space_at h' 100) = Some 1.
Proof.
  destruct (HierarchicalSearchSpace_flat [1] None example_heap) as [Hone _].
  - discriminate.
  - intros p ->%list_elem_of_singleton. reflexivity.
  - apply (bool_decide_unpack _). vm_compute. exact I.
  - by intros c ?%elem_of_nil.
  - by apply (Hone 1).
Defined.

(** X25: the theorem at [SearchSpace([B, C], [OrderConstraint(B2, C2)])]. *)
Lemma construction_rebinds_witness :
  _parameter_constraints (search_space_at heap_B_C_copies 100) = [50] ∧
  (∀ c p, c ∈ [50] → p ∈ constraint_parameters (constraint_at heap_B_C_copies c) →
          p ∈ [1; 2] ∧
          dict_get (name_of heap_B_C_copies p)
            (_parameters (search_space_at heap_B_C_copies 100)) = Some p) ∧
  (∀ c, c ∉ [50] → constraint_at heap_B_C_copies c = constraint_at example_heap c) ∧
  parameter_at heap_B_C_copies = parameter_at example_heap.
Proof.
  apply (construction_rebinds [1; 2] (Some [50]) example_heap 100 heap_B_C_copies).
  left. apply injective_projections; [vm_compute; reflexivity|reflexivity].
Defined.

(** X26: the theorem at the clone of the hierarchical space of [A], [B],
    [C] and [B <= C]. *)
Lemma clone_objects_witness :
  (next_loc heap_hierarchical ≤ 107)%nat ∧
  (∀ l, l < next_loc heap_hierarchical →
        parameter_at heap_cloned l = parameter_at heap_hierarchical l ∧
        constraint_at heap_cloned l = constraint_at heap_hierarchical l ∧
        search_space_at heap_cloned l = search_space_at heap_hierarchical l) ∧
  well_formed heap_cloned 107 ∧
  Forall2 (λ p p', (next_loc heap_hierarchical ≤ p')%nat ∧
                   parameter_at heap_cloned p' = clone (parameter_at heap_hierarchical p))
    (dict_values (_parameters (search_space_at heap_hierarchical 100)))
    (dict_values (_parameters (search_space_at heap_cloned 107))) ∧
  length (_parameter_constraints (search_space_at heap_cloned 107)) =
    length (_parameter_constraints (search_space_at heap_hierarchical 100)) ∧
  (∀ c', c' ∈ _parameter_constraints (search_space_at heap_cloned 107) →
         (next_loc heap_hierarchical ≤ c')%nat ∧
         ∀ p', p' ∈ constraint_parameters (constraint_at heap_cloned c') →
               (next_loc heap_hierarchical ≤ p')%nat ∧
               dict_get (name_of heap_cloned p')
                 (_parameters (search_space_at heap_cloned 107)) = Some p').
Proof.
  apply (clone_objects 100 heap_hierarchical 107 heap_cloned).
  apply (outcome_and_heap (SearchSpace_clone 100 heap_hierarchical)).
  vm_compute. reflexivity.
Defined.

(** X27: the theorem at [R], whose dependents [S] and [T] both have the
    dependent [C]. *)
Lemma check_subtree_first_conflict_witness :
  _check_subtree 3 heap_R_S_T_C 100 10 =
    Raise (UserInputError
             (subtrees_contain_the_same_parameters
                (⋃ [{[ "S"; "C" ]}] ∩ {[ "T"; "C" ]}))).
Proof.
  apply (check_subtree_first_conflict 2 heap_R_S_T_C 100 10 ["S"] "T" []
           [{[ "S"; "C" ]}] {[ "T"; "C" ]}).
  - reflexivity.
  - reflexivity.
  - repeat constructor. exists 11. split; vm_compute; reflexivity.
  - by intros [|i] [|j] s1 s2 ? ? ?; try lia.
  - exists 12. split; vm_compute; reflexivity.
  - intros Hdisjoint. apply (Hdisjoint "C"); vm_compute; reflexivity.
Defined.

(** X28: the theorem at the space of [B] and [C], both of them range
    parameters. *)
Lemma views_of_parameters_witness :
  range_parameters heap_B_C 100 `sublist_of` tunable_parameters heap_B_C 100.
Proof.
  destruct (views_of_parameters heap_B_C 100) as (_ & _ & _ & _ & Hsub).
  - apply (bool_decide_unpack _). vm_compute. exact I.
  - by apply Hsub.
Defined.

(** X29: the theorem at [B = 1], [C = 5] and at [C = 5], [B = 1]. *)
Lemma check_types_order_witness :
  check_types heap_B_C 100 [("B", VInt 1); ("C", VInt 5)] true false =
  check_types heap_B_C 100 [("C", VInt 5); ("B", VInt 1)] true false.
Proof. apply (check_types_order heap_B_C 100). apply perm_swap. Defined.

(** X30: the theorem at [construct_arm({"C": 3}, "arm0")]. *)
Lemma construct_arm_again_witness :
  construct_arm heap_B_C 100 (Some [("B", VNone); ("C", VInt 3)]) (Some "arm0") =
    Return (mkArm [("B", VNone); ("C", VInt 3)] (Some "arm0")).
Proof.
  apply (construct_arm_again heap_B_C 100 [("C", VInt 3)] (Some "arm0")
           (mkArm [("B", VNone); ("C", VInt 3)] (Some "arm0"))).
  - apply (bool_decide_unpack _). vm_compute. exact I.
  - apply (bool_decide_unpack _). vm_compute. exact I.
  - vm_compute. reflexivity.
Defined.
